(** * libsdcxx: bigram profiles and the Sørensen-Dice sequence matcher

    A shallow embedding of
      - [src/libsdcxx/bigrams.hxx]          (class [basic_bigrams]),
      - [src/libsdcxx/bigram_multiset.hxx]  (class [basic_bigram_multiset]
        and the hash [hash_bigram]),
      - [src/libsdcxx/sequence_matcher.hxx] (class [basic_sequence_matcher]
        and its match [iterator]),
    followed by the properties the specification states about them.

    Modelling conventions.
      - [size_t] values are natural numbers ([nat]).  Counts and sizes are
        taken to stay below 2^64, so the additions of the source do not wrap.
      - A character ([char], [wchar_t]) is the integer [ssize_t(c)] the
        comparator of the source converts it to; a string is a list of them.
      - [double] is modelled twice.  [Double] is the arithmetic without
        rounding: exact rationals extended with the IEEE special values
        (+inf, -inf, NaN) that the source produces when it divides by a zero
        size or a zero threshold; rounding, signed zeros and range overflow
        are not in it, and it serves the properties that do not turn on
        them.  [binary64] is the arithmetic of the machine: IEEE 754 double
        precision, rounded to nearest with ties to even, as the Standard
        Library specifies it ([SpecFloat]); the match iterator is embedded
        over it a second time, for the runs that the rounding decides.
      - [std::list] and [std::vector] are lists; [std::sort] is a sort under
        the tuple order; [std::multiset] is a sorted list; the iteration
        order of [std::unordered_multiset] is a parameter; the set of strip
        indices ([std::unordered_set<size_t>]) is a [gset nat].
      - A failed [assert] and a recursion that never returns are both the
        failure [None] of the matcher's state-and-error monad. *)

From Stdlib Require Import QArith Lqa String Ascii.
From Stdlib Require Import SpecFloat.
From stdpp Require Import gmultiset.
From stdpp Require Import base list sorting gmap.

Local Open Scope nat_scope.

(** ** Doubles without rounding: exact rationals with the IEEE special
    values *)

Module Double.

Inductive double : Type :=
| Fin (q : Q)
| PInf
| NInf
| NaN.

(** [static_cast<double>(n)] for a [size_t] [n]. *)
Definition of_size_t (n : nat) : double := Fin (inject_Z (Z.of_nat n)).

Definition zero : double := Fin 0.
Definition one : double := Fin 1.
Definition two : double := Fin 2.

Definition neg (x : double) : double :=
  match x with
  | Fin q => Fin (- q)
  | PInf => NInf
  | NInf => PInf
  | NaN => NaN
  end.

(** A signed infinity, or NaN for the sign of zero. *)
Definition inf_of_sign (c : comparison) : double :=
  match c with
  | Gt => PInf
  | Lt => NInf
  | Eq => NaN
  end.

Definition sign (q : Q) : comparison := (q ?= 0)%Q.

(** [x / y]: a non-zero number over zero is an infinity, 0/0 and inf/inf
    are NaN, a number over an infinity is zero. *)
Definition div (x y : double) : double :=
  match x, y with
  | NaN, _ | _, NaN => NaN
  | Fin a, Fin b =>
      match sign b with
      | Eq => inf_of_sign (sign a)
      | _ => Fin (a / b)
      end
  | Fin _, (PInf | NInf) => Fin 0
  | PInf, Fin b => match sign b with Lt => NInf | _ => PInf end
  | NInf, Fin b => match sign b with Lt => PInf | _ => NInf end
  | (PInf | NInf), (PInf | NInf) => NaN
  end.

Definition mul (x y : double) : double :=
  match x, y with
  | NaN, _ | _, NaN => NaN
  | Fin a, Fin b => Fin (a * b)
  | Fin a, PInf | PInf, Fin a => inf_of_sign (sign a)
  | Fin a, NInf | NInf, Fin a => inf_of_sign (CompOpp (sign a))
  | PInf, PInf | NInf, NInf => PInf
  | PInf, NInf | NInf, PInf => NInf
  end.

Definition sub (x y : double) : double :=
  match x, y with
  | NaN, _ | _, NaN => NaN
  | Fin a, Fin b => Fin (a - b)
  | Fin _, PInf => NInf
  | Fin _, NInf => PInf
  | PInf, PInf | NInf, NInf => NaN
  | PInf, _ => PInf
  | NInf, _ => NInf
  end.

(** [x < y]; every comparison with NaN is false. *)
Definition ltb (x y : double) : bool :=
  match x, y with
  | NaN, _ | _, NaN => false
  | Fin a, Fin b => match (a ?= b)%Q with Lt => true | _ => false end
  | Fin _, PInf => true
  | Fin _, NInf => false
  | PInf, _ => false
  | NInf, NInf => false
  | NInf, _ => true
  end.

(** [x > y]. *)
Definition gtb (x y : double) : bool := ltb y x.

(** [x >= y] as a proposition, for stating thresholds. *)
Definition ge (x y : double) : Prop :=
  match x, y with
  | NaN, _ | _, NaN => False
  | Fin a, Fin b => (b <= a)%Q
  | _, NInf => True
  | PInf, _ => True
  | _, _ => False
  end.

Definition lt (x y : double) : Prop := ltb x y = true.

(** A finite double within the closed unit interval. *)
Definition in_unit (x : double) : Prop :=
  match x with
  | Fin q => (0 <= q <= 1)%Q
  | _ => False
  end.

End Double.

Import Double.

(** ** Characters, strings and bigrams *)

Definition char_t : Type := Z.
Definition string_t : Type := list char_t.
Definition bigram_t : Type := (char_t * char_t)%type.

(** A string literal as a [string_t]: each character by its code. *)
Definition str (s : string) : string_t :=
  map (fun c => Z.of_nat (nat_of_ascii c)) (list_ascii_of_string s).

(** [operator <] of [std::tuple<char_t, char_t>]. *)
Definition bigram_ltb (b1 b2 : bigram_t) : bool :=
  ((b1.1 <? b2.1) || ((b1.1 =? b2.1) && (b1.2 <? b2.2)))%Z.

(** [operator ==] of [std::tuple<char_t, char_t>]. *)
Definition bigram_eqb (b1 b2 : bigram_t) : bool :=
  ((b1.1 =? b2.1) && (b1.2 =? b2.2))%Z.

(** The bigrams of a string, by position: [(str[i], str[i+1])] for
    [i < str.size() - 1].  Callers guard [str.size() >= 2], so the
    subtraction does not wrap. *)
Definition bigram_at (s : string_t) (i : nat) : bigram_t :=
  (nth i s 0%Z, nth (i + 1) s 0%Z).

Definition bigram_vec (s : string_t) : list bigram_t :=
  map (bigram_at s) (seq 0 (length s - 1)).

(** How often a bigram occurs in a list of bigrams. *)
Definition occurrences (b : bigram_t) (l : list bigram_t) : nat :=
  foldr (fun x acc => if bigram_eqb x b then S acc else acc) 0 l.

(** [std::sort] over bigrams: insertion into a run sorted by [bigram_ltb]. *)
Fixpoint sort_insert (b : bigram_t) (l : list bigram_t) : list bigram_t :=
  match l with
  | [] => [b]
  | x :: l' => if bigram_ltb x b then x :: sort_insert b l' else b :: l
  end.

Definition sort (l : list bigram_t) : list bigram_t :=
  foldr sort_insert [] l.

(** ** [basic_bigrams]: the counted representation (bigrams.hxx) *)

Module basic_bigrams.

(** [bigram_cnt_t]: a bigram with its count. *)
Definition bigram_cnt_t : Type := (bigram_t * nat)%type.

(** The object: [m_impl], the list of counted bigrams, and [m_size]. *)
Record t : Type := mk { m_impl : list bigram_cnt_t; m_size : nat }.

(** [cmp]: negative, zero or positive, lexicographic on the bigram. *)
Definition cmp (bc1 bc2 : bigram_cnt_t) : Z :=
  let b1 := bc1.1 in
  let b2 := bc2.1 in
  let diff := (b1.1 - b2.1)%Z in
  if (0 =? diff)%Z then (b1.2 - b2.2)%Z else diff.

(** Default constructor. *)
Definition empty : t := mk [] 0.

(** One round of the "unify same bigrams" loop.  [racc] is [m_impl] in
    reverse, so that its head is [m_impl.back()]. *)
Definition unify (racc : list bigram_cnt_t) (b : bigram_t)
  : list bigram_cnt_t :=
  match racc with
  | last_bigram_cnt :: racc' =>
      if bigram_eqb last_bigram_cnt.1 b
      then (last_bigram_cnt.1, S last_bigram_cnt.2) :: racc'
      else (b, 1) :: racc
  | [] => [(b, 1)]
  end.

(** Constructor from a string.  The [assert(m_size > 0)] cannot fail:
    a string of two characters or more has a bigram. *)
Definition of_string (s : string_t) : t :=
  if length s <? 2 then empty
  else
    let v := sort (bigram_vec s) in
    match v with
    | [] => empty
    | bigram :: rest =>
        mk (reverse (fold_left unify rest [(bigram, 1)])) (length v)
    end.

Definition size (b : t) : nat := m_size b.

Definition sum_counts (l : list bigram_cnt_t) : nat :=
  foldr (fun bc acc => bc.2 + acc) 0 l.

(** The two loops of [operator +=] for distinct objects: [mine] is what is
    left of [m_impl] from [my_bigram] on, [other] what is left of
    [other.m_impl] from [other_bigram] on, [sz] the running [m_size].
    The result is the rest of the updated [m_impl] and the final
    [m_size]. *)
Fixpoint merge (mine other : list bigram_cnt_t) (sz : nat) {struct mine}
  : list bigram_cnt_t * nat :=
  match mine with
  | [] => (other, sz + sum_counts other)
  | my_bigram :: mine' =>
      (fix seek (other : list bigram_cnt_t) (sz : nat) {struct other}
         : list bigram_cnt_t * nat :=
         match other with
         | [] => (mine, sz)
         | other_bigram :: other' =>
             let bg_cmp := cmp my_bigram other_bigram in
             if (bg_cmp <? 0)%Z then
               let '(r, sz') := merge mine' other sz in
               (my_bigram :: r, sz')
             else if (0 =? bg_cmp)%Z then
               let '(r, sz') := merge mine' other' (sz + other_bigram.2) in
               ((my_bigram.1, my_bigram.2 + other_bigram.2) :: r, sz')
             else
               let '(r, sz') := seek other' (sz + other_bigram.2) in
               (other_bigram :: r, sz')
         end) other sz
  end.

(** [*this += other] where [other] is another object; the result is the
    new [*this]. *)
Definition plus_assign (this other : t) : t :=
  if size this =? 0 then other
  else
    let '(impl, sz) := merge (m_impl this) (m_impl other) (m_size this) in
    mk impl sz.

(** Variadic [unite(arg1, args...)]: the union is built right to left,
    [unite(args...) += arg1], on a copy of the last argument. *)
Fixpoint unite (arg1 : t) (args : list t) : t :=
  match args with
  | [] => arg1
  | arg2 :: args' => plus_assign (unite arg2 args') arg1
  end.

(** [operator +]. *)
Definition plus (this other : t) : t := unite this [other].

(** [*this += *this]: [other_bigram] and [my_bigram] walk the same list,
    so whatever is read through [other_bigram] sees what was written
    through [my_bigram].  Iterators are positions in [impl]; an insertion
    before [my] shifts the positions behind it.  The loop over trailing
    bigrams appends to the list it walks, so it returns only if it starts
    at the end; [fuel] bounds the number of rounds. *)
Fixpoint self_trailing (fuel : nat) (impl : list bigram_cnt_t)
    (other : nat) (sz : nat) : option (list bigram_cnt_t * nat) :=
  match fuel with
  | 0 => None
  | S fuel' =>
      match impl !! other with
      | None => Some (impl, sz)
      | Some other_bigram =>
          self_trailing fuel' (impl ++ [other_bigram]) (S other)
            (sz + other_bigram.2)
      end
  end.

Fixpoint self_merge (fuel : nat) (impl : list bigram_cnt_t)
    (my other : nat) (sz : nat) : option (list bigram_cnt_t * nat) :=
  match fuel with
  | 0 => None
  | S fuel' =>
      match impl !! my with
      | None => self_trailing fuel' impl other sz
      | Some my_bigram =>
          match impl !! other with
          | None => Some (impl, sz)
          | Some other_bigram =>
              let bg_cmp := cmp my_bigram other_bigram in
              if (bg_cmp <? 0)%Z then self_merge fuel' impl (S my) other sz
              else if (0 =? bg_cmp)%Z then
                let impl' :=
                  <[my := (my_bigram.1, my_bigram.2 + other_bigram.2)]> impl in
                match impl' !! other with
                | None => None
                | Some other_now =>
                    self_merge fuel' impl' (S my) (S other) (sz + other_now.2)
                end
              else
                let impl' := take my impl ++ other_bigram :: drop my impl in
                let other' := if my <=? other then S other else other in
                self_merge fuel' impl' (S my) (S other') (sz + other_bigram.2)
          end
      end
  end.

Definition plus_assign_self (fuel : nat) (this : t) : option t :=
  if size this =? 0 then Some this
  else
    match self_merge fuel (m_impl this) 0 0 (m_size this) with
    | None => None
    | Some (impl, sz) => Some (mk impl sz)
    end.

(** [intersect_size]: [l1] and [l2] are the two lists from [bg1] and
    [bg2] on. *)
Fixpoint intersect_walk (l1 l2 : list bigram_cnt_t) (size : nat) {struct l1}
  : nat :=
  match l1 with
  | [] => size
  | bg1 :: l1' =>
      (fix walk2 (l2 : list bigram_cnt_t) (size : nat) {struct l2} : nat :=
         match l2 with
         | [] => size
         | bg2 :: l2' =>
             let bg_cmp := cmp bg1 bg2 in
             if (bg_cmp <? 0)%Z then intersect_walk l1' l2 size
             else if (bg_cmp =? 0)%Z
                  then intersect_walk l1' l2' (size + Nat.min bg1.2 bg2.2)
                  else walk2 l2' size
         end) l2 size
  end.

Definition intersect_size (bigrams1 bigrams2 : t) : nat :=
  intersect_walk (m_impl bigrams1) (m_impl bigrams2) 0.

(** [isect_size ? 2.0 * isect_size / (size1 + size2) : 0.0] *)
Definition sorensen_dice_coef (bigrams1 bigrams2 : t) : double :=
  let isect_size := intersect_size bigrams1 bigrams2 in
  if isect_size =? 0 then zero
  else div (mul two (of_size_t isect_size))
           (of_size_t (size bigrams1 + size bigrams2)).

(** How often a bigram occurs in the profile that iteration yields. *)
Definition count_in (b : bigram_t) (l : list bigram_cnt_t) : nat :=
  foldr (fun bc acc => if bigram_eqb bc.1 b then bc.2 + acc else acc) 0 l.

Definition count (b : bigram_t) (p : t) : nat := count_in b (m_impl p).

End basic_bigrams.

(** ** [basic_bigram_multiset]: one element per occurrence (bigram_multiset.hxx) *)

(** [std::multiset::insert]: the new element goes behind the elements
    that are not greater, keeping the iteration order sorted. *)
Fixpoint multiset_insert (b : bigram_t) (l : list bigram_t) : list bigram_t :=
  match l with
  | [] => [b]
  | x :: l' => if bigram_ltb b x then b :: l else x :: multiset_insert b l'
  end.

(** [std::unordered_multiset]: where the hash table links a new element,
    and how a rehash reorders the others, is the library's business.  A
    layout maps the elements, the new one first, to the iteration order
    after the insertion; all it must do is keep the elements. *)
Record hash_layout : Type := {
  layout :> list bigram_t -> list bigram_t;
  layout_perm : forall l, Permutation (layout l) l
}.

Definition unordered_insert (h : hash_layout) (b : bigram_t)
    (l : list bigram_t) : list bigram_t :=
  h (b :: l).

Module basic_bigram_multiset.
Section Implementation.

(** [Implementation::insert], on the container given by its iteration
    order. *)
Variable insert : bigram_t -> list bigram_t -> list bigram_t.

(** The object: [m_impl] in iteration order. *)
Record t : Type := mk { m_impl : list bigram_t }.

Definition empty : t := mk [].

(** Constructor from a string: [emplace] each positional bigram. *)
Definition of_string (s : string_t) : t :=
  if 1 <? length s
  then mk (fold_left (fun impl b => insert b impl) (bigram_vec s) [])
  else empty.

Definition size (b : t) : nat := length (m_impl b).

(** [*this += other] for distinct objects. *)
Definition plus_assign (this other : t) : t :=
  if size this =? 0 then other
  else mk (fold_left (fun impl b => insert b impl) (m_impl other) (m_impl this)).

Fixpoint unite (arg1 : t) (args : list t) : t :=
  match args with
  | [] => arg1
  | arg2 :: args' => plus_assign (unite arg2 args') arg1
  end.

Definition plus (this other : t) : t := unite this [other].

(** [std::set_intersection] into the [insert_counter]: the walk over the
    two ranges of the reference algorithm, counting the assignments. *)
Fixpoint set_intersection (l1 l2 : list bigram_t) (cnt : nat) {struct l1}
  : nat :=
  match l1 with
  | [] => cnt
  | x1 :: l1' =>
      (fix walk2 (l2 : list bigram_t) (cnt : nat) {struct l2} : nat :=
         match l2 with
         | [] => cnt
         | x2 :: l2' =>
             if bigram_ltb x1 x2 then set_intersection l1' l2 cnt
             else if bigram_ltb x2 x1 then walk2 l2' cnt
             else set_intersection l1' l2' (S cnt)
         end) l2 cnt
  end.

Definition intersect_size (bigrams1 bigrams2 : t) : nat :=
  set_intersection (m_impl bigrams1) (m_impl bigrams2) 0.

Definition sorensen_dice_coef (bigrams1 bigrams2 : t) : double :=
  let isect_size := intersect_size bigrams1 bigrams2 in
  if isect_size =? 0 then zero
  else div (mul two (of_size_t isect_size))
           (of_size_t (size bigrams1 + size bigrams2)).

Definition count (b : bigram_t) (p : t) : nat := occurrences b (m_impl p).

End Implementation.
End basic_bigram_multiset.

(** [bigram_multiset] and [unordered_bigram_multiset]. *)
Module bigram_multiset.
Definition t := basic_bigram_multiset.t.
Definition empty := basic_bigram_multiset.empty.
Definition of_string := basic_bigram_multiset.of_string multiset_insert.
Definition size := basic_bigram_multiset.size.
Definition plus_assign := basic_bigram_multiset.plus_assign multiset_insert.
Definition unite := basic_bigram_multiset.unite multiset_insert.
Definition plus := basic_bigram_multiset.plus multiset_insert.
Definition intersect_size := basic_bigram_multiset.intersect_size.
Definition sorensen_dice_coef := basic_bigram_multiset.sorensen_dice_coef.
Definition count := basic_bigram_multiset.count.

(** [*this += *this]: the range-for walks [other.m_impl], which is
    [m_impl] itself, while [insert] adds to it.  The iterator is a
    position in the iteration order; [std::multiset::insert] invalidates
    no iterator and links the copy behind the elements that are not
    greater, so behind the iterator.  The loop ends when the iterator is
    at [end()], the position behind the last element; [fuel] bounds the
    number of rounds. *)
Fixpoint self_insert (fuel : nat) (impl : list bigram_t) (pos : nat)
  : option (list bigram_t) :=
  match fuel with
  | 0 => None
  | S fuel' =>
      match impl !! pos with
      | None => Some impl
      | Some bigram => self_insert fuel' (multiset_insert bigram impl) (S pos)
      end
  end.

Definition plus_assign_self (fuel : nat) (this : t) : option t :=
  if size this =? 0 then Some this
  else
    basic_bigram_multiset.mk
      <$> self_insert fuel (basic_bigram_multiset.m_impl this) 0.
End bigram_multiset.

Module unordered_bigram_multiset.
Definition t := basic_bigram_multiset.t.
Definition empty := basic_bigram_multiset.empty.
Definition of_string (h : hash_layout) :=
  basic_bigram_multiset.of_string (unordered_insert h).
Definition size := basic_bigram_multiset.size.
Definition plus_assign (h : hash_layout) :=
  basic_bigram_multiset.plus_assign (unordered_insert h).
Definition unite (h : hash_layout) :=
  basic_bigram_multiset.unite (unordered_insert h).
Definition plus (h : hash_layout) :=
  basic_bigram_multiset.plus (unordered_insert h).
Definition intersect_size := basic_bigram_multiset.intersect_size.
Definition sorensen_dice_coef := basic_bigram_multiset.sorensen_dice_coef.
Definition count := basic_bigram_multiset.count.
End unordered_bigram_multiset.

(** ** [hash_bigram<Char, true>]: the hash of the unordered container *)

Module hash_bigram.
Section Hash.

(** [sizeof(Char)] and [sizeof(size_t)], in bytes. *)
Variables sizeof_char sizeof_size_t : Z.

(** [static_cast<size_t>(c)]: the value modulo 2^(8 * sizeof(size_t)); a
    negative character of a signed [Char] is sign-extended by it. *)
Definition to_size_t (c : Z) : Z := (c mod 2 ^ (8 * sizeof_size_t))%Z.

(** [static_cast<size_t>(std::get<1>(bigram)) << (8 * sizeof(Char)) |
     static_cast<size_t>(std::get<0>(bigram))]; the shift is one of
    [size_t] and drops the bits it moves out. *)
Definition hash (bigram : bigram_t) : Z :=
  Z.lor (to_size_t (Z.shiftl (to_size_t bigram.2) (8 * sizeof_char)))
        (to_size_t bigram.1).

End Hash.
End hash_bigram.

(** ** An iteration order of [std::unordered_multiset] *)

(** The order in which the hash table of GNU libstdc++ iterates while it
    keeps [bucket_count] buckets (13 from the first insertion until the
    table holds more than 13 elements).  The elements are one linked
    list in which every bucket is a run.  [emplace] links a new element
    before an equal one if there is one; otherwise at the head of the
    run of its bucket, [hash % bucket_count]; otherwise, its bucket being
    empty, at the head of the list. *)
Module bucket_table.
Section Buckets.

Variable bucket_count : Z.

(** The bucket of a [std::tuple<char, char>] under
    [hash_bigram<char, true>], with a [size_t] of 8 bytes. *)
Definition bucket (b : bigram_t) : Z :=
  (hash_bigram.hash 1 8 b mod bucket_count)%Z.

(** [b] linked before the first element that satisfies [here]. *)
Fixpoint link_before (here : bigram_t -> bool) (b : bigram_t)
    (l : list bigram_t) : option (list bigram_t) :=
  match l with
  | [] => None
  | x :: l' =>
      if here x then Some (b :: l) else cons x <$> link_before here b l'
  end.

Definition insert (b : bigram_t) (l : list bigram_t) : list bigram_t :=
  match link_before (bigram_eqb b) b l with
  | Some l' => l'
  | None =>
      match link_before (fun x => (bucket x =? bucket b)%Z) b l with
      | Some l' => l'
      | None => b :: l
      end
  end.

(** The order after an insertion, of the elements with the new one
    first. *)
Definition order (l : list bigram_t) : list bigram_t :=
  match l with
  | [] => []
  | b :: l' => insert b l'
  end.

Lemma link_before_perm (here : bigram_t -> bool) (b : bigram_t)
    (l l' : list bigram_t) :
  link_before here b l = Some l' -> Permutation l' (b :: l).
Proof.
  revert l'. induction l as [|x l IH]; intros l'; simpl; [discriminate|].
  destruct (here x).
  - intros [= <-]. reflexivity.
  - destruct (link_before here b l) as [r|]; simpl; [|discriminate].
    intros [= <-]. rewrite (IH r eq_refl). apply perm_swap.
Qed.

Lemma order_perm (l : list bigram_t) : Permutation (order l) l.
Proof.
  destruct l as [|b l]; [reflexivity|]. unfold order, insert.
  destruct (link_before (bigram_eqb b) b l) as [r|] eqn:Heq;
    [apply (link_before_perm _ _ _ _ Heq)|].
  destruct (link_before (fun x => (bucket x =? bucket b)%Z) b l)
    as [r|] eqn:Hbkt; [|reflexivity].
  apply (link_before_perm _ _ _ _ Hbkt).
Qed.

Definition layout : hash_layout := Build_hash_layout order order_perm.

End Buckets.
End bucket_table.

(** ** The [Bigrams] template parameter of the matcher *)

(** What [basic_sequence_matcher<Bigrams>] uses of its parameter: the
    default constructor, the constructor from a string, [size()],
    [operator +] and the static [sorensen_dice_coef]. *)
Class Bigrams (B : Type) : Type := {
  bg_empty : B;
  bg_of_string : string_t -> B;
  bg_size : B -> nat;
  bg_plus : B -> B -> B;
  bg_sorensen_dice_coef : B -> B -> double
}.

#[export] Instance bigrams_Bigrams : Bigrams basic_bigrams.t := {
  bg_empty := basic_bigrams.empty;
  bg_of_string := basic_bigrams.of_string;
  bg_size := basic_bigrams.size;
  bg_plus := basic_bigrams.plus;
  bg_sorensen_dice_coef := basic_bigrams.sorensen_dice_coef
}.

(** ** [basic_sequence_matcher] (sequence_matcher.hxx) *)

Module basic_sequence_matcher.
Section Matcher.

Context {B : Type} `{Bigrams B}.

(** C++ leaves open which operand of [f(..) + g(..)] is evaluated
    first; both calls write to the matrix.  [true]: the right one. *)
Variable eval_right_first : bool.

(** [mx_cell]: the tag [val_type_t] with the value it selects. *)
Inductive mx_cell : Type :=
| NONE
| SIZE (size : nat)
| BIGRAMS (bgrms : B).

(** [row_t] and [matrix_t]: vectors of cells and of rows. *)
Abbreviation row_t := (list mx_cell) (only parsing).
Abbreviation matrix_t := (list (list mx_cell)) (only parsing).

Record t : Type := mk {
  m_mx : matrix_t;
  m_strip_ixs : gset nat
}.

(** Default constructor. *)
Definition empty : t := mk [] ∅.

Definition size (m : t) : nat := length (m_mx m).

(** [reserve] changes capacities only. *)
Definition reserve (len : nat) (m : t) : t := m.

Definition add_row (m : t) : t := mk (m_mx m ++ [[]]) (m_strip_ixs m).

(** [push_back]: a new row, the bigrams at the end of row 0, an empty
    cell at the end of every other row. *)
Definition push_back (bgrms : B) (strip : bool) (m : t) : t :=
  let strip_ixs :=
    if strip then {[ size m ]} ∪ m_strip_ixs m else m_strip_ixs m in
  let m1 := add_row m in
  let mx := alter (fun row => row ++ [BIGRAMS bgrms]) 0 (m_mx m1) in
  mk (imap (fun i row => if 1 <=? i then row ++ [NONE] else row) mx)
     strip_ixs.

Definition emplace_back (s : string_t) (strip : bool) (m : t) : t :=
  push_back (bg_of_string s) strip m.

(** *** Computations on the matrix: state and failure *)

Definition M (A : Type) : Type := matrix_t -> option (A * matrix_t).

Definition ret {A} (a : A) : M A := fun mx => Some (a, mx).

Definition fail {A} : M A := fun _ => None.

Definition bind {A C} (c : M A) (k : A -> M C) : M C :=
  fun mx =>
    match c mx with
    | None => None
    | Some (a, mx') => k a mx'
    end.

Notation "x <- c ;; k" := (bind c (fun x => k))
  (at level 100, c at next level, right associativity).

(** [m_mx[i][j]] behind [assert(i < size())] and
    [assert(j < row.size())]. *)
Definition get_cell (i j : nat) : M mx_cell :=
  fun mx =>
    match mx !! i with
    | None => None
    | Some row =>
        match row !! j with
        | None => None
        | Some cell => Some (cell, mx)
        end
    end.

Definition put_cell (i j : nat) (cell : mx_cell) : M unit :=
  fun mx => Some (tt, alter (fun row => <[j := cell]> row) i mx).

(** [mx_cell::size], with its [assert(m_type != NONE)]. *)
Definition cell_size (cell : mx_cell) : M nat :=
  match cell with
  | NONE => fail
  | SIZE n => ret n
  | BIGRAMS b => ret (bg_size b)
  end.

(** [mx_cell::set_size], with its [assert(m_type == NONE)]. *)
Definition set_size (i j : nat) (n : nat) : M unit :=
  cell <- get_cell i j;;
  match cell with
  | NONE => put_cell i j (SIZE n)
  | _ => fail
  end.

(** [mx_cell::set_bigrams], with its [assert(m_type != BIGRAMS)]. *)
Definition set_bigrams (i j : nat) (b : B) : M unit :=
  cell <- get_cell i j;;
  match cell with
  | BIGRAMS _ => fail
  | _ => put_cell i j (BIGRAMS b)
  end.

(** [mx_cell::bigrams], with its [assert(m_type == BIGRAMS)]. *)
Definition cell_bigrams (i j : nat) : M B :=
  cell <- get_cell i j;;
  match cell with
  | BIGRAMS b => ret b
  | _ => fail
  end.

(** [sub_ix]: the cell [(i, j)] splits into [(i1, j1)] and [(i2, j2)].
    For [i = 0] the last subtraction of the source wraps; the matcher
    calls [sub_ix] on row 0 only for a cell without value, where
    [(i1, j1)] is the cell itself and the recursion does not return. *)
Definition sub_ix (i j : nat) : nat * nat * nat * nat :=
  let i1 := i / 2 in
  let j1 := j in
  let i2 := i1 + 1 in
  let j2 := j + i2 in
  let i2 := i - i2 in
  (i1, j1, i2, j2).

(** The two operands of a sum, in the order chosen by
    [eval_right_first]. *)
Definition both {A} (left right : M A) : M (A * A) :=
  if eval_right_first
  then (r <- right;; l <- left;; ret (l, r))
  else (l <- left;; r <- right;; ret (l, r)).

(** [bigrams_size]; [fuel] bounds the depth of the recursion. *)
Fixpoint bigrams_size_rec (fuel : nat) (i j : nat) : M nat :=
  match fuel with
  | 0 => fail
  | S fuel' =>
      cell <- get_cell i j;;
      match cell with
      | NONE =>
          let '(i1, j1, i2, j2) := sub_ix i j in
          lr <- both (bigrams_size_rec fuel' i1 j1)
                     (bigrams_size_rec fuel' i2 j2);;
          let result := lr.1 + lr.2 in
          _ <- set_size i j result;;
          ret result
      | _ => cell_size cell
      end
  end.

(** [bigrams]. *)
Fixpoint bigrams_rec (fuel : nat) (i j : nat) : M B :=
  match fuel with
  | 0 => fail
  | S fuel' =>
      cell <- get_cell i j;;
      match cell with
      | BIGRAMS _ => cell_bigrams i j
      | _ =>
          let '(i1, j1, i2, j2) := sub_ix i j in
          lr <- both (bigrams_rec fuel' i1 j1) (bigrams_rec fuel' i2 j2);;
          _ <- set_bigrams i j (bg_plus lr.1 lr.2);;
          cell_bigrams i j
      end
  end.

(** Each call descends to a smaller row, so depth [i + 1] is enough
    whenever the recursion returns at all. *)
Definition bigrams_size (i j : nat) : M nat := bigrams_size_rec (S i) i j.
Definition bigrams (i j : nat) : M B := bigrams_rec (S i) i j.

(** *** The match iterator *)

(** The iterator without its reference to the matcher, which the
    operations below take and return. *)
Record iterator : Type := mk_iterator {
  m_bigrams : B;
  m_sdc_threshold : double;
  m_card_ratio_threshold : double;
  m_i : nat;
  m_j : nat;
  m_sdc : double
}.

Definition set_ij (it : iterator) (i j : nat) : iterator :=
  mk_iterator (m_bigrams it) (m_sdc_threshold it)
    (m_card_ratio_threshold it) i j (m_sdc it).

Definition set_sdc (it : iterator) (sdc : double) : iterator :=
  mk_iterator (m_bigrams it) (m_sdc_threshold it)
    (m_card_ratio_threshold it) (m_i it) (m_j it) sdc.

(** How the inner loop of [next_match] is left. *)
Inductive inner_exit : Type :=
| Return   (** [return]: match found *)
| Leave.   (** the loop condition failed, or [break] *)

(** The inner loop of [next_match], [n] rounds before
    [m_i < size() - m_j] fails. *)
Fixpoint inner_loop (strip_ixs : gset nat) (n : nat) (it : iterator)
  : M (inner_exit * iterator) :=
  match n with
  | 0 => ret (Leave, it)
  | S n' =>
      let next := set_ij it (S (m_i it)) (m_j it) in
      if bool_decide (m_j it + m_i it ∈ strip_ixs)
      then inner_loop strip_ixs n' next
      else
        sz <- bigrams_size (m_i it) (m_j it);;
        let card_ratio :=
          div (of_size_t sz) (of_size_t (bg_size (m_bigrams it))) in
        let subseq_short := ltb card_ratio one in
        let card_ratio :=
          if subseq_short then div one card_ratio else card_ratio in
        if gtb card_ratio (m_card_ratio_threshold it) then
          if subseq_short then inner_loop strip_ixs n' next
          else ret (Leave, it)
        else
          b <- bigrams (m_i it) (m_j it);;
          let it := set_sdc it (bg_sorensen_dice_coef b (m_bigrams it)) in
          if ltb (m_sdc it) (m_sdc_threshold it)
          then inner_loop strip_ixs n' (set_ij it (S (m_i it)) (m_j it))
          else ret (Return, it)
  end.

(** The outer loop, [n] rounds before [m_j < size()] fails. *)
Fixpoint outer_loop (strip_ixs : gset nat) (sz : nat) (n : nat)
    (it : iterator) : M iterator :=
  match n with
  | 0 => ret it
  | S n' =>
      if bool_decide (m_j it ∈ strip_ixs)
      then outer_loop strip_ixs sz n' (set_ij it (m_i it) (S (m_j it)))
      else
        r <- inner_loop strip_ixs (sz - m_j it - m_i it) it;;
        match r.1 with
        | Return => ret r.2
        | Leave => outer_loop strip_ixs sz n' (set_ij r.2 0 (S (m_j r.2)))
        end
  end.

(** An operation on the matcher: its result and the matcher with the
    matrix as the operation leaves it. *)
Definition run {A} (c : M A) (m : t) : option (A * t) :=
  match c (m_mx m) with
  | None => None
  | Some (a, mx) => Some (a, mk mx (m_strip_ixs m))
  end.

Definition next_match (it : iterator) (m : t) : option (iterator * t) :=
  run (outer_loop (m_strip_ixs m) (size m) (size m - m_j it) it) m.

(** The constructor. *)
Definition iterator_ctor (bgrms : B) (threshold : double) (i j : nat)
    (m : t) : option (iterator * t) :=
  next_match
    (mk_iterator bgrms threshold (sub (div two threshold) one) i j zero) m.

(** [begin] and [end]. *)
Definition begin (bgrms : B) (threshold : double) (m : t)
  : option (iterator * t) :=
  iterator_ctor bgrms threshold 0 0 m.

Definition end_ (m : t) : option (iterator * t) :=
  iterator_ctor bg_empty zero 0 (size m) m.

(** [operator ++]. *)
Definition incr (it : iterator) (m : t) : option (iterator * t) :=
  next_match (set_ij it (S (m_i it)) (m_j it)) m.

(** [operator ==] and [operator <]. *)
Definition iter_eq (a b : iterator) : bool :=
  (m_i a =? m_i b) && (m_j a =? m_j b).

Definition iter_lt (a b : iterator) : bool :=
  if m_j a <? m_j b then true
  else if m_j b <? m_j a then false
  else m_i a <? m_i b.

(** [operator *], [size()], [begin()], [end()] of a match. *)
Definition deref (it : iterator) (m : t) : option (B * t) :=
  run (bigrams (m_i it) (m_j it)) m.
Definition match_size (it : iterator) : nat := m_i it + 1.
Definition match_begin (it : iterator) : nat := m_j it.
Definition match_end (it : iterator) : nat := match_begin it + match_size it.

(** [sorensen_dice_coef()] of a match: the stored [m_sdc]. *)
Definition match_sdc (it : iterator) : double := m_sdc it.

(** [operator !=], [operator >], [operator <=], [operator >=], each
    written with [operator ==] or [operator <] as in the source. *)
Definition iter_ne (a b : iterator) : bool := negb (iter_eq a b).
Definition iter_gt (a b : iterator) : bool := iter_lt b a.
Definition iter_le (a b : iterator) : bool := negb (iter_gt a b).
Definition iter_ge (a b : iterator) : bool := negb (iter_lt a b).

End Matcher.

Abbreviation row_t := (list mx_cell) (only parsing).
Abbreviation matrix_t := (list (list mx_cell)) (only parsing).

End basic_sequence_matcher.

(** ** The arithmetic of the machine: IEEE 754 binary64 *)

Module binary64.

(** The precision and the exponent bound of double precision. *)
Definition prec : Z := 53.
Definition emax : Z := 1024.

Definition double : Type := spec_float.

(** The double nearest to [m * 2^e]; it is [m * 2^e] itself when [m] has
    no more than 53 bits and the exponent is in range. *)
Definition scaled (m e : Z) : double := binary_normalize prec emax m e false.

(** [static_cast<double>(n)] for a [size_t] [n]. *)
Definition of_size_t (n : nat) : double := scaled (Z.of_nat n) 0.

(** The literals [0.0], [1.0] and [2.0]. *)
Definition zero : double := S754_zero false.
Definition one : double := scaled 1 0.
Definition two : double := scaled 2 0.

(** [/], [*] and [-], each rounded once; [<] and [>]. *)
Definition div : double -> double -> double := SFdiv prec emax.
Definition mul : double -> double -> double := SFmul prec emax.
Definition sub : double -> double -> double := SFsub prec emax.
Definition ltb : double -> double -> bool := SFltb.
Definition gtb (x y : double) : bool := ltb y x.

(** [basic_bigrams::sorensen_dice_coef]:
    [isect_size ? 2.0 * isect_size / (size1 + size2) : 0.0] *)
Definition sorensen_dice_coef (bigrams1 bigrams2 : basic_bigrams.t)
  : double :=
  let isect_size := basic_bigrams.intersect_size bigrams1 bigrams2 in
  if isect_size =? 0 then zero
  else div (mul two (of_size_t isect_size))
           (of_size_t (basic_bigrams.size bigrams1
                       + basic_bigrams.size bigrams2)).

(** *** The match iterator of [sequence_matcher], which is
    [basic_sequence_matcher<bigrams>], over this arithmetic *)

Section Matcher.

Import basic_sequence_matcher.

Variable eval_right_first : bool.

Abbreviation M := (basic_sequence_matcher.M (B := basic_bigrams.t))
  (only parsing).

Notation "x <- c ;; k" := (bind c (fun x => k))
  (at level 100, c at next level, right associativity).

Record iterator : Type := mk_iterator {
  m_bigrams : basic_bigrams.t;
  m_sdc_threshold : double;
  m_card_ratio_threshold : double;
  m_i : nat;
  m_j : nat;
  m_sdc : double
}.

Definition set_ij (it : iterator) (i j : nat) : iterator :=
  mk_iterator (m_bigrams it) (m_sdc_threshold it)
    (m_card_ratio_threshold it) i j (m_sdc it).

Definition set_sdc (it : iterator) (sdc : double) : iterator :=
  mk_iterator (m_bigrams it) (m_sdc_threshold it)
    (m_card_ratio_threshold it) (m_i it) (m_j it) sdc.

(** The inner loop of [next_match], [n] rounds before
    [m_i < size() - m_j] fails. *)
Fixpoint inner_loop (strip_ixs : gset nat) (n : nat) (it : iterator)
  : M (inner_exit * iterator) :=
  match n with
  | 0 => ret (Leave, it)
  | S n' =>
      let next := set_ij it (S (m_i it)) (m_j it) in
      if bool_decide (m_j it + m_i it ∈ strip_ixs)
      then inner_loop strip_ixs n' next
      else
        sz <- bigrams_size eval_right_first (m_i it) (m_j it);;
        let card_ratio :=
          div (of_size_t sz)
              (of_size_t (basic_bigrams.size (m_bigrams it))) in
        let subseq_short := ltb card_ratio one in
        let card_ratio :=
          if subseq_short then div one card_ratio else card_ratio in
        if gtb card_ratio (m_card_ratio_threshold it) then
          if subseq_short then inner_loop strip_ixs n' next
          else ret (Leave, it)
        else
          b <- bigrams eval_right_first (m_i it) (m_j it);;
          let it := set_sdc it (sorensen_dice_coef b (m_bigrams it)) in
          if ltb (m_sdc it) (m_sdc_threshold it)
          then inner_loop strip_ixs n' (set_ij it (S (m_i it)) (m_j it))
          else ret (Return, it)
  end.

(** The outer loop, [n] rounds before [m_j < size()] fails. *)
Fixpoint outer_loop (strip_ixs : gset nat) (sz : nat) (n : nat)
    (it : iterator) : M iterator :=
  match n with
  | 0 => ret it
  | S n' =>
      if bool_decide (m_j it ∈ strip_ixs)
      then outer_loop strip_ixs sz n' (set_ij it (m_i it) (S (m_j it)))
      else
        r <- inner_loop strip_ixs (sz - m_j it - m_i it) it;;
        match r.1 with
        | Return => ret r.2
        | Leave => outer_loop strip_ixs sz n' (set_ij r.2 0 (S (m_j r.2)))
        end
  end.

Definition next_match (it : iterator) (m : t) : option (iterator * t) :=
  run (outer_loop (m_strip_ixs m) (size m) (size m - m_j it) it) m.

(** The constructor: [m_card_ratio_threshold(2.0 / threshold - 1.0)]. *)
Definition iterator_ctor (bgrms : basic_bigrams.t) (threshold : double)
    (i j : nat) (m : t) : option (iterator * t) :=
  next_match
    (mk_iterator bgrms threshold (sub (div two threshold) one) i j zero) m.

Definition begin (bgrms : basic_bigrams.t) (threshold : double) (m : t)
  : option (iterator * t) :=
  iterator_ctor bgrms threshold 0 0 m.

Definition end_ (m : t) : option (iterator * t) :=
  iterator_ctor basic_bigrams.empty zero 0 (size m) m.

Definition incr (it : iterator) (m : t) : option (iterator * t) :=
  next_match (set_ij it (S (m_i it)) (m_j it)) m.

Definition iter_eq (a b : iterator) : bool :=
  (m_i a =? m_i b) && (m_j a =? m_j b).

Definition position (it : iterator) : nat * nat := (m_i it, m_j it).

(** What a caller collects: [for (it = begin(q, t); it != end(); ++it)]
    with the position of every [it]; a loop over [n] tokens has no more
    rounds than the triangle has cells. *)
Fixpoint collect (fuel : nat) (e it : iterator) (m : t)
  : option (list (nat * nat)) :=
  match fuel with
  | 0 => None
  | S fuel' =>
      if iter_eq it e then Some []
      else
        match incr it m with
        | None => None
        | Some (it', m') =>
            match collect fuel' e it' m' with
            | None => None
            | Some l => Some (position it :: l)
            end
        end
  end.

Definition all_matches (q : basic_bigrams.t) (threshold : double) (m : t)
  : option (list (nat * nat)) :=
  match begin q threshold m with
  | None => None
  | Some (it, m1) =>
      match end_ m1 with
      | None => None
      | Some (e, m2) => collect (S (size m * S (size m))) e it m2
      end
  end.

End Matcher.
End binary64.

(** * Properties *)

(** ** Doubles *)

Section double_facts.

Lemma ltb_Fin (a b : Q) : ltb (Fin a) (Fin b) = true <-> (a < b)%Q.
Proof.
  unfold ltb. rewrite Qlt_alt.
  destruct (a ?= b)%Q; split; congruence.
Qed.

Lemma ltb_Fin_false (a b : Q) : ltb (Fin a) (Fin b) = false <-> (b <= a)%Q.
Proof.
  rewrite <- not_true_iff_false, ltb_Fin. split.
  - apply Qnot_lt_le.
  - apply Qle_not_lt.
Qed.

Lemma sign_pos (q : Q) : (0 < q)%Q -> sign q = Gt.
Proof. intros Hq. unfold sign. apply Qgt_alt. exact Hq. Qed.

Lemma sign_zero (q : Q) : (q == 0)%Q -> sign q = Eq.
Proof. intros Hq. unfold sign. apply Qeq_alt. exact Hq. Qed.

Lemma div_Fin_pos (a b : Q) : (0 < b)%Q -> div (Fin a) (Fin b) = Fin (a / b).
Proof. intros Hb. unfold div. rewrite (sign_pos b Hb). reflexivity. Qed.

Lemma inject_nat_nonneg (n : nat) : (0 <= inject_Z (Z.of_nat n))%Q.
Proof. change 0%Q with (inject_Z 0). rewrite <- Zle_Qle. lia. Qed.

Lemma inject_nat_pos (n : nat) : 0 < n -> (0 < inject_Z (Z.of_nat n))%Q.
Proof. intros Hn. change 0%Q with (inject_Z 0). rewrite <- Zlt_Qlt. lia. Qed.

Lemma inject_nat_le (n k : nat) :
  n <= k -> (inject_Z (Z.of_nat n) <= inject_Z (Z.of_nat k))%Q.
Proof. intros Hn. rewrite <- Zle_Qle. lia. Qed.

Lemma inject_nat_lt (n k : nat) :
  n < k -> (inject_Z (Z.of_nat n) < inject_Z (Z.of_nat k))%Q.
Proof. intros Hn. rewrite <- Zlt_Qlt. lia. Qed.

Lemma inject_nat_add (n k : nat) :
  (inject_Z (Z.of_nat (n + k)) ==
   inject_Z (Z.of_nat n) + inject_Z (Z.of_nat k))%Q.
Proof. rewrite Nat2Z.inj_add, inject_Z_plus. reflexivity. Qed.

End double_facts.

(** ** The Sørensen-Dice formula shared by the representations *)

(** [isect_size ? 2.0 * isect_size / (size1 + size2) : 0.0] *)
Definition sdc_formula (isect_size size1 size2 : nat) : double :=
  if isect_size =? 0 then zero
  else div (mul two (of_size_t isect_size)) (of_size_t (size1 + size2)).

(** The same as a rational number. *)
Definition sdc_value (isect_size size1 size2 : nat) : Q :=
  if isect_size =? 0 then 0
  else 2 * inject_Z (Z.of_nat isect_size) / inject_Z (Z.of_nat (size1 + size2)).

Section sdc_facts.

Lemma sdc_formula_value (isect s1 s2 : nat) :
  isect <= s1 -> isect <= s2 ->
  sdc_formula isect s1 s2 = Fin (sdc_value isect s1 s2).
Proof.
  intros H1 H2. unfold sdc_formula, sdc_value.
  destruct (Nat.eqb_spec isect 0) as [->|Hne]; [reflexivity|].
  unfold of_size_t, two, mul. apply div_Fin_pos, inject_nat_pos. lia.
Qed.

Lemma sdc_value_range (isect s1 s2 : nat) :
  isect <= s1 -> isect <= s2 -> (0 <= sdc_value isect s1 s2 <= 1)%Q.
Proof.
  intros H1 H2. unfold sdc_value.
  destruct (Nat.eqb_spec isect 0) as [->|Hne]; [lra|].
  assert (Hpos : (0 < inject_Z (Z.of_nat (s1 + s2)))%Q)
    by (apply inject_nat_pos; lia).
  pose proof (inject_nat_nonneg isect) as Hi.
  pose proof (inject_nat_le isect s1 H1) as Hi1.
  pose proof (inject_nat_le isect s2 H2) as Hi2.
  pose proof (inject_nat_add s1 s2) as Hadd.
  split.
  - apply Qle_shift_div_l; [exact Hpos|]. lra.
  - apply Qle_shift_div_r; [exact Hpos|]. lra.
Qed.

Lemma sdc_formula_in_unit (isect s1 s2 : nat) :
  isect <= s1 -> isect <= s2 -> in_unit (sdc_formula isect s1 s2).
Proof.
  intros H1 H2. rewrite sdc_formula_value by assumption.
  apply sdc_value_range; assumption.
Qed.

Lemma sdc_formula_zero (s1 s2 : nat) : sdc_formula 0 s1 s2 = zero.
Proof. reflexivity. Qed.

End sdc_facts.

(** ** The order on bigrams *)

Ltac bigram_cases :=
  intros;
  repeat match goal with
         | b : bigram_t |- _ => destruct b
         | bc : basic_bigrams.bigram_cnt_t |- _ => destruct bc
         end;
  unfold basic_bigrams.cmp, bigram_ltb, bigram_eqb in *; cbn [fst snd] in *;
  repeat match goal with
         | |- context [(?x <? ?y)%Z] => destruct (Z.ltb_spec x y)
         | |- context [(?x =? ?y)%Z] => destruct (Z.eqb_spec x y)
         | H : context [(?x <? ?y)%Z] |- _ => destruct (Z.ltb_spec x y)
         | H : context [(?x =? ?y)%Z] |- _ => destruct (Z.eqb_spec x y)
         end;
  cbn [orb andb] in *; try congruence; try lia; try (f_equal; lia).

Section bigram_order.

Lemma bigram_eqb_eq (b1 b2 : bigram_t) : bigram_eqb b1 b2 = true <-> b1 = b2.
Proof. split; [|intros ->]; bigram_cases. Qed.

Lemma bigram_eqb_refl (b : bigram_t) : bigram_eqb b b = true.
Proof. apply bigram_eqb_eq. reflexivity. Qed.

Lemma bigram_ltb_irrefl (b : bigram_t) : bigram_ltb b b = false.
Proof. bigram_cases. Qed.

Lemma bigram_ltb_trans (a b c : bigram_t) :
  bigram_ltb a b = true -> bigram_ltb b c = true -> bigram_ltb a c = true.
Proof. bigram_cases. Qed.

Lemma bigram_ltb_le_trans (a b c : bigram_t) :
  bigram_ltb a b = true -> bigram_ltb c b = false -> bigram_ltb a c = true.
Proof. bigram_cases. Qed.

Lemma bigram_nlt_trans (a b c : bigram_t) :
  bigram_ltb b a = false -> bigram_ltb c b = false -> bigram_ltb c a = false.
Proof. bigram_cases. Qed.

Lemma bigram_ltb_asym (a b : bigram_t) :
  bigram_ltb a b = true -> bigram_ltb b a = false.
Proof. bigram_cases. Qed.

Lemma bigram_trichotomy (a b : bigram_t) :
  bigram_ltb a b = false -> bigram_ltb b a = false -> a = b.
Proof. bigram_cases. Qed.

Lemma bigram_ltb_neq (a b : bigram_t) :
  bigram_ltb a b = true -> bigram_eqb a b = false.
Proof. bigram_cases. Qed.

Lemma bigram_ltb_neq' (a b : bigram_t) :
  bigram_ltb a b = true -> bigram_eqb b a = false.
Proof. bigram_cases. Qed.

(** The comparator of the counted representation agrees with the tuple
    order that [std::sort] uses. *)
Lemma cmp_neg (x y : basic_bigrams.bigram_cnt_t) :
  (basic_bigrams.cmp x y <? 0)%Z = bigram_ltb x.1 y.1.
Proof. bigram_cases. Qed.

Lemma cmp_zero (x y : basic_bigrams.bigram_cnt_t) :
  (0 =? basic_bigrams.cmp x y)%Z = bigram_eqb x.1 y.1.
Proof. bigram_cases. Qed.

Lemma cmp_zero' (x y : basic_bigrams.bigram_cnt_t) :
  (basic_bigrams.cmp x y =? 0)%Z = bigram_eqb x.1 y.1.
Proof. bigram_cases. Qed.

Lemma cmp_refl (x : basic_bigrams.bigram_cnt_t) : basic_bigrams.cmp x x = 0%Z.
Proof. bigram_cases. Qed.

End bigram_order.

(** ** Sorting and counting bigrams *)

Section sort_facts.

(** Non-decreasing under the tuple order. *)
Definition bigram_le (a b : bigram_t) : Prop := bigram_ltb b a = false.

Lemma occurrences_app (b : bigram_t) (l1 l2 : list bigram_t) :
  occurrences b (l1 ++ l2) = occurrences b l1 + occurrences b l2.
Proof.
  induction l1 as [|x l1 IH]; simpl; [reflexivity|].
  rewrite IH. destruct (bigram_eqb x b); reflexivity.
Qed.

Lemma occurrences_perm (b : bigram_t) (l1 l2 : list bigram_t) :
  Permutation l1 l2 -> occurrences b l1 = occurrences b l2.
Proof.
  induction 1 as [|x l1 l2 _ IH|x y l|l1 l2 l3 _ IH1 _ IH2]; simpl.
  - reflexivity.
  - rewrite IH. reflexivity.
  - destruct (bigram_eqb x b), (bigram_eqb y b); reflexivity.
  - congruence.
Qed.

Lemma occurrences_le_length (b : bigram_t) (l : list bigram_t) :
  occurrences b l <= length l.
Proof.
  induction l as [|x l IH]; simpl; [lia|].
  destruct (bigram_eqb x b); lia.
Qed.

Lemma sort_insert_perm (b : bigram_t) (l : list bigram_t) :
  Permutation (sort_insert b l) (b :: l).
Proof.
  induction l as [|x l IH]; simpl; [reflexivity|].
  destruct (bigram_ltb x b); [|reflexivity].
  rewrite IH. apply perm_swap.
Qed.

Lemma sort_perm (l : list bigram_t) : Permutation (sort l) l.
Proof.
  induction l as [|x l IH]; simpl; [reflexivity|].
  rewrite sort_insert_perm, IH. reflexivity.
Qed.

Lemma sort_length (l : list bigram_t) : length (sort l) = length l.
Proof. apply Permutation_length, sort_perm. Qed.

Lemma sort_insert_HdRel (a b : bigram_t) (l : list bigram_t) :
  bigram_le a b -> HdRel bigram_le a l -> HdRel bigram_le a (sort_insert b l).
Proof.
  intros Hab Hl. destruct Hl as [|x l Hx]; simpl.
  - constructor. exact Hab.
  - destruct (bigram_ltb x b); constructor; assumption.
Qed.

Lemma sort_insert_sorted (b : bigram_t) (l : list bigram_t) :
  Sorted bigram_le l -> Sorted bigram_le (sort_insert b l).
Proof.
  induction 1 as [|x l Hl IH Hx]; simpl.
  - repeat constructor.
  - destruct (bigram_ltb x b) eqn:Hxb.
    + constructor; [exact IH|].
      apply sort_insert_HdRel; [|exact Hx].
      unfold bigram_le. apply bigram_ltb_asym. exact Hxb.
    + constructor; [constructor; assumption|].
      constructor. exact Hxb.
Qed.

Lemma sort_sorted (l : list bigram_t) : Sorted bigram_le (sort l).
Proof.
  induction l as [|x l IH]; simpl; [constructor|].
  apply sort_insert_sorted, IH.
Qed.

Lemma bigram_vec_length (s : string_t) : length (bigram_vec s) = length s - 1.
Proof. unfold bigram_vec. rewrite length_map, length_seq. reflexivity. Qed.

End sort_facts.

(** ** The counted representation *)

Module basic_bigrams_facts.
Import basic_bigrams.

(** *** The representation invariant *)

(** [x] comes strictly before [y] under the comparator. *)
Definition key_lt (x y : bigram_cnt_t) : Prop := (cmp x y < 0)%Z.

(** The list is strictly increasing under [cmp] (so it has no duplicate
    key), every count is at least 1, and [m_size] is the sum of the
    counts. *)
Record valid (p : t) : Prop := mk_valid {
  valid_sorted : Sorted key_lt (m_impl p);
  valid_counts : Forall (fun bc => 1 <= bc.2) (m_impl p);
  valid_size : m_size p = sum_counts (m_impl p)
}.

(** The profiles built from the constructors and [operator +=] on two
    distinct objects; [unite] and [operator +] are made of these. *)
Inductive built : t -> Prop :=
| built_empty : built empty
| built_of_string (s : string_t) : built (of_string s)
| built_plus_assign (this other : t) :
    built this -> built other -> built (plus_assign this other).

(** The same with [*this += *this] as one more way to build. *)
Inductive reachable : t -> Prop :=
| reachable_built (p : t) : built p -> reachable p
| reachable_self (fuel : nat) (this this' : t) :
    reachable this -> plus_assign_self fuel this = Some this' ->
    reachable this'
| reachable_plus_assign (this other : t) :
    reachable this -> reachable other -> reachable (plus_assign this other).

Lemma key_lt_ltb (x y : bigram_cnt_t) : key_lt x y <-> bigram_ltb x.1 y.1 = true.
Proof.
  unfold key_lt. rewrite <- cmp_neg. symmetry. apply Z.ltb_lt.
Qed.

#[local] Instance key_lt_trans : Transitive key_lt.
Proof.
  intros x y z. rewrite !key_lt_ltb. apply bigram_ltb_trans.
Qed.

Lemma key_lt_same_l (x x' y : bigram_cnt_t) :
  x.1 = x'.1 -> key_lt x y -> key_lt x' y.
Proof. rewrite !key_lt_ltb. intros ->. trivial. Qed.

Lemma key_lt_same_r (x y y' : bigram_cnt_t) :
  y.1 = y'.1 -> key_lt x y -> key_lt x y'.
Proof. rewrite !key_lt_ltb. intros ->. trivial. Qed.

Lemma HdRel_same (x x' : bigram_cnt_t) (l : list bigram_cnt_t) :
  x.1 = x'.1 -> HdRel key_lt x l -> HdRel key_lt x' l.
Proof.
  intros Hk [|y l' Hy]; constructor. eapply key_lt_same_l; eassumption.
Qed.

(** *** Counting *)

Lemma sum_counts_app (l1 l2 : list bigram_cnt_t) :
  sum_counts (l1 ++ l2) = sum_counts l1 + sum_counts l2.
Proof. induction l1 as [|x l1 IH]; simpl; [reflexivity|]. rewrite IH. lia. Qed.

Lemma count_in_app (b : bigram_t) (l1 l2 : list bigram_cnt_t) :
  count_in b (l1 ++ l2) = count_in b l1 + count_in b l2.
Proof.
  induction l1 as [|x l1 IH]; simpl; [reflexivity|].
  rewrite IH. destruct (bigram_eqb x.1 b); lia.
Qed.

Lemma sum_counts_reverse (l : list bigram_cnt_t) :
  sum_counts (reverse l) = sum_counts l.
Proof.
  induction l as [|x l IH]; [reflexivity|].
  rewrite reverse_cons, sum_counts_app, IH. simpl. lia.
Qed.

Lemma count_in_reverse (b : bigram_t) (l : list bigram_cnt_t) :
  count_in b (reverse l) = count_in b l.
Proof.
  induction l as [|x l IH]; [reflexivity|].
  rewrite reverse_cons, count_in_app, IH. simpl.
  destruct (bigram_eqb x.1 b); lia.
Qed.

Lemma count_in_le_sum (b : bigram_t) (l : list bigram_cnt_t) :
  count_in b l <= sum_counts l.
Proof.
  induction l as [|x l IH]; simpl; [lia|].
  destruct (bigram_eqb x.1 b); lia.
Qed.

(** In a strictly increasing list a key below the head does not occur. *)
Lemma count_in_below (x : bigram_cnt_t) (l : list bigram_cnt_t) :
  Sorted key_lt l -> HdRel key_lt x l -> count_in x.1 l = 0.
Proof.
  intros Hs Hx. apply Sorted_StronglySorted in Hs; [|exact _].
  assert (Hall : Forall (key_lt x) l).
  { destruct Hx as [|y l' Hy]; [constructor|].
    apply StronglySorted_inv in Hs as [_ Hs'].
    constructor; [exact Hy|].
    eapply Forall_impl; [exact Hs'|].
    intros z Hz. etrans; eassumption. }
  clear Hs Hx. induction Hall as [|y l Hy _ IH]; simpl; [reflexivity|].
  apply key_lt_ltb, bigram_ltb_neq' in Hy. rewrite Hy. exact IH.
Qed.

(** *** Construction from a string *)

Lemma fold_unify_sum (rest : list bigram_t) (racc : list bigram_cnt_t) :
  racc <> [] ->
  sum_counts (fold_left unify rest racc) = sum_counts racc + length rest.
Proof.
  revert racc. induction rest as [|x rest IH]; intros racc Hne; simpl; [lia|].
  destruct racc as [|last racc']; [congruence|]. simpl.
  destruct (bigram_eqb last.1 x); rewrite IH by discriminate; simpl; lia.
Qed.

Lemma fold_unify_count (b : bigram_t) (rest : list bigram_t)
    (racc : list bigram_cnt_t) :
  racc <> [] ->
  count_in b (fold_left unify rest racc) = count_in b racc + occurrences b rest.
Proof.
  revert racc. induction rest as [|x rest IH]; intros racc Hne; simpl; [lia|].
  destruct racc as [|last racc']; [congruence|]. simpl.
  destruct (bigram_eqb last.1 x) eqn:Hx; rewrite IH by discriminate; simpl.
  - apply bigram_eqb_eq in Hx. rewrite Hx.
    destruct (bigram_eqb x b); lia.
  - destruct (bigram_eqb x b), (bigram_eqb last.1 b); lia.
Qed.

Lemma fold_unify_pos (rest : list bigram_t) (racc : list bigram_cnt_t) :
  Forall (fun bc => 1 <= bc.2) racc ->
  Forall (fun bc => 1 <= bc.2) (fold_left unify rest racc).
Proof.
  revert racc. induction rest as [|x rest IH]; intros racc Hp; simpl; [exact Hp|].
  apply IH. destruct racc as [|last racc']; simpl.
  - repeat constructor.
  - destruct (bigram_eqb last.1 x).
    + apply Forall_cons in Hp as [_ Hp]. constructor; [simpl; lia|exact Hp].
    + constructor; [simpl; lia|exact Hp].
Qed.

(** [racc] is strictly decreasing, being [m_impl] in reverse. *)
Lemma fold_unify_sorted (rest : list bigram_t) (last : bigram_cnt_t)
    (racc : list bigram_cnt_t) :
  Sorted (flip key_lt) (last :: racc) ->
  Sorted bigram_le (last.1 :: rest) ->
  Sorted (flip key_lt) (fold_left unify rest (last :: racc)).
Proof.
  revert last racc.
  induction rest as [|x rest IH]; intros last racc Hacc Hrest; simpl;
    [exact Hacc|].
  apply Sorted_inv in Hrest as [Hrest Hhd].
  apply HdRel_inv in Hhd. unfold bigram_le in Hhd.
  destruct (bigram_eqb last.1 x) eqn:Hx.
  - apply bigram_eqb_eq in Hx. apply IH.
    + apply Sorted_inv in Hacc as [Hacc Hl]. constructor; [exact Hacc|].
      destruct Hl as [|y l Hy]; constructor.
      unfold flip in *. eapply key_lt_same_r; [|exact Hy]. reflexivity.
    + simpl. rewrite Hx. exact Hrest.
  - apply IH.
    + constructor; [exact Hacc|]. constructor.
      unfold flip. apply key_lt_ltb. simpl.
      destruct (bigram_ltb last.1 x) eqn:Hlt; [reflexivity|].
      rewrite (bigram_trichotomy _ _ Hlt Hhd), bigram_eqb_refl in Hx.
      discriminate.
    + exact Hrest.
Qed.

Lemma fold_unify_nonempty (rest : list bigram_t) (racc : list bigram_cnt_t) :
  racc <> [] -> fold_left unify rest racc <> [].
Proof.
  revert racc. induction rest as [|x rest IH]; intros racc Hne; simpl;
    [exact Hne|].
  apply IH. destruct racc as [|last racc']; simpl; [discriminate|].
  destruct (bigram_eqb last.1 x); discriminate.
Qed.

Lemma valid_empty : valid empty.
Proof. split; simpl; constructor. Qed.

Lemma of_string_short (s : string_t) : length s < 2 -> of_string s = empty.
Proof.
  intros Hs. unfold of_string.
  destruct (Nat.ltb_spec (length s) 2); [reflexivity|lia].
Qed.

(** The constructor never meets the failing side of its assertion. *)
Lemma of_string_long (s : string_t) :
  2 <= length s ->
  exists bigram rest,
    sort (bigram_vec s) = bigram :: rest /\
    of_string s =
      mk (reverse (fold_left unify rest [(bigram, 1)])) (length s - 1).
Proof.
  intros Hs. unfold of_string.
  destruct (Nat.ltb_spec (length s) 2); [lia|].
  pose proof (sort_length (bigram_vec s)) as Hlen.
  rewrite bigram_vec_length in Hlen.
  destruct (sort (bigram_vec s)) as [|bigram rest] eqn:Hv; simpl in Hlen;
    [lia|].
  exists bigram, rest. split; [reflexivity|]. simpl. rewrite Hlen. reflexivity.
Qed.

Lemma of_string_size (s : string_t) : size (of_string s) = length s - 1.
Proof.
  destruct (Nat.lt_ge_cases (length s) 2) as [Hs|Hs].
  - rewrite of_string_short by exact Hs. simpl. lia.
  - destruct (of_string_long s Hs) as (bigram & rest & _ & ->). reflexivity.
Qed.

Lemma of_string_count (b : bigram_t) (s : string_t) :
  count b (of_string s) = occurrences b (bigram_vec s).
Proof.
  destruct (Nat.lt_ge_cases (length s) 2) as [Hs|Hs].
  - rewrite of_string_short by exact Hs.
    pose proof (occurrences_le_length b (bigram_vec s)) as Hle.
    rewrite bigram_vec_length in Hle. unfold count. simpl. lia.
  - destruct (of_string_long s Hs) as (bigram & rest & Hv & ->).
    unfold count. simpl.
    rewrite count_in_reverse, fold_unify_count by discriminate.
    rewrite <- (occurrences_perm b _ _ (sort_perm (bigram_vec s))), Hv.
    simpl. destruct (bigram_eqb bigram b); lia.
Qed.

Lemma of_string_valid (s : string_t) : valid (of_string s).
Proof.
  destruct (Nat.lt_ge_cases (length s) 2) as [Hs|Hs].
  - rewrite of_string_short by exact Hs. apply valid_empty.
  - destruct (of_string_long s Hs) as (bigram & rest & Hv & ->).
    pose proof (sort_sorted (bigram_vec s)) as Hsorted. rewrite Hv in Hsorted.
    split; simpl.
    + apply (Sorted_reverse (flip key_lt)).
      apply (fold_unify_sorted rest (bigram, 1) []); [repeat constructor|].
      exact Hsorted.
    + apply Forall_reverse, fold_unify_pos. repeat constructor.
    + rewrite sum_counts_reverse, fold_unify_sum by discriminate.
      pose proof (sort_length (bigram_vec s)) as Hlen.
      rewrite bigram_vec_length, Hv in Hlen. simpl in *. lia.
Qed.

End basic_bigrams_facts.

Module basic_bigrams_union.
Import basic_bigrams basic_bigrams_facts.

(** *** The merge of [operator +=] *)

Lemma merge_nil_l (other : list bigram_cnt_t) (sz : nat) :
  merge [] other sz = (other, sz + sum_counts other).
Proof. reflexivity. Qed.

Lemma merge_nil_r (mine : list bigram_cnt_t) (sz : nat) :
  merge mine [] sz = (mine, sz).
Proof. destruct mine; simpl; [f_equal; lia|reflexivity]. Qed.

Lemma merge_cons (my ot : bigram_cnt_t) (mine other : list bigram_cnt_t)
    (sz : nat) :
  merge (my :: mine) (ot :: other) sz =
    if bigram_ltb my.1 ot.1 then
      ((my :: (merge mine (ot :: other) sz).1),
       (merge mine (ot :: other) sz).2)
    else if bigram_eqb my.1 ot.1 then
      (((my.1, my.2 + ot.2) :: (merge mine other (sz + ot.2)).1),
       (merge mine other (sz + ot.2)).2)
    else
      ((ot :: (merge (my :: mine) other (sz + ot.2)).1),
       (merge (my :: mine) other (sz + ot.2)).2).
Proof.
  rewrite <- cmp_neg, <- cmp_zero.
  change (merge (my :: mine) (ot :: other) sz) with
    (let bg_cmp := cmp my ot in
     if (bg_cmp <? 0)%Z then
       let '(r, sz') := merge mine (ot :: other) sz in (my :: r, sz')
     else if (0 =? bg_cmp)%Z then
       let '(r, sz') := merge mine other (sz + ot.2) in
       ((my.1, my.2 + ot.2) :: r, sz')
     else
       let '(r, sz') := merge (my :: mine) other (sz + ot.2) in
       (ot :: r, sz')).
  cbv zeta.
  destruct (cmp my ot <? 0)%Z; [|destruct (0 =? cmp my ot)%Z].
  - destruct (merge mine (ot :: other) sz); reflexivity.
  - destruct (merge mine other (sz + ot.2)); reflexivity.
  - destruct (merge (my :: mine) other (sz + ot.2)); reflexivity.
Qed.

(** Induction along the two cursors of the merge. *)
Lemma merge_ind (P : list bigram_cnt_t -> list bigram_cnt_t -> Prop) :
  (forall other, P [] other) ->
  (forall mine, P mine []) ->
  (forall my ot mine other,
      P mine (ot :: other) -> P mine other -> P (my :: mine) other ->
      P (my :: mine) (ot :: other)) ->
  forall mine other, P mine other.
Proof.
  intros Hnil_l Hnil_r Hcons.
  induction mine as [|my mine IHmine]; [exact Hnil_l|].
  induction other as [|ot other IHother]; [apply Hnil_r|].
  apply Hcons; [apply IHmine|apply IHmine|exact IHother].
Qed.

Ltac merge_induction mine other :=
  revert mine other;
  match goal with
  | |- forall mine other, @?P mine other => apply (merge_ind P)
  end;
  [ intros other; intros; rewrite ?merge_nil_l
  | intros mine; intros; rewrite ?merge_nil_r
  | intros my ot mine other IH1 IH2 IH3; intros; rewrite ?merge_cons;
    destruct (bigram_ltb my.1 ot.1) eqn:Hlt;
    [|destruct (bigram_eqb my.1 ot.1) eqn:Heq] ];
  cbn [fst snd].

Lemma merge_size (mine other : list bigram_cnt_t) :
  forall sz, (merge mine other sz).2 = sz + sum_counts other.
Proof.
  merge_induction mine other; simpl; rewrite ?IH1, ?IH2, ?IH3; simpl; lia.
Qed.

Lemma merge_sum_counts (mine other : list bigram_cnt_t) :
  forall sz,
    sum_counts (merge mine other sz).1 = sum_counts mine + sum_counts other.
Proof.
  merge_induction mine other; simpl; rewrite ?IH1, ?IH2, ?IH3; simpl; lia.
Qed.

Lemma merge_count_in (b : bigram_t) (mine other : list bigram_cnt_t) :
  forall sz,
    count_in b (merge mine other sz).1 = count_in b mine + count_in b other.
Proof.
  merge_induction mine other; simpl; rewrite ?IH1, ?IH2, ?IH3; simpl;
    try lia.
  - destruct (bigram_eqb my.1 b), (bigram_eqb ot.1 b); lia.
  - apply bigram_eqb_eq in Heq. rewrite <- Heq.
    destruct (bigram_eqb my.1 b); lia.
  - destruct (bigram_eqb my.1 b), (bigram_eqb ot.1 b); lia.
Qed.

Lemma merge_pos (mine other : list bigram_cnt_t) :
  forall sz,
    Forall (fun bc => 1 <= bc.2) mine -> Forall (fun bc => 1 <= bc.2) other ->
    Forall (fun bc => 1 <= bc.2) (merge mine other sz).1.
Proof.
  merge_induction mine other; try assumption;
    repeat match goal with
           | H : Forall _ (_ :: _) |- _ => apply Forall_cons in H as [? ?]
           end.
  - constructor; [assumption|]. apply IH1; [assumption|].
    constructor; assumption.
  - constructor; [simpl; lia|]. apply IH2; assumption.
  - constructor; [assumption|]. apply IH3; [|assumption].
    constructor; assumption.
Qed.

Lemma merge_HdRel (x : bigram_cnt_t) (mine other : list bigram_cnt_t) :
  forall sz,
    HdRel key_lt x mine -> HdRel key_lt x other ->
    HdRel key_lt x (merge mine other sz).1.
Proof.
  merge_induction mine other; try assumption;
    repeat match goal with
           | H : HdRel _ _ (_ :: _) |- _ => apply HdRel_inv in H
           end;
    constructor; assumption.
Qed.

Lemma merge_sorted (mine other : list bigram_cnt_t) :
  forall sz,
    Sorted key_lt mine -> Sorted key_lt other ->
    Sorted key_lt (merge mine other sz).1.
Proof.
  merge_induction mine other; try assumption;
    repeat match goal with
           | H : Sorted _ (_ :: _) |- _ => apply Sorted_inv in H as [? ?]
           end.
  - constructor.
    + apply IH1; [assumption|]. constructor; assumption.
    + apply merge_HdRel; [assumption|]. constructor.
      apply key_lt_ltb. exact Hlt.
  - apply bigram_eqb_eq in Heq. constructor.
    + apply IH2; assumption.
    + apply merge_HdRel.
      * eapply HdRel_same; [|eassumption]. reflexivity.
      * eapply HdRel_same; [|eassumption]. simpl. congruence.
  - constructor.
    + apply IH3; [|assumption]. constructor; assumption.
    + apply merge_HdRel; [|assumption]. constructor.
      apply key_lt_ltb. destruct (bigram_ltb ot.1 my.1) eqn:Hgt; [reflexivity|].
      rewrite (bigram_trichotomy _ _ Hlt Hgt), bigram_eqb_refl in Heq.
      discriminate.
Qed.

(** *** [operator +=] on distinct objects, [unite], [operator +] *)

Lemma plus_assign_merge (this other : t) :
  size this <> 0 ->
  plus_assign this other =
    mk (merge (m_impl this) (m_impl other) (m_size this)).1
       (merge (m_impl this) (m_impl other) (m_size this)).2.
Proof.
  intros Hne. unfold plus_assign.
  destruct (Nat.eqb_spec (size this) 0); [contradiction|].
  destruct (merge (m_impl this) (m_impl other) (m_size this)). reflexivity.
Qed.

Lemma plus_assign_empty (this other : t) :
  size this = 0 -> plus_assign this other = other.
Proof. intros Hz. unfold plus_assign. rewrite Hz. reflexivity. Qed.

Lemma plus_assign_size (this other : t) :
  valid other -> size (plus_assign this other) = size this + size other.
Proof.
  intros Ho. destruct (Nat.eq_dec (size this) 0) as [Hz|Hne].
  - rewrite plus_assign_empty by exact Hz. lia.
  - rewrite plus_assign_merge by exact Hne. unfold size. simpl.
    rewrite merge_size, (valid_size other Ho). reflexivity.
Qed.

Lemma plus_assign_count (b : bigram_t) (this other : t) :
  valid this ->
  count b (plus_assign this other) = count b this + count b other.
Proof.
  intros Ht. destruct (Nat.eq_dec (size this) 0) as [Hz|Hne].
  - rewrite plus_assign_empty by exact Hz.
    pose proof (count_in_le_sum b (m_impl this)) as Hle.
    rewrite <- (valid_size this Ht) in Hle. unfold size in Hz.
    unfold count. lia.
  - rewrite plus_assign_merge by exact Hne. unfold count. simpl.
    apply merge_count_in.
Qed.

Lemma plus_assign_valid (this other : t) :
  valid this -> valid other -> valid (plus_assign this other).
Proof.
  intros Ht Ho. destruct (Nat.eq_dec (size this) 0) as [Hz|Hne].
  - rewrite plus_assign_empty by exact Hz. exact Ho.
  - rewrite plus_assign_merge by exact Hne.
    destruct Ht as [Hts Htc Htz], Ho as [Hos Hoc Hoz].
    split; simpl.
    + apply merge_sorted; assumption.
    + apply merge_pos; assumption.
    + rewrite merge_size, merge_sum_counts. lia.
Qed.

Lemma built_valid (p : t) : built p -> valid p.
Proof.
  induction 1 as [|s|this other _ IHt _ IHo].
  - apply valid_empty.
  - apply of_string_valid.
  - apply plus_assign_valid; assumption.
Qed.

Lemma unite_built (arg1 : t) (args : list t) :
  built arg1 -> Forall built args -> built (unite arg1 args).
Proof.
  intros H1 Hargs. revert arg1 H1.
  induction Hargs as [|arg2 args H2 _ IH]; intros arg1 H1; simpl.
  - exact H1.
  - apply built_plus_assign; [apply IH; exact H2|exact H1].
Qed.

Lemma plus_built (this other : t) :
  built this -> built other -> built (plus this other).
Proof.
  intros Ht Ho. apply unite_built; [exact Ht|]. repeat constructor. exact Ho.
Qed.

Lemma unite_valid (arg1 : t) (args : list t) :
  valid arg1 -> Forall valid args -> valid (unite arg1 args).
Proof.
  intros H1 Hargs. revert arg1 H1.
  induction Hargs as [|arg2 args H2 _ IH]; intros arg1 H1; simpl.
  - exact H1.
  - apply plus_assign_valid; [apply IH; exact H2|exact H1].
Qed.

Lemma unite_size (arg1 : t) (args : list t) :
  valid arg1 -> Forall valid args ->
  size (unite arg1 args) = size arg1 + sum_list (map size args).
Proof.
  intros H1 Hargs. revert arg1 H1.
  induction Hargs as [|arg2 args H2 _ IH]; intros arg1 H1; simpl.
  - lia.
  - rewrite plus_assign_size by exact H1. rewrite IH by exact H2. lia.
Qed.

Lemma plus_valid (this other : t) :
  valid this -> valid other -> valid (plus this other).
Proof. intros Ht Ho. apply plus_assign_valid; assumption. Qed.

Lemma plus_size (this other : t) :
  valid this -> size (plus this other) = size this + size other.
Proof.
  intros Ht. unfold plus. simpl. rewrite plus_assign_size by exact Ht. lia.
Qed.

Lemma plus_count (b : bigram_t) (this other : t) :
  valid other -> count b (plus this other) = count b this + count b other.
Proof.
  intros Ho. unfold plus. simpl. rewrite plus_assign_count by exact Ho. lia.
Qed.

(** *** [intersect_size] and [sorensen_dice_coef] *)

Lemma intersect_walk_nil_l (l2 : list bigram_cnt_t) (n : nat) :
  intersect_walk [] l2 n = n.
Proof. reflexivity. Qed.

Lemma intersect_walk_nil_r (l1 : list bigram_cnt_t) (n : nat) :
  intersect_walk l1 [] n = n.
Proof. destruct l1; reflexivity. Qed.

Lemma intersect_walk_cons (bg1 bg2 : bigram_cnt_t)
    (l1 l2 : list bigram_cnt_t) (n : nat) :
  intersect_walk (bg1 :: l1) (bg2 :: l2) n =
    if bigram_ltb bg1.1 bg2.1 then intersect_walk l1 (bg2 :: l2) n
    else if bigram_eqb bg1.1 bg2.1
         then intersect_walk l1 l2 (n + Nat.min bg1.2 bg2.2)
         else intersect_walk (bg1 :: l1) l2 n.
Proof. rewrite <- cmp_neg, <- cmp_zero'. reflexivity. Qed.

Lemma sum_counts_cons (bc : bigram_cnt_t) (l : list bigram_cnt_t) :
  sum_counts (bc :: l) = bc.2 + sum_counts l.
Proof. reflexivity. Qed.

Ltac walk_induction l1 l2 :=
  revert l1 l2;
  match goal with
  | |- forall l1 l2, @?P l1 l2 => apply (merge_ind P)
  end;
  [ intros l2; intros; rewrite ?intersect_walk_nil_l
  | intros l1; intros; rewrite ?intersect_walk_nil_r
  | intros bg1 bg2 l1 l2 IH1 IH2 IH3; intros; rewrite ?intersect_walk_cons;
    destruct (bigram_ltb bg1.1 bg2.1) eqn:Hlt;
    [|destruct (bigram_eqb bg1.1 bg2.1) eqn:Heq] ];
  rewrite ?sum_counts_cons in *.

Lemma intersect_walk_le_l (l1 l2 : list bigram_cnt_t) :
  forall n, intersect_walk l1 l2 n <= n + sum_counts l1.
Proof.
  walk_induction l1 l2; [lia|lia|..].
  - specialize (IH1 n). lia.
  - specialize (IH2 (n + Nat.min bg1.2 bg2.2)). lia.
  - specialize (IH3 n). lia.
Qed.

Lemma intersect_walk_le_r (l1 l2 : list bigram_cnt_t) :
  forall n, intersect_walk l1 l2 n <= n + sum_counts l2.
Proof.
  walk_induction l1 l2; [lia|lia|..].
  - specialize (IH1 n). lia.
  - specialize (IH2 (n + Nat.min bg1.2 bg2.2)). lia.
  - specialize (IH3 n). lia.
Qed.

Lemma intersect_size_le_l (p q : t) :
  valid p -> intersect_size p q <= size p.
Proof.
  intros Hp. unfold intersect_size, size. rewrite (valid_size p Hp).
  apply (intersect_walk_le_l _ _ 0).
Qed.

Lemma intersect_size_le_r (p q : t) :
  valid q -> intersect_size p q <= size q.
Proof.
  intros Hq. unfold intersect_size, size. rewrite (valid_size q Hq).
  apply (intersect_walk_le_r _ _ 0).
Qed.

Lemma sorensen_dice_coef_formula (p q : t) :
  sorensen_dice_coef p q = sdc_formula (intersect_size p q) (size p) (size q).
Proof. reflexivity. Qed.

End basic_bigrams_union.

(** ** The multiset representations *)

Module basic_bigram_multiset_facts.
Import basic_bigram_multiset.

Section Implementation.

Variable insert : bigram_t -> list bigram_t -> list bigram_t.

(** All that is asked of the container: an insertion adds the element
    and keeps the others. *)
Hypothesis insert_perm : forall b l, Permutation (insert b l) (b :: l).

Lemma fold_insert_perm (bs acc : list bigram_t) :
  Permutation (fold_left (fun impl b => insert b impl) bs acc) (bs ++ acc).
Proof.
  revert acc. induction bs as [|b bs IH]; intros acc; simpl; [reflexivity|].
  rewrite IH, insert_perm. symmetry. apply Permutation_middle.
Qed.

Lemma ms_of_string_short (s : string_t) :
  length s < 2 -> of_string insert s = empty.
Proof.
  intros Hs. unfold of_string.
  destruct (Nat.ltb_spec 1 (length s)); [lia|reflexivity].
Qed.

Lemma ms_of_string_perm (s : string_t) :
  Permutation (m_impl (of_string insert s)) (bigram_vec s).
Proof.
  unfold of_string. destruct (Nat.ltb_spec 1 (length s)) as [Hs|Hs]; simpl.
  - rewrite fold_insert_perm, app_nil_r. reflexivity.
  - pose proof (bigram_vec_length s) as Hlen.
    destruct (bigram_vec s); [reflexivity|simpl in Hlen; lia].
Qed.

Lemma ms_of_string_size (s : string_t) :
  size (of_string insert s) = length s - 1.
Proof.
  unfold size. rewrite (Permutation_length (ms_of_string_perm s)).
  apply bigram_vec_length.
Qed.

Lemma ms_of_string_count (b : bigram_t) (s : string_t) :
  count b (of_string insert s) = occurrences b (bigram_vec s).
Proof. apply occurrences_perm, ms_of_string_perm. Qed.

Lemma ms_plus_assign_perm (this other : t) :
  Permutation (m_impl (plus_assign insert this other))
              (m_impl this ++ m_impl other).
Proof.
  unfold plus_assign, size.
  destruct (Nat.eqb_spec (length (m_impl this)) 0) as [Hz|Hne]; simpl.
  - apply nil_length_inv in Hz. rewrite Hz. reflexivity.
  - rewrite fold_insert_perm. apply Permutation_app_comm.
Qed.

Lemma ms_plus_assign_size (this other : t) :
  size (plus_assign insert this other) = size this + size other.
Proof.
  unfold size. rewrite (Permutation_length (ms_plus_assign_perm this other)).
  apply length_app.
Qed.

Lemma ms_plus_assign_count (b : bigram_t) (this other : t) :
  count b (plus_assign insert this other) = count b this + count b other.
Proof.
  unfold count. rewrite (occurrences_perm b _ _ (ms_plus_assign_perm this other)).
  apply occurrences_app.
Qed.

Lemma ms_unite_size (arg1 : t) (args : list t) :
  size (unite insert arg1 args) = size arg1 + sum_list (map size args).
Proof.
  revert arg1. induction args as [|arg2 args IH]; intros arg1; simpl.
  - lia.
  - rewrite ms_plus_assign_size, IH. lia.
Qed.

Lemma ms_plus_size (this other : t) :
  size (plus insert this other) = size this + size other.
Proof. unfold plus. simpl. rewrite ms_plus_assign_size. lia. Qed.

Lemma ms_plus_count (b : bigram_t) (this other : t) :
  count b (plus insert this other) = count b this + count b other.
Proof. unfold plus. simpl. rewrite ms_plus_assign_count. lia. Qed.

End Implementation.

(** *** [set_intersection] counts no more than either range holds *)

Lemma set_intersection_nil_r (l1 : list bigram_t) (n : nat) :
  set_intersection l1 [] n = n.
Proof. destruct l1; reflexivity. Qed.

Lemma set_intersection_cons (x1 x2 : bigram_t) (l1 l2 : list bigram_t)
    (n : nat) :
  set_intersection (x1 :: l1) (x2 :: l2) n =
    if bigram_ltb x1 x2 then set_intersection l1 (x2 :: l2) n
    else if bigram_ltb x2 x1 then set_intersection (x1 :: l1) l2 n
    else set_intersection l1 l2 (S n).
Proof. reflexivity. Qed.

Lemma set_intersection_le (l1 : list bigram_t) :
  forall l2 n,
    set_intersection l1 l2 n <= n + length l1 /\
    set_intersection l1 l2 n <= n + length l2.
Proof.
  induction l1 as [|x1 l1 IH1]; [simpl; lia|].
  induction l2 as [|x2 l2 IH2]; intros n;
    [rewrite set_intersection_nil_r; lia|].
  rewrite set_intersection_cons.
  destruct (bigram_ltb x1 x2); [|destruct (bigram_ltb x2 x1)].
  - specialize (IH1 (x2 :: l2) n). simpl in *. lia.
  - specialize (IH2 n). simpl in *. lia.
  - specialize (IH1 l2 (S n)). simpl in *. lia.
Qed.

Lemma ms_intersect_size_le_l (p q : t) : intersect_size p q <= size p.
Proof. apply (set_intersection_le _ _ 0). Qed.

Lemma ms_intersect_size_le_r (p q : t) : intersect_size p q <= size q.
Proof. apply (set_intersection_le _ _ 0). Qed.

Lemma ms_sorensen_dice_coef_formula (p q : t) :
  sorensen_dice_coef p q = sdc_formula (intersect_size p q) (size p) (size q).
Proof. reflexivity. Qed.

(** *** The two containers *)

Lemma multiset_insert_perm (b : bigram_t) (l : list bigram_t) :
  Permutation (multiset_insert b l) (b :: l).
Proof.
  induction l as [|x l IH]; simpl; [reflexivity|].
  destruct (bigram_ltb b x); [reflexivity|].
  rewrite IH. apply perm_swap.
Qed.

Lemma unordered_insert_perm (h : hash_layout) (b : bigram_t)
    (l : list bigram_t) :
  Permutation (unordered_insert h b l) (b :: l).
Proof. apply layout_perm. Qed.

(** The ordered container stays sorted. *)
Lemma multiset_insert_sorted (b : bigram_t) (l : list bigram_t) :
  Sorted bigram_le l -> Sorted bigram_le (multiset_insert b l).
Proof.
  induction 1 as [|x l Hl IH Hx]; simpl; [repeat constructor|].
  destruct (bigram_ltb b x) eqn:Hbx.
  - constructor; [constructor; assumption|]. constructor.
    unfold bigram_le. apply bigram_ltb_asym. exact Hbx.
  - constructor; [exact IH|].
    destruct Hx as [|y l' Hy]; simpl.
    + constructor. exact Hbx.
    + destruct (bigram_ltb b y); constructor; assumption.
Qed.

End basic_bigram_multiset_facts.

(** ** The matcher: what its matrix and its iterator compute *)

(** What the properties of the matcher ask of a representation: an
    invariant kept by the operations, additive sizes and counts, and an
    intersection no larger than either profile. *)
Class BigramsLaws (B : Type) `{Bigrams B} : Type := {
  bg_valid : B -> Prop;
  bg_count : bigram_t -> B -> nat;
  bg_intersect_size : B -> B -> nat;
  bg_empty_valid : bg_valid bg_empty;
  bg_empty_size : bg_size bg_empty = 0;
  bg_of_string_valid : forall s, bg_valid (bg_of_string s);
  bg_plus_valid : forall a b, bg_valid a -> bg_valid b -> bg_valid (bg_plus a b);
  bg_plus_size : forall a b,
    bg_valid a -> bg_valid b -> bg_size (bg_plus a b) = bg_size a + bg_size b;
  bg_plus_count : forall x a b,
    bg_valid a -> bg_valid b ->
    bg_count x (bg_plus a b) = bg_count x a + bg_count x b;
  bg_intersect_le_l : forall a b,
    bg_valid a -> bg_valid b -> bg_intersect_size a b <= bg_size a;
  bg_intersect_le_r : forall a b,
    bg_valid a -> bg_valid b -> bg_intersect_size a b <= bg_size b;
  bg_sdc_formula : forall a b,
    bg_sorensen_dice_coef a b =
      sdc_formula (bg_intersect_size a b) (bg_size a) (bg_size b)
}.

#[export] Instance bigrams_BigramsLaws : BigramsLaws basic_bigrams.t := {
  bg_valid := basic_bigrams_facts.valid;
  bg_count := basic_bigrams.count;
  bg_intersect_size := basic_bigrams.intersect_size;
  bg_empty_valid := basic_bigrams_facts.valid_empty;
  bg_empty_size := eq_refl;
  bg_of_string_valid := basic_bigrams_facts.of_string_valid;
  bg_plus_valid := basic_bigrams_union.plus_valid;
  bg_plus_size := fun a b Ha _ => basic_bigrams_union.plus_size a b Ha;
  bg_plus_count := fun x a b _ Hb => basic_bigrams_union.plus_count x a b Hb;
  bg_intersect_le_l :=
    fun a b Ha _ => basic_bigrams_union.intersect_size_le_l a b Ha;
  bg_intersect_le_r :=
    fun a b _ Hb => basic_bigrams_union.intersect_size_le_r a b Hb;
  bg_sdc_formula := basic_bigrams_union.sorensen_dice_coef_formula
}.

Module matcher_spec.
Import basic_sequence_matcher.

Section Spec.

Context {B : Type} `{BigramsLaws B}.

(** The sub-sequence of length [i + 1] that starts at [j]. *)
Definition window (toks : list B) (i j : nat) : list B :=
  take (S i) (drop j toks).

(** The sum of the sizes of the profiles of row 0 at [j .. j + i]. *)
Definition size_sum (toks : list B) (i j : nat) : nat :=
  sum_list_with bg_size (window toks i j).

(** The union that the recursive split builds for the cell [(i, j)],
    without the matrix: row 0 is the base case. *)
Fixpoint union_rec (fuel : nat) (toks : list B) (i j : nat) : B :=
  match fuel with
  | 0 => bg_empty
  | S fuel' =>
      match i with
      | 0 => nth j toks bg_empty
      | S _ =>
          let '(i1, j1, i2, j2) := sub_ix i j in
          bg_plus (union_rec fuel' toks i1 j1) (union_rec fuel' toks i2 j2)
      end
  end.

Definition union_at (toks : list B) (i j : nat) : B :=
  union_rec (S i) toks i j.

(** A cell of the matrix holds nothing wrong: row 0 holds the profiles
    of the tokens, a size is the size of the window, bigrams are the
    union of the window. *)
Definition cell_ok (toks : list B) (i j : nat) (cell : mx_cell) : Prop :=
  match cell with
  | NONE => 1 <= i
  | SIZE n => 1 <= i /\ n = size_sum toks i j
  | BIGRAMS b => b = union_at toks i j
  end.

(** The matrix of a matcher that holds the tokens [toks]: the profiles
    of the tokens are well formed, row [i] has a cell for every window of
    length [i + 1], and every cell is right. *)
Record wf_matrix (toks : list B) (mx : matrix_t) : Prop := mk_wf {
  wf_valid : Forall bg_valid toks;
  wf_rows : length mx = length toks;
  wf_cols : forall i row, mx !! i = Some row -> length row = length toks - i;
  wf_cells : forall i j row cell,
    mx !! i = Some row -> row !! j = Some cell -> cell_ok toks i j cell
}.

(** The matcher [m] holds the tokens with the profiles [toks], whatever
    was looked up in it so far. *)
Definition holds (m : t) (toks : list B) : Prop := wf_matrix toks (m_mx m).

(** The matcher built by appending the profiles [toks] with the strip
    flags [flags]. *)
Definition of_tokens (toks : list (B * bool)) : t :=
  fold_left (fun m tok => push_back tok.1 tok.2 m) toks empty.

(** *** The pruning test of [next_match] *)

(** [card_ratio], [subseq_short] and the test
    [card_ratio > m_card_ratio_threshold] on the larger over the smaller
    of the two cardinalities: [sz] of the sub-sequence, [a] of the
    query. *)
Definition card_ratio (sz a : nat) : double :=
  div (of_size_t sz) (of_size_t a).

Definition subseq_short (sz a : nat) : bool := ltb (card_ratio sz a) one.

Definition ratio_too_big (ratio_threshold : double) (sz a : nat) : bool :=
  gtb (if subseq_short sz a then div one (card_ratio sz a)
       else card_ratio sz a)
      ratio_threshold.

(** *** The iterator without the matrix *)

(** [next_match] with [size_sum] for [bigrams_size] and [union_at] for
    [bigrams]. *)
Fixpoint pure_inner (toks : list B) (strip_ixs : gset nat) (n : nat)
    (it : iterator) : inner_exit * iterator :=
  match n with
  | 0 => (Leave, it)
  | S n' =>
      let next := set_ij it (S (m_i it)) (m_j it) in
      if bool_decide (m_j it + m_i it ∈ strip_ixs)
      then pure_inner toks strip_ixs n' next
      else
        let sz := size_sum toks (m_i it) (m_j it) in
        let card_ratio :=
          div (of_size_t sz) (of_size_t (bg_size (m_bigrams it))) in
        let subseq_short := ltb card_ratio one in
        let card_ratio :=
          if subseq_short then div one card_ratio else card_ratio in
        if gtb card_ratio (m_card_ratio_threshold it) then
          if subseq_short then pure_inner toks strip_ixs n' next
          else (Leave, it)
        else
          let b := union_at toks (m_i it) (m_j it) in
          let it := set_sdc it (bg_sorensen_dice_coef b (m_bigrams it)) in
          if ltb (m_sdc it) (m_sdc_threshold it)
          then pure_inner toks strip_ixs n' (set_ij it (S (m_i it)) (m_j it))
          else (Return, it)
  end.

Fixpoint pure_outer (toks : list B) (strip_ixs : gset nat) (n : nat)
    (it : iterator) : iterator :=
  match n with
  | 0 => it
  | S n' =>
      if bool_decide (m_j it ∈ strip_ixs)
      then pure_outer toks strip_ixs n' (set_ij it (m_i it) (S (m_j it)))
      else
        let r := pure_inner toks strip_ixs
                   (length toks - m_j it - m_i it) it in
        match r.1 with
        | Return => r.2
        | Leave => pure_outer toks strip_ixs n' (set_ij r.2 0 (S (m_j r.2)))
        end
  end.

Definition pure_next_match (toks : list B) (strip_ixs : gset nat)
    (it : iterator) : iterator :=
  pure_outer toks strip_ixs (length toks - m_j it) it.

(** The iterator as the constructor sets it up, before its call of
    [next_match]. *)
Definition initial (q : B) (threshold : double) (i j : nat) : iterator :=
  mk_iterator q threshold (sub (div two threshold) one) i j zero.

Definition pure_begin (toks : list B) (strip_ixs : gset nat) (q : B)
    (threshold : double) : iterator :=
  pure_next_match toks strip_ixs (initial q threshold 0 0).

Definition pure_end (toks : list B) (strip_ixs : gset nat) : iterator :=
  pure_next_match toks strip_ixs (initial bg_empty zero 0 (length toks)).

Definition pure_incr (toks : list B) (strip_ixs : gset nat) (it : iterator)
  : iterator :=
  pure_next_match toks strip_ixs (set_ij it (S (m_i it)) (m_j it)).

(** The position of an iterator and the order [operator <] puts on
    positions: by [j], then by [i]. *)
Definition position (it : iterator (B:=B)) : nat * nat := (m_i it, m_j it).

Definition lex_lt (c1 c2 : nat * nat) : Prop :=
  c1.2 < c2.2 \/ (c1.2 = c2.2 /\ c1.1 < c2.1).

(** Where an iterator stands: at the end, [(0, N)], or at a cell of the
    triangle whose first token is not a strip token. *)
Definition at_end (toks : list B) (it : iterator (B:=B)) : Prop :=
  m_i it = 0 /\ m_j it = length toks.

Definition at_cell (toks : list B) (strip_ixs : gset nat)
    (it : iterator (B:=B)) : Prop :=
  m_i it + m_j it < length toks /\ m_j it ∉ strip_ixs.

Definition placed (toks : list B) (strip_ixs : gset nat)
    (it : iterator (B:=B)) : Prop :=
  at_end toks it \/ at_cell toks strip_ixs it.

(** Two iterators for the same query and thresholds. *)
Definition same_query (it it' : iterator (B:=B)) : Prop :=
  m_bigrams it' = m_bigrams it /\
  m_sdc_threshold it' = m_sdc_threshold it /\
  m_card_ratio_threshold it' = m_card_ratio_threshold it.

(** An iterator set up for the well-formed query [q] and the positive
    threshold [theta], over well-formed tokens. *)
Record tuned (toks : list B) (q : B) (theta : Q) (it : iterator) : Prop := {
  tuned_bigrams : m_bigrams it = q;
  tuned_threshold : m_sdc_threshold it = Fin theta;
  tuned_ratio : m_card_ratio_threshold it = Fin (2 / theta - 1);
  tuned_positive : (0 < theta)%Q;
  tuned_query : bg_valid q;
  tuned_tokens : Forall bg_valid toks
}.

(** The loop of a caller over the pure iterator. *)
Fixpoint pure_collect (toks : list B) (strip_ixs : gset nat) (fuel : nat)
    (e it : iterator) : option (list (nat * nat)) :=
  match fuel with
  | 0 => None
  | S fuel' =>
      if iter_eq it e then Some []
      else
        match pure_collect toks strip_ixs fuel' e
                (pure_incr toks strip_ixs it) with
        | None => None
        | Some l => Some (position it :: l)
        end
  end.

(** An operation on a matcher that holds [toks] returns [v] and leaves
    a matcher that holds [toks], with the strip set it had. *)
Definition yields {A} (toks : list B) (m : t (B:=B))
    (r : option (A * t (B:=B))) (v : A) : Prop :=
  exists m',
    r = Some (v, m') /\ holds m' toks /\ m_strip_ixs m' = m_strip_ixs m.

(** *** The matches, as the specification words them *)

(** The cell [(i, j)] is a match for the query [q] at the threshold
    [threshold]: neither end is a strip token and the coefficient is not
    below the threshold. *)
Definition is_match (toks : list B) (strip_ixs : gset nat) (q : B)
    (threshold : double) (i j : nat) : bool :=
  negb (bool_decide (j ∈ strip_ixs)) &&
  negb (bool_decide (j + i ∈ strip_ixs)) &&
  negb (ltb (bg_sorensen_dice_coef (union_at toks i j) q) threshold).

(** The cells of the triangle from [(i, j)] on, in ascending order of
    [(j, i)], as pairs [(i, j)]. *)
Definition row_cells (n : nat) (i j : nat) : list (nat * nat) :=
  (fun i' => (i', j)) <$> seq i (n - j - i).

Definition cells_from (n : nat) (i j : nat) : list (nat * nat) :=
  row_cells n i j ++ (seq (S j) (n - S j) ≫= row_cells n 0).

Definition cells (n : nat) : list (nat * nat) :=
  seq 0 n ≫= row_cells n 0.

(** All matches in the order of the specification. *)
Definition spec_matches (toks : list B) (strip_ixs : gset nat) (q : B)
    (threshold : double) : list (nat * nat) :=
  filter (fun c => is_match toks strip_ixs q threshold c.1 c.2 = true)
         (cells (length toks)).

(** What a caller collects: [for (it = begin(q, t); it != end(); ++it)]
    with the position of every [it]. *)
Variable eval_right_first : bool.

Fixpoint collect (fuel : nat) (e it : iterator) (m : t)
  : option (list (nat * nat)) :=
  match fuel with
  | 0 => None
  | S fuel' =>
      if iter_eq it e then Some []
      else
        match incr eval_right_first it m with
        | None => None
        | Some (it', m') =>
            match collect fuel' e it' m' with
            | None => None
            | Some l => Some (position it :: l)
            end
        end
  end.

Definition all_matches (q : B) (threshold : double) (m : t)
  : option (list (nat * nat)) :=
  match begin eval_right_first q threshold m with
  | None => None
  | Some (it, m1) =>
      match end_ eval_right_first m1 with
      | None => None
      | Some (e, m2) =>
          collect (S (length (cells (size m)))) e it m2
      end
  end.

End Spec.
End matcher_spec.

Module matrix_facts.
Import basic_sequence_matcher matcher_spec.

Section Matrix.

Context {B : Type} `{BigramsLaws B}.
Variable eval_right_first : bool.

Implicit Types (toks : list B) (mx : list (list (mx_cell (B:=B)))) (i j : nat).

(** *** Windows and the split *)

Lemma sub_ix_eq i j : sub_ix i j = (i / 2, j, i - (i / 2 + 1), j + (i / 2 + 1)).
Proof. reflexivity. Qed.

Lemma half_lt i : 1 <= i -> i / 2 < i.
Proof. intros Hi. apply Nat.div_lt; lia. Qed.

Lemma window_split toks i j :
  1 <= i ->
  window toks i j =
    window toks (i / 2) j ++ window toks (i - (i / 2 + 1)) (j + (i / 2 + 1)).
Proof.
  intros Hi. pose proof (half_lt i Hi) as Hlt. unfold window.
  replace (j + (i / 2 + 1)) with (j + S (i / 2)) by lia.
  rewrite <- drop_drop, take_take_drop. f_equal. lia.
Qed.

Lemma size_sum_split toks i j :
  1 <= i ->
  size_sum toks i j =
    size_sum toks (i / 2) j + size_sum toks (i - (i / 2 + 1)) (j + (i / 2 + 1)).
Proof.
  intros Hi. unfold size_sum.
  rewrite (window_split toks i j Hi), sum_list_with_app. reflexivity.
Qed.

Lemma window_row0 toks j b :
  toks !! j = Some b -> window toks 0 j = [b].
Proof.
  intros Hj. unfold window.
  rewrite (drop_S _ _ _ Hj). reflexivity.
Qed.

(** *** The union of a window *)

Lemma union_rec_fuel toks fuel :
  forall fuel' i j,
    i < fuel -> i < fuel' -> union_rec fuel toks i j = union_rec fuel' toks i j.
Proof.
  induction fuel as [|fuel IH]; intros fuel' i j Hf Hf'; [lia|].
  destruct fuel' as [|fuel']; [lia|]. cbn [union_rec].
  destruct i as [|i]; [reflexivity|].
  rewrite sub_ix_eq. pose proof (half_lt (S i) ltac:(lia)).
  f_equal; apply IH; lia.
Qed.

Lemma union_at_row0 toks j : union_at toks 0 j = nth j toks bg_empty.
Proof. reflexivity. Qed.

Lemma union_at_split toks i j :
  1 <= i ->
  union_at toks i j =
    bg_plus (union_at toks (i / 2) j)
            (union_at toks (i - (i / 2 + 1)) (j + (i / 2 + 1))).
Proof.
  intros Hi. pose proof (half_lt i Hi). unfold union_at at 1.
  cbn [union_rec]. destruct i as [|i]; [lia|]. rewrite sub_ix_eq.
  f_equal; apply union_rec_fuel; lia.
Qed.

(** The union of a window is well formed, its size is the sum of the
    sizes and it holds every bigram as often as the tokens together. *)
Lemma union_at_spec toks :
  Forall bg_valid toks ->
  forall i j,
    i + j < length toks ->
    bg_valid (union_at toks i j) /\
    bg_size (union_at toks i j) = size_sum toks i j /\
    forall x,
      bg_count x (union_at toks i j) =
        sum_list_with (bg_count x) (window toks i j).
Proof.
  intros Hvalid i. induction i as [i IH] using lt_wf_ind. intros j Hij.
  destruct (Nat.eq_dec i 0) as [->|Hi].
  - destruct (lookup_lt_is_Some_2 toks j ltac:(lia)) as [b Hb].
    rewrite union_at_row0, (nth_lookup_Some _ _ _ _ Hb).
    unfold size_sum. rewrite (window_row0 _ _ _ Hb). simpl.
    split; [|split; [lia|intros x; lia]].
    eapply Forall_lookup_1; eassumption.
  - pose proof (half_lt i ltac:(lia)) as Hhalf.
    rewrite union_at_split, size_sum_split, window_split by lia.
    destruct (IH (i / 2) Hhalf j ltac:(lia)) as (Hv1 & Hs1 & Hc1).
    destruct (IH (i - (i / 2 + 1)) ltac:(lia) (j + (i / 2 + 1)) ltac:(lia))
      as (Hv2 & Hs2 & Hc2).
    split; [|split].
    + apply bg_plus_valid; assumption.
    + rewrite bg_plus_size by assumption. lia.
    + intros x. rewrite bg_plus_count, sum_list_with_app by assumption.
      rewrite Hc1, Hc2. reflexivity.
Qed.

Lemma union_at_valid toks i j :
  Forall bg_valid toks -> i + j < length toks -> bg_valid (union_at toks i j).
Proof. intros Hv Hij. apply (union_at_spec toks Hv i j Hij). Qed.

Lemma union_at_size toks i j :
  Forall bg_valid toks -> i + j < length toks ->
  bg_size (union_at toks i j) = size_sum toks i j.
Proof. intros Hv Hij. apply (union_at_spec toks Hv i j Hij). Qed.

(** *** Reading and writing cells of a well-formed matrix *)

Lemma get_cell_wf toks mx i j :
  wf_matrix toks mx -> i + j < length toks ->
  exists cell, get_cell i j mx = Some (cell, mx) /\ cell_ok toks i j cell.
Proof.
  intros Hwf Hij. unfold get_cell.
  destruct (lookup_lt_is_Some_2 mx i) as [row Hrow];
    [rewrite (wf_rows _ _ Hwf); lia|].
  pose proof (wf_cols _ _ Hwf i row Hrow) as Hlen.
  destruct (lookup_lt_is_Some_2 row j) as [cell Hcell]; [lia|].
  rewrite Hrow, Hcell. exists cell. split; [reflexivity|].
  eapply wf_cells; eassumption.
Qed.

Lemma put_cell_wf toks mx i j cell :
  wf_matrix toks mx -> cell_ok toks i j cell ->
  wf_matrix toks (alter (fun row => <[j := cell]> row) i mx).
Proof.
  intros [Hv Hrows Hcols Hcells] Hok. split.
  - exact Hv.
  - rewrite length_alter. exact Hrows.
  - intros r row Hr. destruct (Nat.eq_dec i r) as [->|Hne].
    + rewrite list_lookup_alter_eq in Hr.
      destruct (mx !! r) as [row0|] eqn:Hrow0; simpl in Hr; [|discriminate].
      injection Hr as <-. rewrite length_insert. eauto.
    + rewrite list_lookup_alter_ne in Hr by exact Hne. eauto.
  - intros r c row cell' Hr Hc. destruct (Nat.eq_dec i r) as [->|Hne].
    + rewrite list_lookup_alter_eq in Hr.
      destruct (mx !! r) as [row0|] eqn:Hrow0; simpl in Hr; [|discriminate].
      injection Hr as <-.
      destruct (Nat.eq_dec j c) as [->|Hnc].
      * apply list_lookup_insert_Some in Hc as [(_ & <- & _)|(Hcc & _)];
          [exact Hok|congruence].
      * rewrite list_lookup_insert_ne in Hc by exact Hnc. eauto.
    + rewrite list_lookup_alter_ne in Hr by exact Hne. eauto.
Qed.

(** *** Computations that keep the matrix well formed *)

(** On every well-formed matrix the computation [c] returns [v], leaves
    a well-formed matrix, and leaves the rows above [bound] alone. *)
Definition computes {A} (toks : list B) (bound : nat) (c : M A) (v : A)
  : Prop :=
  forall mx,
    wf_matrix toks mx ->
    exists mx',
      c mx = Some (v, mx') /\ wf_matrix toks mx' /\
      forall r, bound < r -> mx' !! r = mx !! r.

Lemma computes_ret {A} toks bound (v : A) : computes toks bound (ret v) v.
Proof. intros mx Hwf. exists mx. auto. Qed.

Lemma computes_bind {A C} toks bound (c : M A) (k : A -> M C) v w :
  computes toks bound c v -> computes toks bound (k v) w ->
  computes toks bound (bind c k) w.
Proof.
  intros Hc Hk mx Hwf. unfold bind.
  destruct (Hc mx Hwf) as (mx1 & -> & Hwf1 & Hfr1).
  destruct (Hk mx1 Hwf1) as (mx2 & -> & Hwf2 & Hfr2).
  exists mx2. split; [reflexivity|]. split; [exact Hwf2|].
  intros r Hr. rewrite Hfr2, Hfr1 by exact Hr. reflexivity.
Qed.

Lemma computes_weaken {A} toks bound bound' (c : M A) v :
  bound <= bound' -> computes toks bound c v -> computes toks bound' c v.
Proof.
  intros Hle Hc mx Hwf. destruct (Hc mx Hwf) as (mx' & Heq & Hwf' & Hfr).
  exists mx'. split; [exact Heq|]. split; [exact Hwf'|].
  intros r Hr. apply Hfr. lia.
Qed.

Lemma computes_both {A} toks bound (l r : M A) vl vr :
  computes toks bound l vl -> computes toks bound r vr ->
  computes toks bound (both eval_right_first l r) (vl, vr).
Proof.
  intros Hl Hr. unfold both. destruct eval_right_first.
  - eapply computes_bind; [exact Hr|]. simpl.
    eapply computes_bind; [exact Hl|]. apply computes_ret.
  - eapply computes_bind; [exact Hl|]. simpl.
    eapply computes_bind; [exact Hr|]. apply computes_ret.
Qed.

Lemma get_cell_frame mx mx' i j cell :
  mx' !! i = mx !! i ->
  get_cell i j mx = Some (cell, mx) -> get_cell i j mx' = Some (cell, mx').
Proof.
  unfold get_cell. intros ->. destruct (mx !! i) as [row|]; [|discriminate].
  destruct (row !! j); [|discriminate]. intros [= ->]. reflexivity.
Qed.

Lemma put_cell_frame mx i j cell r :
  i < r -> alter (fun row => <[j := cell]> row) i mx !! r = mx !! r.
Proof. intros Hr. apply list_lookup_alter_ne. lia. Qed.

(** The two halves of a cell, computed in either order: both in rows
    below [i], so row [i] is as it was. *)
Lemma computes_halves {A} toks (f : nat -> nat -> M A) (v : nat -> nat -> A)
    i j :
  1 <= i -> i + j < length toks ->
  (forall i' j', i' < i -> i' + j' < length toks ->
                 computes toks i' (f i' j') (v i' j')) ->
  computes toks (i - 1)
    (both eval_right_first (f (i / 2) j)
                           (f (i - (i / 2 + 1)) (j + (i / 2 + 1))))
    (v (i / 2) j, v (i - (i / 2 + 1)) (j + (i / 2 + 1))).
Proof.
  intros Hi Hij Hf. pose proof (half_lt i Hi) as Hhalf.
  apply computes_both.
  - eapply (computes_weaken _ (i / 2)); [lia|]. apply Hf; lia.
  - eapply (computes_weaken _ (i - (i / 2 + 1))); [lia|]. apply Hf; lia.
Qed.

(** *** [bigrams_size] *)

Lemma bigrams_size_rec_spec toks fuel :
  forall i j,
    i + j < length toks -> i < fuel ->
    computes toks i (bigrams_size_rec eval_right_first fuel i j)
             (size_sum toks i j).
Proof.
  induction fuel as [|fuel IH]; intros i j Hij Hf; [lia|].
  intros mx Hwf. cbn [bigrams_size_rec]. unfold bind at 1.
  destruct (get_cell_wf toks mx i j Hwf Hij) as (cell & Hget & Hok).
  rewrite Hget. destruct cell as [|n|b]; simpl in Hok.
  - rewrite sub_ix_eq. cbn beta iota. unfold bind at 1.
    destruct (computes_halves toks (bigrams_size_rec eval_right_first fuel)
                (size_sum toks) i j Hok Hij) with (mx := mx)
      as (mx2 & -> & Hwf2 & Hfr2); [intros; apply IH; lia|exact Hwf|].
    cbn [fst snd]. rewrite <- size_sum_split by exact Hok.
    unfold bind, set_size, bind.
    rewrite (get_cell_frame mx mx2 i j NONE) by (try apply Hfr2; try lia; exact Hget).
    unfold put_cell, ret. eexists. split; [reflexivity|]. split.
    + apply put_cell_wf; [exact Hwf2|]. simpl. auto.
    + intros r Hr. rewrite put_cell_frame by exact Hr. apply Hfr2. lia.
  - destruct Hok as [_ ->]. exists mx. auto.
  - subst b. exists mx. split; [|auto]. simpl. unfold ret.
    rewrite union_at_size; [reflexivity|apply (wf_valid _ _ Hwf)|exact Hij].
Qed.

Lemma bigrams_size_spec toks i j :
  i + j < length toks ->
  computes toks i (bigrams_size eval_right_first i j) (size_sum toks i j).
Proof. intros Hij. apply bigrams_size_rec_spec; lia. Qed.

(** *** [bigrams] *)

Lemma bigrams_rec_spec toks fuel :
  forall i j,
    i + j < length toks -> i < fuel ->
    computes toks i (bigrams_rec eval_right_first fuel i j)
             (union_at toks i j).
Proof.
  induction fuel as [|fuel IH]; intros i j Hij Hf; [lia|].
  intros mx Hwf. cbn [bigrams_rec]. unfold bind at 1.
  destruct (get_cell_wf toks mx i j Hwf Hij) as (cell & Hget & Hok).
  rewrite Hget.
  assert (Hsplit : 1 <= i -> forall c, get_cell i j mx = Some (c, mx) ->
            (forall b, c <> BIGRAMS b) ->
            exists mx',
              bind (both eval_right_first
                      (bigrams_rec eval_right_first fuel (i / 2) j)
                      (bigrams_rec eval_right_first fuel
                         (i - (i / 2 + 1)) (j + (i / 2 + 1))))
                (fun lr => bind (set_bigrams i j (bg_plus lr.1 lr.2))
                                (fun _ => cell_bigrams i j)) mx =
                Some (union_at toks i j, mx') /\
              wf_matrix toks mx' /\
              forall r, i < r -> mx' !! r = mx !! r).
  { intros Hi c Hc Hnb. unfold bind at 1.
    destruct (computes_halves toks (bigrams_rec eval_right_first fuel)
                (union_at toks) i j Hi Hij) with (mx := mx)
      as (mx2 & -> & Hwf2 & Hfr2); [intros; apply IH; lia|exact Hwf|].
    cbn [fst snd]. rewrite <- union_at_split by exact Hi.
    unfold bind at 1. unfold set_bigrams, bind at 1.
    rewrite (get_cell_frame mx mx2 i j c) by (try apply Hfr2; try lia; exact Hc).
    assert (Hput : (match c with
                    | BIGRAMS _ => fail
                    | _ => put_cell i j (BIGRAMS (union_at toks i j))
                    end) mx2 =
                   Some (tt, alter (fun row => <[j := BIGRAMS (union_at toks i j)]> row) i mx2)).
    { destruct c; try reflexivity. exfalso. eapply Hnb. reflexivity. }
    rewrite Hput. clear Hput.
    set (mx3 := alter _ i mx2).
    assert (Hwf3 : wf_matrix toks mx3)
      by (apply put_cell_wf; [exact Hwf2|reflexivity]).
    assert (Hget3 : get_cell i j mx3 = Some (BIGRAMS (union_at toks i j), mx3)).
    { unfold get_cell, mx3. rewrite list_lookup_alter_eq.
      destruct (lookup_lt_is_Some_2 mx2 i) as [row Hrow];
        [rewrite (wf_rows _ _ Hwf2); lia|].
      rewrite Hrow. simpl.
      rewrite list_lookup_insert_eq; [reflexivity|].
      rewrite (wf_cols _ _ Hwf2 i row Hrow). lia. }
    unfold cell_bigrams, bind. rewrite Hget3. unfold ret.
    exists mx3. split; [reflexivity|]. split; [exact Hwf3|].
    intros r Hr. unfold mx3. rewrite put_cell_frame by exact Hr.
    apply Hfr2. lia. }
  destruct cell as [|n|b]; simpl in Hok.
  - rewrite sub_ix_eq. cbn beta iota.
    apply (Hsplit Hok NONE Hget). discriminate.
  - rewrite sub_ix_eq. cbn beta iota.
    apply (Hsplit (proj1 Hok) (SIZE n) Hget). discriminate.
  - subst b. unfold cell_bigrams, bind. rewrite Hget. exists mx. auto.
Qed.

Lemma bigrams_spec toks i j :
  i + j < length toks ->
  computes toks i (bigrams eval_right_first i j) (union_at toks i j).
Proof. intros Hij. apply bigrams_rec_spec; lia. Qed.

(** *** The loops of [next_match] *)

Lemma inner_loop_spec toks strip_ixs n :
  forall it,
    n <= length toks - m_j it - m_i it ->
    computes toks (length toks)
      (inner_loop eval_right_first strip_ixs n it)
      (pure_inner toks strip_ixs n it).
Proof.
  induction n as [|n IH]; intros it Hn; cbn [inner_loop pure_inner].
  - apply computes_ret.
  - assert (Hnext : forall it' : iterator (B:=B), m_i it' = m_i it -> m_j it' = m_j it ->
              n <= length toks - m_j (set_ij it' (S (m_i it')) (m_j it'))
                   - m_i (set_ij it' (S (m_i it')) (m_j it')))
      by (intros it' Hi' Hj'; simpl; lia).
    destruct (bool_decide _); [apply IH, Hnext; reflexivity|].
    eapply computes_bind.
    { eapply computes_weaken; [|apply bigrams_size_spec]; lia. }
    cbv zeta. destruct (gtb _ _).
    + destruct (ltb _ _); [apply IH, Hnext; reflexivity|apply computes_ret].
    + eapply computes_bind.
      { eapply computes_weaken; [|apply bigrams_spec]; lia. }
      cbv zeta. destruct (ltb _ _); [|apply computes_ret].
      apply IH, Hnext; reflexivity.
Qed.

Lemma outer_loop_spec toks strip_ixs n :
  forall it,
    computes toks (length toks)
      (outer_loop eval_right_first strip_ixs (length toks) n it)
      (pure_outer toks strip_ixs n it).
Proof.
  induction n as [|n IH]; intros it; cbn [outer_loop pure_outer].
  - apply computes_ret.
  - destruct (bool_decide _); [apply IH|].
    eapply computes_bind; [apply inner_loop_spec; lia|].
    cbv zeta. destruct (pure_inner _ _ _ _).1; [apply computes_ret|apply IH].
Qed.

(** *** Appending tokens *)

Lemma window_app toks ext i j :
  i + j < length toks -> window (toks ++ ext) i j = window toks i j.
Proof.
  intros Hij. unfold window.
  rewrite drop_app_le by lia. rewrite take_app_le; [reflexivity|].
  rewrite length_drop. lia.
Qed.

Lemma size_sum_app toks ext i j :
  i + j < length toks -> size_sum (toks ++ ext) i j = size_sum toks i j.
Proof. intros Hij. unfold size_sum. rewrite window_app by exact Hij. reflexivity. Qed.

Lemma union_rec_app toks ext fuel :
  forall i j,
    i + j < length toks ->
    union_rec fuel (toks ++ ext) i j = union_rec fuel toks i j.
Proof.
  induction fuel as [|fuel IH]; intros i j Hij; [reflexivity|].
  cbn [union_rec]. destruct i as [|i].
  - apply app_nth1. lia.
  - rewrite sub_ix_eq. pose proof (half_lt (S i) ltac:(lia)).
    f_equal; apply IH; lia.
Qed.

Lemma cell_ok_app toks ext i j cell :
  i + j < length toks -> cell_ok toks i j cell -> cell_ok (toks ++ ext) i j cell.
Proof.
  intros Hij. destruct cell as [|n|b]; simpl.
  - trivial.
  - rewrite size_sum_app by exact Hij. trivial.
  - unfold union_at. rewrite union_rec_app by exact Hij. trivial.
Qed.

Lemma holds_size m toks : holds m toks -> size m = length toks.
Proof. intros Hm. apply (wf_rows _ _ Hm). Qed.

Lemma holds_empty : holds empty [].
Proof.
  split; simpl; [constructor|reflexivity|..]; intros; discriminate.
Qed.

Lemma holds_push_back m toks b strip :
  holds m toks -> bg_valid b -> holds (push_back b strip m) (toks ++ [b]).
Proof.
  intros [Hv Hrows Hcols Hcells] Hb. unfold holds, push_back, add_row. simpl.
  set (mx := m_mx m) in *.
  assert (Hrow : forall i row',
    imap (fun i row => if 1 <=? i then row ++ [NONE] else row)
         (alter (fun row => row ++ [BIGRAMS b]) 0 (mx ++ [[]])) !! i = Some row' ->
    exists row,
      (mx ++ [[]]) !! i = Some row /\
      row' = row ++ [if 1 <=? i then NONE else BIGRAMS b]).
  { intros i row'. rewrite list_lookup_imap.
    destruct i as [|i].
    - rewrite list_lookup_alter_eq.
      destruct ((mx ++ [[]]) !! 0) as [row|]; simpl; [|discriminate].
      intros [= <-]. eauto.
    - rewrite list_lookup_alter_ne by lia.
      destruct ((mx ++ [[]]) !! S i) as [row|]; simpl; [|discriminate].
      intros [= <-]. eauto. }
  assert (Hold : forall i row,
    (mx ++ [[]]) !! i = Some row -> length row = length toks - i).
  { intros i row Hi. apply lookup_app_Some in Hi as [Hi|[Hge Hi]].
    - apply Hcols. exact Hi.
    - apply list_lookup_singleton_Some in Hi as [Hi <-]. simpl. lia. }
  split.
  - apply Forall_app. split; [exact Hv|]. repeat constructor. exact Hb.
  - rewrite length_imap, length_alter, !length_app. simpl. lia.
  - intros i row' Hi. destruct (Hrow i row' Hi) as (row & Hr & ->).
    pose proof (Hold i row Hr) as Hlen.
    assert (Hi' : i < length (mx ++ [[]]))
      by (eapply lookup_lt_Some; eassumption).
    rewrite length_app in Hi'. rewrite !length_app. simpl in *. lia.
  - intros i j row' cell Hi Hj. destruct (Hrow i row' Hi) as (row & Hr & ->).
    pose proof (Hold i row Hr) as Hlen.
    assert (Hi' : i < length (mx ++ [[]])) by (eapply lookup_lt_Some; eassumption).
    rewrite length_app in Hi'. simpl in Hi'.
    apply lookup_app_Some in Hj as [Hj|[Hge Hj]].
    + pose proof (lookup_lt_Some _ _ _ Hj) as Hjlt.
      apply cell_ok_app; [lia|].
      apply lookup_app_Some in Hr as [Hr|[Hge Hr]].
      * eapply Hcells; eassumption.
      * apply list_lookup_singleton_Some in Hr as [_ <-]. discriminate.
    + apply list_lookup_singleton_Some in Hj as [Hj <-].
      destruct i as [|i]; simpl; [|lia].
      unfold union_at. simpl. rewrite app_nth2 by lia.
      replace (j - length toks) with 0 by lia. reflexivity.
Qed.

Lemma holds_of_tokens_from m toks (more : list (B * bool)) :
  holds m toks -> Forall (fun tok => bg_valid tok.1) more ->
  holds (fold_left (fun m tok => push_back tok.1 tok.2 m) more m)
        (toks ++ more.*1).
Proof.
  intros Hm Hmore. revert m toks Hm.
  induction Hmore as [|tok more Htok _ IH]; intros m toks Hm; simpl.
  - rewrite app_nil_r. exact Hm.
  - rewrite (cons_middle tok.1), app_assoc. apply IH.
    apply holds_push_back; assumption.
Qed.

Lemma holds_of_tokens (toks : list (B * bool)) :
  Forall (fun tok => bg_valid tok.1) toks -> holds (of_tokens toks) toks.*1.
Proof. apply (holds_of_tokens_from empty [] toks holds_empty). Qed.

(** *** The operations of the iterator on a matcher *)

Lemma run_yields {A} toks bound (c : M A) v m :
  holds m toks -> computes toks bound c v -> yields toks m (run c m) v.
Proof.
  intros Hm Hc. destruct (Hc (m_mx m) Hm) as (mx' & Heq & Hwf & _).
  unfold run. rewrite Heq. eexists. split; [reflexivity|]. split; [exact Hwf|].
  reflexivity.
Qed.

Lemma next_match_yields toks m it :
  holds m toks ->
  yields toks m (next_match eval_right_first it m)
         (pure_next_match toks (m_strip_ixs m) it).
Proof.
  intros Hm. unfold next_match, pure_next_match.
  rewrite (holds_size m toks Hm).
  eapply run_yields; [exact Hm|]. apply outer_loop_spec.
Qed.

Lemma begin_yields toks m q threshold :
  holds m toks ->
  yields toks m (begin eval_right_first q threshold m)
         (pure_begin toks (m_strip_ixs m) q threshold).
Proof. apply next_match_yields. Qed.

Lemma end_yields toks m :
  holds m toks ->
  yields toks m (end_ eval_right_first m) (pure_end toks (m_strip_ixs m)).
Proof.
  intros Hm. unfold end_, iterator_ctor. rewrite (holds_size m toks Hm).
  apply next_match_yields. exact Hm.
Qed.

Lemma incr_yields toks m it :
  holds m toks ->
  yields toks m (incr eval_right_first it m)
         (pure_incr toks (m_strip_ixs m) it).
Proof. apply next_match_yields. Qed.

Lemma size_at_yields toks m i j :
  holds m toks -> i + j < length toks ->
  yields toks m (run (bigrams_size eval_right_first i j) m) (size_sum toks i j).
Proof. intros Hm Hij. eapply run_yields; [exact Hm|]. apply bigrams_size_spec, Hij. Qed.

Lemma profile_at_yields toks m i j :
  holds m toks -> i + j < length toks ->
  yields toks m (run (bigrams eval_right_first i j) m) (union_at toks i j).
Proof. intros Hm Hij. eapply run_yields; [exact Hm|]. apply bigrams_spec, Hij. Qed.

Lemma collect_pure toks fuel :
  forall e it m,
    holds m toks ->
    collect eval_right_first fuel e it m =
      pure_collect toks (m_strip_ixs m) fuel e it.
Proof.
  induction fuel as [|fuel IH]; intros e it m Hm; [reflexivity|].
  cbn [collect pure_collect]. destruct (iter_eq it e); [reflexivity|].
  destruct (incr_yields toks m it Hm) as (m' & -> & Hm' & Hstrip).
  rewrite (IH _ _ _ Hm'), Hstrip. reflexivity.
Qed.

Lemma all_matches_pure toks m q threshold :
  holds m toks ->
  all_matches eval_right_first q threshold m =
    pure_collect toks (m_strip_ixs m) (S (length (cells (length toks))))
      (pure_end toks (m_strip_ixs m))
      (pure_begin toks (m_strip_ixs m) q threshold).
Proof.
  intros Hm. unfold all_matches.
  destruct (begin_yields toks m q threshold Hm) as (m1 & -> & Hm1 & Hs1).
  destruct (end_yields toks m1 Hm1) as (m2 & -> & Hm2 & Hs2).
  rewrite (collect_pure toks _ _ _ _ Hm2), Hs2, Hs1, (holds_size m toks Hm).
  reflexivity.
Qed.

End Matrix.
End matrix_facts.

(** ** The cells of the triangle in the order of the iteration *)

Module cells_facts.
Import matcher_spec.

Lemma row_cells_cons n i j :
  i + j < n -> row_cells n i j = (i, j) :: row_cells n (S i) j.
Proof.
  intros Hij. unfold row_cells.
  replace (n - j - i) with (S (n - j - S i)) by lia. reflexivity.
Qed.

Lemma row_cells_nil n i j : n <= i + j -> row_cells n i j = [].
Proof.
  intros Hij. unfold row_cells.
  replace (n - j - i) with 0 by lia. reflexivity.
Qed.

Lemma cells_from_row n i j :
  cells_from n i j = row_cells n i j ++ cells_from n 0 (S j).
Proof.
  unfold cells_from. f_equal.
  destruct (n - S j) as [|k] eqn:Hk.
  - rewrite row_cells_nil by lia.
    replace (n - S (S j)) with 0 by lia. reflexivity.
  - replace (n - S (S j)) with k by lia. reflexivity.
Qed.

Lemma cells_from_cons n i j :
  i + j < n -> cells_from n i j = (i, j) :: cells_from n (S i) j.
Proof.
  intros Hij. unfold cells_from. rewrite row_cells_cons by exact Hij.
  reflexivity.
Qed.

Lemma cells_from_end n : cells_from n 0 n = [].
Proof.
  unfold cells_from. rewrite row_cells_nil by lia.
  replace (n - S n) with 0 by lia. reflexivity.
Qed.

Lemma cells_from_origin n : cells n = cells_from n 0 0.
Proof.
  unfold cells, cells_from. destruct n as [|n]; [reflexivity|].
  replace (S n - 1) with n by lia. reflexivity.
Qed.

Lemma elem_of_row_cells n i j c :
  c ∈ row_cells n i j <-> c.2 = j /\ i <= c.1 /\ c.1 + j < n.
Proof.
  unfold row_cells. rewrite list_elem_of_fmap. split.
  - intros (i' & -> & Hi'). apply elem_of_seq in Hi'. simpl. lia.
  - intros (Hj & Hi & Hn). exists c.1. split.
    + destruct c. simpl in *. congruence.
    + apply elem_of_seq. lia.
Qed.

Lemma elem_of_cells_from n i j c :
  c ∈ cells_from n i j <->
  (c.2 = j /\ i <= c.1 /\ c.1 + j < n) \/ (j < c.2 /\ c.1 + c.2 < n).
Proof.
  unfold cells_from.
  rewrite elem_of_app, elem_of_row_cells, list_elem_of_bind.
  split.
  - intros [Hrow|(j' & Hc & Hj')]; [left; exact Hrow|right].
    apply elem_of_row_cells in Hc. apply elem_of_seq in Hj'. lia.
  - intros [Hrow|[Hj Hn]]; [left; exact Hrow|right].
    exists c.2. split.
    + apply elem_of_row_cells. lia.
    + apply elem_of_seq. lia.
Qed.

Lemma cells_from_after n i j :
  Forall (lex_lt (i, j)) (cells_from n (S i) j).
Proof.
  apply Forall_forall. intros c Hc. apply elem_of_cells_from in Hc.
  unfold lex_lt. simpl. lia.
Qed.

End cells_facts.

(** ** The bound on the ratio of the cardinalities *)

Module pruning_facts.
Import matcher_spec.

Local Open Scope Q_scope.

Local Abbreviation inj n := (inject_Z (Z.of_nat n)).

Lemma card_ratio_pos (sz a : nat) :
  (0 < a)%nat -> card_ratio sz a = Fin (inj sz / inj a).
Proof. intros Ha. apply div_Fin_pos, inject_nat_pos, Ha. Qed.

Lemma card_ratio_zero (sz : nat) :
  (0 < sz)%nat -> card_ratio sz 0 = PInf.
Proof.
  intros Hsz. unfold card_ratio, div, of_size_t. simpl.
  rewrite (sign_pos _ (inject_nat_pos sz Hsz)). reflexivity.
Qed.

Lemma card_ratio_zero_zero : card_ratio 0 0 = NaN.
Proof. reflexivity. Qed.

Lemma ratio_threshold_pos (q : Q) :
  0 < q -> sub (div two (Fin q)) one = Fin (2 / q - 1).
Proof. intros Hq. unfold two. rewrite div_Fin_pos by exact Hq. reflexivity. Qed.

Lemma ltb_zero_pos (q : Q) : 0 < q -> ltb zero (Fin q) = true.
Proof. intros Hq. apply ltb_Fin. exact Hq. Qed.

Lemma Qdiv_cancel (x y : Q) : 0 < y -> y * (x / y) == x.
Proof. intros Hy. apply Qmult_div_r. lra. Qed.

(** A coefficient whose numerator is within [2 * m] is below [q] once
    [2 * m < q * (a + b)]. *)
Lemma sdc_below (q : Q) (isect a b m : nat) :
  0 < q -> (isect <= a)%nat -> (isect <= b)%nat -> (isect <= m)%nat ->
  2 * inj m < q * (inj a + inj b) ->
  ltb (sdc_formula isect b a) (Fin q) = true.
Proof.
  intros Hq Ha Hb Hm Hlt.
  rewrite sdc_formula_value by assumption. apply ltb_Fin.
  unfold sdc_value. destruct (Nat.eqb_spec isect 0%nat) as [->|Hne]; [exact Hq|].
  apply Qlt_shift_div_r; [apply inject_nat_pos; lia|].
  rewrite inject_nat_add.
  pose proof (inject_nat_le isect m Hm). lra.
Qed.

(** Whatever the test on the ratio prunes has a coefficient below the
    threshold. *)
Lemma prune_sound (q : Q) (isect a b : nat) :
  0 < q -> (isect <= a)%nat -> (isect <= b)%nat ->
  ratio_too_big (Fin (2 / q - 1)) b a = true ->
  ltb (sdc_formula isect b a) (Fin q) = true.
Proof.
  intros Hq Ha Hb Hbig.
  destruct (Nat.eq_dec a 0%nat) as [->|Hapos].
  { replace isect with 0%nat by lia. apply ltb_zero_pos, Hq. }
  destruct (Nat.eq_dec b 0%nat) as [->|Hbpos].
  { replace isect with 0%nat by lia. apply ltb_zero_pos, Hq. }
  pose proof (inject_nat_pos a ltac:(lia)) as HA.
  pose proof (inject_nat_pos b ltac:(lia)) as HB.
  pose proof (Qdiv_cancel 2 q Hq) as Hx.
  pose proof (Qdiv_cancel (inj b) (inj a) HA) as Hz.
  unfold ratio_too_big, subseq_short in Hbig.
  rewrite card_ratio_pos in Hbig by lia.
  assert (Hzpos : 0 < inj b / inj a).
  { apply Qlt_shift_div_l; [exact HA|]. lra. }
  destruct (ltb (Fin (inj b / inj a)) one) eqn:Hshort.
  - unfold one in Hbig. rewrite div_Fin_pos in Hbig by exact Hzpos.
    apply ltb_Fin in Hbig.
    pose proof (Qdiv_cancel 1 (inj b / inj a) Hzpos) as Hy.
    apply (sdc_below q isect a b b); try assumption; try lia.
    set (x := 2 / q) in *. set (z := inj b / inj a) in *.
    set (y := 1 / z) in *.
    assert (Hprod : 0 < (y + 1 - x) * (q * inj b)).
    { apply Qmult_lt_0_compat; [lra|]. apply Qmult_lt_0_compat; assumption. }
    assert (Hby : inj b * y == inj a).
    { rewrite <- Hz at 1. rewrite <- Qmult_assoc, Hy. ring. }
    assert (Heq : (y + 1 - x) * (q * inj b) ==
                  q * (inj b * y) + q * inj b - (q * x) * inj b) by ring.
    rewrite Heq, Hby, Hx in Hprod. lra.
  - apply ltb_Fin in Hbig. apply ltb_Fin_false in Hshort.
    apply (sdc_below q isect a b a); try assumption; try lia.
    set (x := 2 / q) in *. set (z := inj b / inj a) in *.
    assert (Hprod : 0 < (z + 1 - x) * (q * inj a)).
    { apply Qmult_lt_0_compat; [lra|]. apply Qmult_lt_0_compat; assumption. }
    assert (Heq : (z + 1 - x) * (q * inj a) ==
                  q * (inj a * z) + q * inj a - (q * x) * inj a) by ring.
    rewrite Heq, Hz, Hx in Hprod. lra.
Qed.

(** Once the sub-sequence is the longer side and the ratio is too big, it
    stays so however the sub-sequence grows. *)
Lemma prune_mono (t : Q) (a b b' : nat) :
  (b <= b')%nat ->
  subseq_short b a = false -> ratio_too_big (Fin t) b a = true ->
  subseq_short b' a = false /\ ratio_too_big (Fin t) b' a = true.
Proof.
  intros Hbb Hshort Hbig. unfold ratio_too_big in *. rewrite Hshort in Hbig.
  destruct (Nat.eq_dec a 0%nat) as [->|Hapos].
  - destruct (Nat.eq_dec b 0%nat) as [->|Hbpos]; [discriminate|].
    unfold subseq_short. rewrite (card_ratio_zero b') by lia.
    split; reflexivity.
  - unfold subseq_short in *. rewrite card_ratio_pos in * by lia.
    pose proof (inject_nat_pos a ltac:(lia)) as HA.
    apply ltb_Fin_false in Hshort. apply ltb_Fin in Hbig.
    assert (Hle : inj b / inj a <= inj b' / inj a).
    { apply Qmult_le_compat_r; [apply inject_nat_le, Hbb|].
      apply Qlt_le_weak, Qinv_lt_0_compat, HA. }
    assert (Hs' : ltb (Fin (inj b' / inj a)) one = false)
      by (apply ltb_Fin_false; lra).
    rewrite Hs'. split; [reflexivity|]. apply ltb_Fin. lra.
Qed.

End pruning_facts.

(** ** The scan of [next_match] *)

Module iterator_facts.
Import basic_sequence_matcher matcher_spec cells_facts pruning_facts.
Import matrix_facts.

Section Scan.

Context {B : Type} `{BigramsLaws B}.
Variables (toks : list B) (strip_ixs : gset nat).

Implicit Types (it : iterator (B:=B)) (i j n : nat) (q : B) (theta : Q).

Local Abbreviation N := (length toks).
Local Abbreviation no_match q theta :=
  (fun c : nat * nat => is_match toks strip_ixs q (Fin theta) c.1 c.2 = false).

Lemma same_query_refl it : same_query it it.
Proof. repeat split. Qed.

Lemma same_query_trans it1 it2 it3 :
  same_query it1 it2 -> same_query it2 it3 -> same_query it1 it3.
Proof. unfold same_query. intuition congruence. Qed.

Lemma tuned_same q theta it it' :
  same_query it it' -> tuned toks q theta it -> tuned toks q theta it'.
Proof.
  intros (Hb & Ht & Hr) [? ? ? ? ? ?]. split; try assumption; congruence.
Qed.

(** One round of the inner loop. *)
Lemma pure_inner_S n it :
  pure_inner toks strip_ixs (S n) it =
    let next := set_ij it (S (m_i it)) (m_j it) in
    if bool_decide (m_j it + m_i it ∈ strip_ixs)
    then pure_inner toks strip_ixs n next
    else
      let sz := size_sum toks (m_i it) (m_j it) in
      let a := bg_size (m_bigrams it) in
      if ratio_too_big (m_card_ratio_threshold it) sz a then
        if subseq_short sz a then pure_inner toks strip_ixs n next
        else (Leave, it)
      else
        let it' :=
          set_sdc it (bg_sorensen_dice_coef
                        (union_at toks (m_i it) (m_j it)) (m_bigrams it)) in
        if ltb (m_sdc it') (m_sdc_threshold it')
        then pure_inner toks strip_ixs n (set_ij it' (S (m_i it')) (m_j it'))
        else (Return, it').
Proof. reflexivity. Qed.

(** *** What pruning skips is no match *)

Lemma size_sum_mono i i' j : i <= i' -> size_sum toks i j <= size_sum toks i' j.
Proof.
  intros Hi. unfold size_sum, window.
  replace (S i') with (S i + (i' - i)) by lia.
  rewrite <- take_take_drop, sum_list_with_app. lia.
Qed.

Lemma sdc_at q i j :
  Forall bg_valid toks -> bg_valid q -> i + j < N ->
  exists isect,
    isect <= bg_size q /\ isect <= size_sum toks i j /\
    bg_sorensen_dice_coef (union_at toks i j) q =
      sdc_formula isect (size_sum toks i j) (bg_size q).
Proof.
  intros Htoks Hq Hij.
  destruct (union_at_spec toks Htoks i j Hij) as (Hv & Hs & _).
  exists (bg_intersect_size (union_at toks i j) q).
  rewrite bg_sdc_formula, Hs. split; [|split; [|reflexivity]].
  - apply bg_intersect_le_r; assumption.
  - rewrite <- Hs. apply bg_intersect_le_l; assumption.
Qed.

Lemma pruned_below q theta i j :
  (0 < theta)%Q -> Forall bg_valid toks -> bg_valid q -> i + j < N ->
  ratio_too_big (Fin (2 / theta - 1)) (size_sum toks i j) (bg_size q) = true ->
  ltb (bg_sorensen_dice_coef (union_at toks i j) q) (Fin theta) = true.
Proof.
  intros Hth Htoks Hq Hij Hbig.
  destruct (sdc_at q i j Htoks Hq Hij) as (isect & Ha & Hb & ->).
  apply prune_sound; assumption.
Qed.

Lemma below_no_match q theta i j :
  ltb (bg_sorensen_dice_coef (union_at toks i j) q) (Fin theta) = true ->
  is_match toks strip_ixs q (Fin theta) i j = false.
Proof. intros Hlt. unfold is_match. rewrite Hlt. apply andb_false_r. Qed.

Lemma strip_end_no_match q theta i j :
  j + i ∈ strip_ixs -> is_match toks strip_ixs q (Fin theta) i j = false.
Proof.
  intros Hs. unfold is_match. rewrite (bool_decide_eq_true_2 _ Hs).
  rewrite andb_false_r. reflexivity.
Qed.

Lemma strip_begin_no_match q theta i j :
  j ∈ strip_ixs -> is_match toks strip_ixs q (Fin theta) i j = false.
Proof.
  intros Hs. unfold is_match. rewrite (bool_decide_eq_true_2 _ Hs).
  reflexivity.
Qed.

(** The [break]: no longer window at the same [j] is a match. *)
Lemma broken_row_no_match q theta i j :
  (0 < theta)%Q -> Forall bg_valid toks -> bg_valid q ->
  subseq_short (size_sum toks i j) (bg_size q) = false ->
  ratio_too_big (Fin (2 / theta - 1)) (size_sum toks i j) (bg_size q) = true ->
  Forall (no_match q theta) (row_cells N i j).
Proof.
  intros Hth Htoks Hq Hshort Hbig. apply Forall_forall. intros c Hc.
  apply elem_of_row_cells in Hc as (Hj & Hi & Hn).
  apply below_no_match. rewrite Hj.
  apply pruned_below; try assumption.
  eapply prune_mono; [apply size_sum_mono, Hi|eassumption..].
Qed.

(** *** The inner loop *)

(** The inner loop walks up the row from where it stands.  When it
    returns, it stands on a cell of the triangle; when the iterator is
    tuned, that cell is a match and none of the cells it passed is; when
    it leaves, no cell of the rest of the row is. *)
Lemma pure_inner_scan n :
  forall it,
    n = N - m_j it - m_i it ->
    let r := pure_inner toks strip_ixs n it in
    m_j r.2 = m_j it /\ same_query it r.2 /\
    match r.1 with
    | Return =>
        m_i r.2 + m_j it < N /\
        exists skipped,
          row_cells N (m_i it) (m_j it) =
            skipped ++ row_cells N (m_i r.2) (m_j it) /\
          forall q theta,
            tuned toks q theta it -> m_j it ∉ strip_ixs ->
            Forall (no_match q theta) skipped /\
            is_match toks strip_ixs q (Fin theta) (m_i r.2) (m_j it) = true
    | Leave =>
        forall q theta,
          tuned toks q theta it ->
          Forall (no_match q theta) (row_cells N (m_i it) (m_j it))
    end.
Proof.
  induction n as [|n IH]; intros it Hn.
  { simpl. split; [reflexivity|]. split; [apply same_query_refl|].
    intros q theta _. rewrite row_cells_nil by lia. constructor. }
  assert (Hij : m_i it + m_j it < N) by lia.
  (* moving on to the next cell of the row, the current one being no match *)
  assert (Hstep : forall it',
    m_i it' = m_i it -> m_j it' = m_j it -> same_query it it' ->
    (forall q theta, tuned toks q theta it ->
                     is_match toks strip_ixs q (Fin theta) (m_i it) (m_j it) = false) ->
    let r := pure_inner toks strip_ixs n (set_ij it' (S (m_i it')) (m_j it')) in
    m_j r.2 = m_j it /\ same_query it r.2 /\
    match r.1 with
    | Return =>
        m_i r.2 + m_j it < N /\
        exists skipped,
          row_cells N (m_i it) (m_j it) =
            skipped ++ row_cells N (m_i r.2) (m_j it) /\
          forall q theta,
            tuned toks q theta it -> m_j it ∉ strip_ixs ->
            Forall (no_match q theta) skipped /\
            is_match toks strip_ixs q (Fin theta) (m_i r.2) (m_j it) = true
    | Leave =>
        forall q theta,
          tuned toks q theta it ->
          Forall (no_match q theta) (row_cells N (m_i it) (m_j it))
    end).
  { intros it' Hi' Hj' Hsame Hno.
    specialize (IH (set_ij it' (S (m_i it')) (m_j it'))).
    simpl in IH. rewrite Hi', Hj' in IH. specialize (IH ltac:(lia)).
    cbv zeta. rewrite Hi', Hj'.
    destruct (pure_inner toks strip_ixs n (set_ij it' (S (m_i it)) (m_j it)))
      as [exit it2]. simpl in *.
    destruct IH as (Hj2 & Hsame2 & IH). split; [exact Hj2|].
    assert (Hsame' : same_query it it2).
    { eapply same_query_trans; [exact Hsame|]. exact Hsame2. }
    split; [exact Hsame'|].
    rewrite (row_cells_cons N (m_i it) (m_j it) Hij).
    destruct exit.
    - destruct IH as (Hin & skipped & Hrow & Hsound). split; [exact Hin|].
      exists ((m_i it, m_j it) :: skipped). split; [rewrite Hrow; reflexivity|].
      intros q theta Ht Hjs.
      destruct (Hsound q theta) as [Hsk Hm];
        [eapply tuned_same; [|exact Ht]; exact Hsame|exact Hjs|].
      split; [|exact Hm]. constructor; [apply (Hno q theta Ht)|exact Hsk].
    - intros q theta Ht. constructor; [apply (Hno q theta Ht)|].
      apply IH. eapply tuned_same; [|exact Ht]. exact Hsame. }
  rewrite pure_inner_S. cbv zeta.
  destruct (bool_decide (m_j it + m_i it ∈ strip_ixs)) eqn:Hstrip.
  { apply Hstep; [reflexivity..|apply same_query_refl|].
    intros q theta _. apply strip_end_no_match.
    apply bool_decide_eq_true in Hstrip. exact Hstrip. }
  destruct (ratio_too_big _ _ _) eqn:Hbig.
  { destruct (subseq_short _ _) eqn:Hshort.
    - apply Hstep; [reflexivity..|apply same_query_refl|].
      intros q theta [Hqb Hth Hr Hpos Hq Htoks].
      apply below_no_match, pruned_below; try assumption.
      rewrite <- Hqb, <- Hr. exact Hbig.
    - simpl. split; [reflexivity|]. split; [apply same_query_refl|].
      intros q theta [Hqb Hth Hr Hpos Hq Htoks].
      apply broken_row_no_match; try assumption.
      + rewrite <- Hqb. exact Hshort.
      + rewrite <- Hqb, <- Hr. exact Hbig. }
  destruct (ltb _ _) eqn:Hlt.
  { apply Hstep; [reflexivity..|repeat split|].
    intros q theta [Hqb Hth Hr Hpos Hq Htoks].
    apply below_no_match. rewrite <- Hqb, <- Hth. exact Hlt. }
  simpl. split; [reflexivity|]. split; [repeat split|].
  split; [exact Hij|]. exists []. split; [reflexivity|].
  intros q theta [Hqb Hth Hr Hpos Hq Htoks] Hjs. split; [constructor|].
  unfold is_match.
  rewrite (bool_decide_eq_false_2 (m_j it ∈ strip_ixs) Hjs).
  rewrite Hstrip, <- Hqb, <- Hth.
  simpl in Hlt. rewrite Hlt. reflexivity.
Qed.

(** *** The outer loop *)

Lemma row_no_match_strip q theta i j :
  j ∈ strip_ixs -> Forall (no_match q theta) (row_cells N i j).
Proof.
  intros Hs. apply Forall_forall. intros c Hc.
  apply elem_of_row_cells in Hc as (Hj & _). rewrite Hj.
  apply strip_begin_no_match, Hs.
Qed.

(** [next_match] moves forward through the cells, in their order, to a
    cell of the triangle or to the end; when the iterator is tuned, it
    stops at the first match. *)
Lemma pure_outer_scan n :
  forall it,
    n = N - m_j it ->
    m_i it = 0 \/ m_j it ∉ strip_ixs ->
    m_j it <= N -> (m_j it = N -> m_i it = 0) ->
    let it' := pure_outer toks strip_ixs n it in
    same_query it it' /\ placed toks strip_ixs it' /\
    exists skipped,
      cells_from N (m_i it) (m_j it) =
        skipped ++ cells_from N (m_i it') (m_j it') /\
      forall q theta,
        tuned toks q theta it ->
        Forall (no_match q theta) skipped /\
        (at_cell toks strip_ixs it' ->
         is_match toks strip_ixs q (Fin theta) (m_i it') (m_j it') = true).
Proof.
  induction n as [|n IH]; intros it Hn Hstart Hle Hend.
  { simpl. split; [apply same_query_refl|].
    assert (Hj : m_j it = N) by lia. specialize (Hend Hj).
    split; [left; split; assumption|].
    exists []. split; [reflexivity|]. intros q theta _. split; [constructor|].
    intros [Hcell _]. lia. }
  (* the rest of the row is no match: on to the next row *)
  assert (Hnext : forall it1,
    m_j it1 = m_j it -> same_query it it1 ->
    (forall q theta, tuned toks q theta it ->
                     Forall (no_match q theta) (row_cells N (m_i it) (m_j it))) ->
    let it' := pure_outer toks strip_ixs n (set_ij it1 0 (S (m_j it1))) in
    same_query it it' /\ placed toks strip_ixs it' /\
    exists skipped,
      cells_from N (m_i it) (m_j it) =
        skipped ++ cells_from N (m_i it') (m_j it') /\
      forall q theta,
        tuned toks q theta it ->
        Forall (no_match q theta) skipped /\
        (at_cell toks strip_ixs it' ->
         is_match toks strip_ixs q (Fin theta) (m_i it') (m_j it') = true)).
  { intros it1 Hj1 Hsame Hrow.
    specialize (IH (set_ij it1 0 (S (m_j it1)))). simpl in IH.
    rewrite Hj1 in IH.
    specialize (IH ltac:(lia) ltac:(left; reflexivity) ltac:(lia)
                   ltac:(reflexivity)).
    cbv zeta. rewrite Hj1.
    destruct IH as (Hsame' & Hplaced & skipped & Hcells & Hsound).
    assert (Hsame2 : same_query it (set_ij it1 0 (S (m_j it)))) by exact Hsame.
    split; [eapply same_query_trans; eassumption|].
    split; [exact Hplaced|].
    exists (row_cells N (m_i it) (m_j it) ++ skipped). split.
    - rewrite cells_from_row, Hcells, app_assoc. reflexivity.
    - intros q theta Ht.
      destruct (Hsound q theta (tuned_same _ _ _ _ Hsame2 Ht)) as [Hsk Hm].
      split; [|exact Hm]. apply Forall_app. split; [|exact Hsk].
      apply Hrow, Ht. }
  cbn [pure_outer].
  destruct (bool_decide (m_j it ∈ strip_ixs)) eqn:Hstrip.
  { apply bool_decide_eq_true in Hstrip.
    assert (Hi : m_i it = 0) by (destruct Hstart; [assumption|contradiction]).
    replace (set_ij it (m_i it) (S (m_j it)))
      with (set_ij it 0 (S (m_j it))) by (rewrite Hi; reflexivity).
    apply (Hnext it); [reflexivity|apply same_query_refl|].
    intros q theta _. apply row_no_match_strip, Hstrip. }
  apply bool_decide_eq_false in Hstrip.
  pose proof (pure_inner_scan (N - m_j it - m_i it) it eq_refl) as Hinner.
  cbv zeta in Hinner |- *.
  destruct (pure_inner toks strip_ixs (N - m_j it - m_i it) it)
    as [exit it2]. simpl in Hinner |- *.
  destruct Hinner as (Hj2 & Hsame & Hinner). destruct exit.
  - destruct Hinner as (Hin & skipped & Hrow & Hsound).
    split; [exact Hsame|]. split.
    { right. split; [lia|]. rewrite Hj2. exact Hstrip. }
    exists skipped. rewrite Hj2. split.
    + unfold cells_from. rewrite Hrow, app_assoc. reflexivity.
    + intros q theta Ht.
      destruct (Hsound q theta Ht Hstrip) as [Hsk Hm].
      split; [exact Hsk|]. intros _. exact Hm.
  - apply (Hnext it2); assumption.
Qed.

(** *** The loop of a caller *)

Lemma filter_no_match q theta (l : list (nat * nat)) :
  Forall (no_match q theta) l ->
  filter (fun c => is_match toks strip_ixs q (Fin theta) c.1 c.2 = true) l = [].
Proof.
  induction 1 as [|c l Hc _ IH]; [reflexivity|].
  rewrite filter_cons_False; [exact IH|]. simpl in Hc. congruence.
Qed.

Lemma iter_eq_end it e :
  at_end toks e ->
  iter_eq it e = true <-> at_end toks it.
Proof.
  intros [Hei Hej]. unfold iter_eq, at_end.
  rewrite andb_true_iff, !Nat.eqb_eq, Hei, Hej. reflexivity.
Qed.

Lemma pure_incr_scan it :
  at_cell toks strip_ixs it ->
  let it' := pure_incr toks strip_ixs it in
  same_query it it' /\ placed toks strip_ixs it' /\
  exists skipped,
    cells_from N (m_i it) (m_j it) =
      (m_i it, m_j it) :: skipped ++ cells_from N (m_i it') (m_j it') /\
    forall q theta,
      tuned toks q theta it ->
      Forall (no_match q theta) skipped /\
      (at_cell toks strip_ixs it' ->
       is_match toks strip_ixs q (Fin theta) (m_i it') (m_j it') = true).
Proof.
  intros [Hij Hstrip].
  pose proof (pure_outer_scan (N - m_j it) (set_ij it (S (m_i it)) (m_j it)))
    as Hscan.
  simpl in Hscan.
  specialize (Hscan eq_refl ltac:(right; exact Hstrip) ltac:(lia) ltac:(lia)).
  unfold pure_incr, pure_next_match. simpl.
  destruct Hscan as (Hsame & Hplaced & skipped & Hcells & Hsound).
  split; [exact Hsame|]. split; [exact Hplaced|].
  exists skipped. split.
  - rewrite cells_from_cons by exact Hij. rewrite Hcells. reflexivity.
  - intros q theta Ht. apply Hsound.
    eapply tuned_same; [|exact Ht]. repeat split.
Qed.

Lemma pure_collect_scan fuel :
  forall it e,
    at_end toks e -> placed toks strip_ixs it ->
    length (cells_from N (m_i it) (m_j it)) < fuel ->
    exists l,
      pure_collect toks strip_ixs fuel e it = Some l /\
      Forall (fun c => c ∈ cells_from N (m_i it) (m_j it)) l /\
      StronglySorted lex_lt l /\
      forall q theta,
        tuned toks q theta it ->
        (at_cell toks strip_ixs it ->
         is_match toks strip_ixs q (Fin theta) (m_i it) (m_j it) = true) ->
        l = filter (fun c => is_match toks strip_ixs q (Fin theta) c.1 c.2 = true)
                   (cells_from N (m_i it) (m_j it)).
Proof.
  induction fuel as [|fuel IH]; intros it e He Hplaced Hfuel; [lia|].
  cbn [pure_collect].
  destruct (iter_eq it e) eqn:Heq.
  { apply (iter_eq_end it e He) in Heq. destruct Heq as [Hi Hj].
    exists []. split; [reflexivity|]. split; [constructor|].
    split; [constructor|]. intros q theta _ _.
    rewrite Hi, Hj, cells_from_end. reflexivity. }
  destruct Hplaced as [Hend|Hcell].
  { apply (iter_eq_end it e He) in Hend. congruence. }
  destruct (pure_incr_scan it Hcell)
    as (Hsame & Hplaced' & skipped & Hcells & Hsound).
  set (it' := pure_incr toks strip_ixs it) in *.
  rewrite Hcells in Hfuel. simpl in Hfuel. rewrite length_app in Hfuel.
  destruct (IH it' e He Hplaced' ltac:(lia)) as (l & -> & Hin & Hsorted & Hl).
  exists (position it :: l). split; [reflexivity|].
  assert (Hin' : Forall (fun c => c ∈ cells_from N (S (m_i it)) (m_j it)) l).
  { destruct Hcell as [Hij _].
    rewrite (cells_from_cons N _ _ Hij) in Hcells.
    injection Hcells as Hcells. rewrite Hcells.
    eapply Forall_impl; [exact Hin|]. intros c Hc.
    apply elem_of_app. right. exact Hc. }
  split; [|split].
  - destruct Hcell as [Hij _]. constructor.
    + rewrite (cells_from_cons N _ _ Hij). left.
    + eapply Forall_impl; [exact Hin'|]. intros c Hc.
      rewrite (cells_from_cons N _ _ Hij). right. exact Hc.
  - constructor; [exact Hsorted|].
    pose proof (cells_from_after N (m_i it) (m_j it)) as Hafter.
    rewrite Forall_forall in Hafter, Hin' |- *.
    intros c Hc. apply Hafter, Hin', Hc.
  - intros q theta Ht Hm. rewrite Hcells.
    destruct (Hsound q theta Ht) as [Hsk Hm'].
    rewrite filter_cons_True by (apply Hm, Hcell).
    rewrite filter_app, (filter_no_match q theta skipped Hsk). simpl.
    f_equal. apply Hl; [|exact Hm'].
    eapply tuned_same; [exact Hsame|exact Ht].
Qed.

(** *** [begin], [end] and [operator ++] *)

Lemma pure_end_eq : pure_end toks strip_ixs = initial bg_empty zero 0 N.
Proof.
  unfold pure_end, pure_next_match. simpl.
  replace (N - N) with 0 by lia. reflexivity.
Qed.

Lemma pure_end_at_end : at_end toks (pure_end toks strip_ixs).
Proof. rewrite pure_end_eq. split; reflexivity. Qed.

Lemma tuned_initial q theta i j :
  (0 < theta)%Q -> bg_valid q -> Forall bg_valid toks ->
  tuned toks q theta (initial q (Fin theta) i j).
Proof.
  intros Hth Hq Htoks. split; try assumption; try reflexivity.
  apply ratio_threshold_pos, Hth.
Qed.

Lemma pure_begin_scan q threshold :
  let it := pure_begin toks strip_ixs q threshold in
  same_query (initial q threshold 0 0) it /\ placed toks strip_ixs it /\
  exists skipped,
    cells N = skipped ++ cells_from N (m_i it) (m_j it) /\
    forall theta,
      threshold = Fin theta -> (0 < theta)%Q -> bg_valid q ->
      Forall bg_valid toks ->
      Forall (no_match q theta) skipped /\
      (at_cell toks strip_ixs it ->
       is_match toks strip_ixs q (Fin theta) (m_i it) (m_j it) = true).
Proof.
  pose proof (pure_outer_scan N (initial q threshold 0 0)) as Hscan.
  simpl in Hscan.
  specialize (Hscan ltac:(lia) ltac:(left; reflexivity) ltac:(lia)
                    ltac:(reflexivity)).
  unfold pure_begin, pure_next_match. simpl.
  replace (N - 0) with N by lia.
  destruct Hscan as (Hsame & Hplaced & skipped & Hcells & Hsound).
  split; [exact Hsame|]. split; [exact Hplaced|].
  exists skipped. split; [rewrite cells_from_origin; exact Hcells|].
  intros theta -> Hth Hq Htoks. apply Hsound.
  apply tuned_initial; assumption.
Qed.

(** A placed iterator is at the end exactly when its column is not
    below [N], and then it equals the sentinel. *)
Lemma placed_end it :
  placed toks strip_ixs it ->
  m_j it <= N /\
  (N <= m_j it <-> iter_eq it (pure_end toks strip_ixs) = true).
Proof.
  intros Hp. rewrite (iter_eq_end it _ pure_end_at_end).
  destruct Hp as [[Hi Hj]|[Hij Hs]]; unfold at_end; split; lia.
Qed.

(** From a cell, [operator ++] moves strictly forward in the order of
    the positions. *)
Lemma pure_incr_forward it :
  at_cell toks strip_ixs it ->
  lex_lt (position it) (position (pure_incr toks strip_ixs it)).
Proof.
  intros Hcell.
  destruct (pure_incr_scan it Hcell) as (_ & Hplaced & skipped & Hcells & _).
  set (it' := pure_incr toks strip_ixs it) in *.
  destruct Hcell as [Hij _].
  destruct Hplaced as [[Hi' Hj']|[Hij' _]].
  - unfold lex_lt, position. simpl. lia.
  - rewrite (cells_from_cons N _ _ Hij) in Hcells. injection Hcells as Hcells.
    pose proof (cells_from_after N (m_i it) (m_j it)) as Hafter.
    rewrite Forall_forall in Hafter. apply Hafter.
    rewrite Hcells, (cells_from_cons N _ _ Hij').
    apply elem_of_app. right. left.
Qed.

(** The caller's loop ends, and what it collects is in ascending
    order. *)
Lemma pure_all_matches_sorted q threshold :
  exists l,
    pure_collect toks strip_ixs (S (length (cells N)))
      (pure_end toks strip_ixs) (pure_begin toks strip_ixs q threshold)
      = Some l /\
    StronglySorted lex_lt l /\ Forall (fun c => c ∈ cells N) l.
Proof.
  destruct (pure_begin_scan q threshold)
    as (_ & Hplaced & skipped & Hcells & _).
  set (it := pure_begin toks strip_ixs q threshold) in *.
  destruct (pure_collect_scan (S (length (cells N))) it
              (pure_end toks strip_ixs) pure_end_at_end Hplaced)
    as (l & Hl & Hin & Hsorted & _).
  { rewrite Hcells, length_app. lia. }
  exists l. split; [exact Hl|]. split; [exact Hsorted|].
  eapply Forall_impl; [exact Hin|]. intros c Hc.
  rewrite Hcells. apply elem_of_app. right. exact Hc.
Qed.

(** With a positive threshold the caller collects exactly the matches
    of the specification. *)
Lemma pure_all_matches_exact q theta :
  (0 < theta)%Q -> bg_valid q -> Forall bg_valid toks ->
  pure_collect toks strip_ixs (S (length (cells N)))
    (pure_end toks strip_ixs) (pure_begin toks strip_ixs q (Fin theta))
    = Some (spec_matches toks strip_ixs q (Fin theta)).
Proof.
  intros Hth Hq Htoks.
  destruct (pure_begin_scan q (Fin theta))
    as (Hsame & Hplaced & skipped & Hcells & Hsound).
  set (it := pure_begin toks strip_ixs q (Fin theta)) in *.
  destruct (Hsound theta eq_refl Hth Hq Htoks) as [Hsk Hm].
  destruct (pure_collect_scan (S (length (cells N))) it
              (pure_end toks strip_ixs) pure_end_at_end Hplaced)
    as (l & Hl & _ & _ & Hexact).
  { rewrite Hcells, length_app. lia. }
  rewrite Hl. f_equal. unfold spec_matches.
  rewrite Hcells, filter_app, (filter_no_match q theta skipped Hsk). simpl.
  apply Hexact; [|exact Hm].
  eapply tuned_same; [exact Hsame|]. apply tuned_initial; assumption.
Qed.

(** When no cell is a match, [begin] is at the end. *)
Lemma pure_begin_at_end q theta :
  (0 < theta)%Q -> bg_valid q -> Forall bg_valid toks ->
  (forall i j, i + j < N ->
               is_match toks strip_ixs q (Fin theta) i j = false) ->
  at_end toks (pure_begin toks strip_ixs q (Fin theta)).
Proof.
  intros Hth Hq Htoks Hno.
  destruct (pure_begin_scan q (Fin theta))
    as (_ & Hplaced & skipped & _ & Hsound).
  destruct Hplaced as [Hend|Hcell]; [exact Hend|].
  destruct (Hsound theta eq_refl Hth Hq Htoks) as [_ Hm].
  specialize (Hm Hcell). rewrite Hno in Hm by apply Hcell. discriminate.
Qed.

(** What it is to be a match, in the words of the specification. *)
Lemma is_match_spec q theta i j :
  Forall bg_valid toks -> bg_valid q -> i + j < N ->
  (is_match toks strip_ixs q (Fin theta) i j = true) <->
  ((j ∉ strip_ixs) /\ (j + i ∉ strip_ixs) /\
   ge (bg_sorensen_dice_coef (union_at toks i j) q) (Fin theta)).
Proof.
  intros Htoks Hq Hij. unfold is_match.
  destruct (sdc_at q i j Htoks Hq Hij) as (isect & Ha & Hb & ->).
  rewrite sdc_formula_value by assumption.
  rewrite !andb_true_iff, !negb_true_iff.
  rewrite !bool_decide_eq_false, ltb_Fin_false. simpl. tauto.
Qed.

Lemma elem_of_spec_matches q threshold c :
  c ∈ spec_matches toks strip_ixs q threshold <->
  (c.1 + c.2 < N /\ is_match toks strip_ixs q threshold c.1 c.2 = true).
Proof.
  unfold spec_matches. rewrite list_elem_of_filter, cells_from_origin.
  rewrite elem_of_cells_from. split.
  - intros [Hm Hc]. split; [lia|exact Hm].
  - intros [Hc Hm]. split; [exact Hm|].
    destruct (Nat.eq_dec c.2 0); [left|right]; lia.
Qed.

(** *** Queries that match nothing *)

Lemma spec_matches_nil q theta :
  (forall i j, i + j < N ->
               is_match toks strip_ixs q (Fin theta) i j = false) ->
  spec_matches toks strip_ixs q (Fin theta) = [].
Proof.
  intros Hno. unfold spec_matches. apply filter_no_match, Forall_forall.
  intros c Hc. apply Hno.
  rewrite cells_from_origin in Hc. apply elem_of_cells_from in Hc. lia.
Qed.

Lemma above_one_no_match q theta i j :
  Forall bg_valid toks -> bg_valid q -> i + j < N -> (1 < theta)%Q ->
  is_match toks strip_ixs q (Fin theta) i j = false.
Proof.
  intros Htoks Hq Hij Hth. apply below_no_match.
  destruct (sdc_at q i j Htoks Hq Hij) as (isect & Ha & Hb & ->).
  rewrite sdc_formula_value by assumption. apply ltb_Fin.
  pose proof (sdc_value_range isect (size_sum toks i j) (bg_size q) Hb Ha).
  lra.
Qed.


End Scan.
End iterator_facts.

(** * The unit tests of the profiles *)

Module profile_test.

Definition abcd : basic_bigrams.t := basic_bigrams.of_string (str "abcd").
Definition bcd : basic_bigrams.t := basic_bigrams.of_string (str "bcd").

Example abcd_bigrams :
  abcd = basic_bigrams.mk
           [((97, 98)%Z, 1); ((98, 99)%Z, 1); ((99, 100)%Z, 1)] 3.
Proof. vm_compute. reflexivity. Qed.

Example unite_abcd_bcd :
  basic_bigrams.unite abcd [bcd] =
    basic_bigrams.mk
      [((97, 98)%Z, 1); ((98, 99)%Z, 2); ((99, 100)%Z, 2)] 5.
Proof. vm_compute. reflexivity. Qed.

Example intersect_abcd_bcd : basic_bigrams.intersect_size abcd bcd = 2.
Proof. reflexivity. Qed.

Example sdc_abcd_bcd :
  basic_bigrams.sorensen_dice_coef abcd bcd = Fin (2 * 2 / 5).
Proof. vm_compute. reflexivity. Qed.

Example multiset_abcd :
  bigram_multiset.size (bigram_multiset.of_string (str "abcd")) = 3.
Proof. reflexivity. Qed.

Example multiset_intersect :
  bigram_multiset.intersect_size (bigram_multiset.of_string (str "abcd"))
                                 (bigram_multiset.of_string (str "bcd")) = 2.
Proof. reflexivity. Qed.

Example multiset_sdc :
  bigram_multiset.sorensen_dice_coef
    (bigram_multiset.of_string (str "abcd"))
    (bigram_multiset.of_string (str "bcd")) = Fin (2 * 2 / 5).
Proof. vm_compute. reflexivity. Qed.

End profile_test.

(** * The text of the unit test of the matcher *)

Module unit_test.
Import basic_sequence_matcher matcher_spec.

Definition bigrams_of (s : string) : basic_bigrams.t :=
  basic_bigrams.of_string (str s).

(** The nine tokens with their strip flags. *)
Definition tokens : list (basic_bigrams.t * bool) :=
  [ (bigrams_of "Prologue", false);
    (bigrams_of " .", true);
    (bigrams_of "  ", true);
    (bigrams_of "Hello", false);
    (bigrams_of "  ", true);
    (bigrams_of "world", false);
    (bigrams_of " !", true);
    (bigrams_of "Epilogue", false);
    (bigrams_of " .", false) ].

Definition text : t := of_tokens tokens.

(** [unite(bigrams("Helo"), bigrams("  "), bigrams("wordl"))] *)
Definition query : basic_bigrams.t :=
  basic_bigrams.unite (bigrams_of "Helo")
    [bigrams_of "  "; bigrams_of "wordl"].

Lemma text_holds : holds text tokens.*1.
Proof.
  apply matrix_facts.holds_of_tokens.
  repeat constructor; apply basic_bigrams_facts.of_string_valid.
Qed.

Lemma query_valid : basic_bigrams_facts.valid query.
Proof.
  apply basic_bigrams_union.unite_valid;
    repeat constructor; apply basic_bigrams_facts.of_string_valid.
Qed.

(** The run of the test: one match, tokens 3 to 5, then the end. *)
Example first_match :
  option_map (fun r => position r.1) (begin false query (Fin (7 # 10)) text)
  = Some (2, 3).
Proof. vm_compute. reflexivity. Qed.

Example matches : all_matches false query (Fin (7 # 10)) text = Some [(2, 3)].
Proof. vm_compute. reflexivity. Qed.

End unit_test.

(** * The claims of the specification *)

Section matcher_claims.

Import basic_sequence_matcher matcher_spec.
Import matrix_facts iterator_facts.

Context {B : Type} `{BigramsLaws B}.

(** C1.  In a matcher that holds N appended token profiles, for every
    cell (i, j) of the triangle, i + j < N: [bigrams_size(i, j)] returns
    the sum of the sizes of the row-0 profiles at j..j+i, and
    [bigrams(i, j)] returns their multiset union (every bigram as often
    as the tokens hold it together, the size being the sum of the
    sizes).  Row 0 holds the profiles as they were appended and is the
    base case; above it the value is the union of the two halves that
    [sub_ix] names: i1 = i/2, j1 = j, i2 = i - i1 - 1, j2 = j + i1 + 1.
    Either operation leaves a matcher that holds the same tokens. *)
Theorem bigrams_matrix_window (eval_right_first : bool) (m : t)
    (toks : list B) (i j : nat) :
  holds m toks -> i + j < length toks ->
  yields toks m (run (bigrams_size eval_right_first i j) m)
         (sum_list_with bg_size (window toks i j)) /\
  (forall j' b,
      toks !! j' = Some b -> get_cell 0 j' (m_mx m) = Some (BIGRAMS b, m_mx m)) /\
  exists p,
    yields toks m (run (bigrams eval_right_first i j) m) p /\
    (forall x, bg_count x p = sum_list_with (bg_count x) (window toks i j)) /\
    bg_size p = sum_list_with bg_size (window toks i j) /\
    (i = 0 -> toks !! j = Some p) /\
    (1 <= i ->
     sub_ix i j = (i / 2, j, i - i / 2 - 1, j + i / 2 + 1) /\
     p = bg_plus (union_at toks (i / 2) j)
                 (union_at toks (i - i / 2 - 1) (j + i / 2 + 1)) /\
     size_sum toks i j =
       size_sum toks (i / 2) j + size_sum toks (i - i / 2 - 1) (j + i / 2 + 1)).
Proof.
  intros Hm Hij. split; [apply (size_at_yields _ _ _ _ _ Hm Hij)|].
  split.
  { intros j' b Hb.
    destruct (get_cell_wf toks (m_mx m) 0 j' Hm) as (cell & Hget & Hok).
    { apply lookup_lt_Some in Hb. lia. }
    rewrite Hget. destruct cell as [|n|b']; simpl in Hok; [lia|lia|].
    rewrite union_at_row0, (nth_lookup_Some _ _ _ _ Hb) in Hok.
    subst b'. reflexivity. }
  exists (union_at toks i j).
  destruct (union_at_spec toks (wf_valid _ _ Hm) i j Hij) as (_ & Hs & Hc).
  split; [apply (profile_at_yields _ _ _ _ _ Hm Hij)|].
  split; [exact Hc|]. split; [exact Hs|]. split.
  - intros ->. rewrite union_at_row0.
    destruct (lookup_lt_is_Some_2 toks j ltac:(lia)) as [b Hb].
    rewrite (nth_lookup_Some _ _ _ _ Hb). exact Hb.
  - intros Hi.
    replace (i - i / 2 - 1) with (i - (i / 2 + 1)) by lia.
    replace (j + i / 2 + 1) with (j + (i / 2 + 1)) by lia.
    split; [apply sub_ix_eq|].
    split; [apply union_at_split, Hi|apply size_sum_split, Hi].
Qed.

End matcher_claims.

Lemma bigrams_matrix_window_witness :
  matcher_spec.holds unit_test.text unit_test.tokens.*1 /\
  2 + 3 < length unit_test.tokens.*1 /\
  matcher_spec.yields unit_test.tokens.*1 unit_test.text
    (basic_sequence_matcher.run
       (basic_sequence_matcher.bigrams_size false 2 3) unit_test.text)
    9.
Proof.
  split; [exact unit_test.text_holds|].
  split; [vm_compute; lia|].
  exact (proj1 (bigrams_matrix_window false unit_test.text
                  unit_test.tokens.*1 2 3 unit_test.text_holds
                  ltac:(vm_compute; lia))).
Defined.

Section iteration_claims.

Import basic_sequence_matcher matcher_spec.
Import matrix_facts iterator_facts pruning_facts.

Context {B : Type} `{BigramsLaws B}.

(** The bound of the class documentation, in the arithmetic without
    rounding.  Were [2.0 / threshold - 1.0] and the ratio of the
    cardinalities computed exactly, then for a query profile [q] of
    positive size and a threshold [theta] in (0, 1] iterating from
    [begin(q, theta)] to [end()] would report exactly the cells (i, j)
    of the triangle whose profile has a coefficient against [q] of at
    least [theta] and for which neither j nor j + i is a strip index, in
    ascending order of (j, i); whatever the test on the ratio prunes
    would have a coefficient strictly below [theta], and so would every
    longer window at that j where the scan breaks.  This is a statement
    about [Double], not about the doubles of the machine. *)
Lemma unrounded_pruning_sound (eval_right_first : bool) (m : t)
    (toks : list B) (q : B) (theta : Q) :
  holds m toks -> bg_valid q -> 0 < bg_size q -> (0 < theta <= 1)%Q ->
  all_matches eval_right_first q (Fin theta) m =
    Some (spec_matches toks (m_strip_ixs m) q (Fin theta)) /\
  (forall i j,
      (i, j) ∈ spec_matches toks (m_strip_ixs m) q (Fin theta) <->
      (i + j < length toks /\ (j ∉ m_strip_ixs m) /\
       (j + i ∉ m_strip_ixs m) /\
       ge (bg_sorensen_dice_coef (union_at toks i j) q) (Fin theta))) /\
  (forall i j,
      i + j < length toks ->
      yields toks m (run (bigrams eval_right_first i j) m) (union_at toks i j) /\
      yields toks m (run (bigrams_size eval_right_first i j) m)
             (size_sum toks i j)) /\
  (forall i j,
      i + j < length toks ->
      ratio_too_big (sub (div two (Fin theta)) one)
                    (size_sum toks i j) (bg_size q) = true ->
      lt (bg_sorensen_dice_coef (union_at toks i j) q) (Fin theta) /\
      (subseq_short (size_sum toks i j) (bg_size q) = false ->
       forall i',
         i <= i' -> i' + j < length toks ->
         lt (bg_sorensen_dice_coef (union_at toks i' j) q) (Fin theta))).
Proof.
  intros Hm Hq _ [Hth _]. pose proof (wf_valid _ _ Hm) as Htoks.
  split; [|split; [|split]].
  - rewrite (all_matches_pure eval_right_first toks m q (Fin theta) Hm).
    apply pure_all_matches_exact; assumption.
  - intros i j. rewrite elem_of_spec_matches. simpl. split.
    + intros [Hij Hmatch]. split; [exact Hij|].
      apply is_match_spec; assumption.
    + intros [Hij Hmatch]. split; [exact Hij|].
      apply is_match_spec; assumption.
  - intros i j Hij. split.
    + apply profile_at_yields; assumption.
    + apply size_at_yields; assumption.
  - intros i j Hij Hbig. rewrite ratio_threshold_pos in Hbig by exact Hth.
    split; [apply pruned_below; assumption|].
    intros Hshort i' Hi Hij'. apply pruned_below; try assumption.
    eapply prune_mono; [apply size_sum_mono, Hi|eassumption..].
Qed.

(** C6.  Whatever the query and the threshold: the loop of a caller
    from [begin] to [end] ends and meets the matches in strictly
    ascending order of (j, i), j first; from a cell of the triangle
    [operator ++] moves to a position that is strictly greater in that
    order; and the positions met do not depend on what the matrix has
    cached, nor on the order in which the two halves of a cell are
    evaluated. *)
Theorem enumeration_ascending (eval_right_first : bool) (m : t)
    (toks : list B) (q : B) (threshold : double) :
  holds m toks ->
  (exists l,
      all_matches eval_right_first q threshold m = Some l /\
      StronglySorted lex_lt l) /\
  (forall it,
      at_cell toks (m_strip_ixs m) it ->
      exists it',
        yields toks m (incr eval_right_first it m) it' /\
        lex_lt (position it) (position it')) /\
  (forall (eval_right_first' : bool) (m' : t),
      holds m' toks -> m_strip_ixs m' = m_strip_ixs m ->
      all_matches eval_right_first' q threshold m' =
        all_matches eval_right_first q threshold m /\
      option_map fst (begin eval_right_first' q threshold m') =
        option_map fst (begin eval_right_first q threshold m) /\
      forall it,
        option_map fst (incr eval_right_first' it m') =
          option_map fst (incr eval_right_first it m)).
Proof.
  intros Hm. split; [|split].
  - rewrite (all_matches_pure eval_right_first toks m q threshold Hm).
    destruct (pure_all_matches_sorted toks (m_strip_ixs m) q threshold)
      as (l & Hl & Hsorted & _).
    exists l. split; assumption.
  - intros it Hcell. exists (pure_incr toks (m_strip_ixs m) it).
    split; [apply incr_yields, Hm|apply pure_incr_forward, Hcell].
  - intros rtl' m' Hm' Hstrip. split; [|split].
    + rewrite (all_matches_pure rtl' toks m' q threshold Hm').
      rewrite (all_matches_pure eval_right_first toks m q threshold Hm).
      rewrite Hstrip. reflexivity.
    + destruct (begin_yields rtl' toks m' q threshold Hm') as (? & -> & _).
      destruct (begin_yields eval_right_first toks m q threshold Hm)
        as (? & -> & _).
      rewrite Hstrip. reflexivity.
    + intros it.
      destruct (incr_yields rtl' toks m' it Hm') as (? & -> & _).
      destruct (incr_yields eval_right_first toks m it Hm) as (? & -> & _).
      rewrite Hstrip. reflexivity.
Qed.


End iteration_claims.

Section sentinel_claims.

Import basic_sequence_matcher matcher_spec.
Import matrix_facts iterator_facts pruning_facts.

Context {B : Type} `{BigramsLaws B}.

(** The iterators a caller gets from a matcher that holds [toks] with
    the strip set [strip_ixs]: what [begin] returns, and what
    [operator ++] returns for such an iterator that is not at the end. *)
Inductive produced (toks : list B) (strip_ixs : gset nat)
  : iterator (B:=B) -> Prop :=
| produced_begin (eval_right_first : bool) (q : B) (threshold : double)
    (m m' : t) (it : iterator) :
    holds m toks -> m_strip_ixs m = strip_ixs ->
    begin eval_right_first q threshold m = Some (it, m') ->
    produced toks strip_ixs it
| produced_incr (eval_right_first : bool) (m m' : t) (it it' : iterator) :
    produced toks strip_ixs it -> m_j it < length toks ->
    holds m toks -> m_strip_ixs m = strip_ixs ->
    incr eval_right_first it m = Some (it', m') ->
    produced toks strip_ixs it'.

Lemma produced_placed (toks : list B) (strip_ixs : gset nat)
    (it : iterator) :
  produced toks strip_ixs it -> placed toks strip_ixs it.
Proof.
  induction 1 as [rtl q threshold m m' it Hm Hs Hb
                 |rtl m m' it it' _ IH Hj Hm Hs Hi].
  - destruct (begin_yields rtl toks m q threshold Hm) as (m1 & Hb' & _).
    rewrite Hb in Hb'. injection Hb' as -> _. rewrite Hs.
    apply (pure_begin_scan toks strip_ixs q threshold).
  - destruct (incr_yields rtl toks m it Hm) as (m1 & Hi' & _).
    rewrite Hi in Hi'. injection Hi' as -> _. rewrite Hs.
    destruct IH as [[_ Hend]|Hcell]; [lia|].
    apply (pure_incr_scan toks strip_ixs it Hcell).
Qed.

(** C8, as the code has it.  For a matcher with N tokens: [end()]
    returns the sentinel at the position (i = 0, j = N); two iterators
    are equal exactly when their pairs (i, j) are; an iterator that
    [begin] or [operator ++] on an iterator before the end returned has
    j <= N and equals the sentinel exactly when j >= N, its position
    being (0, N) then; and the sentinel equals an iterator at (i, N)
    only for i = 0. *)
Theorem end_equality (eval_right_first : bool) (m : t) (toks : list B) :
  holds m toks ->
  size m = length toks /\
  exists e,
    yields toks m (end_ eval_right_first m) e /\
    position e = (0, length toks) /\
    (forall a b : iterator (B:=B),
        iter_eq a b = true <-> position a = position b) /\
    (forall it,
        produced toks (m_strip_ixs m) it ->
        m_j it <= length toks /\
        (length toks <= m_j it <-> iter_eq it e = true) /\
        (length toks <= m_j it -> position it = (0, length toks))) /\
    (forall it,
        m_j it = length toks -> (iter_eq e it = true <-> m_i it = 0)).
Proof.
  intros Hm. split; [apply holds_size, Hm|].
  exists (pure_end toks (m_strip_ixs m)).
  split; [apply end_yields, Hm|].
  split; [rewrite pure_end_eq; reflexivity|].
  split; [|split].
  - intros a b. unfold iter_eq, position.
    rewrite andb_true_iff, !Nat.eqb_eq. split.
    + intros [-> ->]. reflexivity.
    + intros [= -> ->]. split; reflexivity.
  - intros it Hit. apply produced_placed in Hit.
    destruct (placed_end toks (m_strip_ixs m) it Hit) as [Hle Hiff].
    split; [exact Hle|]. split; [exact Hiff|].
    intros Hge. destruct Hit as [[Hi Hj]|[Hij _]]; [|lia].
    unfold position. rewrite Hi, Hj. reflexivity.
  - intros it Hj. rewrite pure_end_eq. unfold iter_eq. simpl.
    rewrite Hj, Nat.eqb_refl, andb_true_r.
    destruct (m_i it); simpl; split; congruence.
Qed.

(** C7, as the code has it.  The constructor of the iterator validates
    nothing: it accepts every threshold, those at or below 0 included.
    A threshold above 1 yields no match: [begin] is at the end and the
    loop of a caller collects nothing. *)
Theorem ctor_accepts_every_threshold (eval_right_first : bool) (m : t)
    (toks : list B) (q : B) (threshold : double) :
  holds m toks ->
  exists it,
    yields toks m (iterator_ctor eval_right_first q threshold 0 0 m) it /\
    forall theta,
      threshold = Fin theta -> (1 < theta)%Q -> bg_valid q ->
      at_end toks it /\
      all_matches eval_right_first q threshold m = Some [].
Proof.
  intros Hm. pose proof (wf_valid _ _ Hm) as Htoks.
  exists (pure_begin toks (m_strip_ixs m) q threshold).
  split; [apply begin_yields, Hm|].
  intros theta -> Hth Hq.
  assert (Hpos : (0 < theta)%Q) by lra.
  assert (Hno : forall i j, i + j < length toks ->
            is_match toks (m_strip_ixs m) q (Fin theta) i j = false).
  { intros i j Hij. apply above_one_no_match; assumption. }
  split; [apply pure_begin_at_end; assumption|].
  rewrite (all_matches_pure eval_right_first toks m q (Fin theta) Hm).
  rewrite pure_all_matches_exact by assumption.
  rewrite spec_matches_nil by exact Hno. reflexivity.
Qed.

End sentinel_claims.

Section profile_claims.

Import basic_bigrams_facts.

(** In each representation the coefficient lies in [0, 1] and is 0 when
    either profile is empty; for the counted representation, on profiles
    that satisfy its invariant. *)
Lemma sorensen_dice_coef_range :
  (forall p q : basic_bigrams.t,
      valid p -> valid q ->
      in_unit (basic_bigrams.sorensen_dice_coef p q) /\
      (basic_bigrams.size p = 0 \/ basic_bigrams.size q = 0 ->
       basic_bigrams.sorensen_dice_coef p q = zero)) /\
  (forall p q : basic_bigram_multiset.t,
      in_unit (basic_bigram_multiset.sorensen_dice_coef p q) /\
      (basic_bigram_multiset.size p = 0 \/ basic_bigram_multiset.size q = 0 ->
       basic_bigram_multiset.sorensen_dice_coef p q = zero)).
Proof.
  split.
  - intros p q Hp Hq.
    pose proof (basic_bigrams_union.intersect_size_le_l p q Hp) as Hl.
    pose proof (basic_bigrams_union.intersect_size_le_r p q Hq) as Hr.
    rewrite basic_bigrams_union.sorensen_dice_coef_formula.
    split; [apply sdc_formula_in_unit; assumption|].
    intros Hz. replace (basic_bigrams.intersect_size p q) with 0 by lia.
    reflexivity.
  - intros p q.
    pose proof (basic_bigram_multiset_facts.ms_intersect_size_le_l p q) as Hl.
    pose proof (basic_bigram_multiset_facts.ms_intersect_size_le_r p q) as Hr.
    rewrite basic_bigram_multiset_facts.ms_sorensen_dice_coef_formula.
    split; [apply sdc_formula_in_unit; assumption|].
    intros Hz.
    replace (basic_bigram_multiset.intersect_size p q) with 0 by lia.
    reflexivity.
Qed.

(** The union of two profiles held by two distinct objects has the
    size size(P) + size(Q): [operator +=], [operator +] and the variadic
    [unite], in the counted representation and in both multiset
    representations. *)
Lemma union_size :
  (forall p q : basic_bigrams.t,
      valid p -> valid q ->
      basic_bigrams.size (basic_bigrams.plus_assign p q) =
        basic_bigrams.size p + basic_bigrams.size q /\
      basic_bigrams.size (basic_bigrams.plus p q) =
        basic_bigrams.size p + basic_bigrams.size q /\
      forall more,
        Forall valid more ->
        basic_bigrams.size (basic_bigrams.unite p (q :: more)) =
          basic_bigrams.size p + basic_bigrams.size q +
          sum_list (map basic_bigrams.size more)) /\
  (forall p q : bigram_multiset.t,
      bigram_multiset.size (bigram_multiset.plus_assign p q) =
        bigram_multiset.size p + bigram_multiset.size q /\
      bigram_multiset.size (bigram_multiset.plus p q) =
        bigram_multiset.size p + bigram_multiset.size q /\
      forall more,
        bigram_multiset.size (bigram_multiset.unite p (q :: more)) =
          bigram_multiset.size p + bigram_multiset.size q +
          sum_list (map bigram_multiset.size more)) /\
  (forall (h : hash_layout) (p q : unordered_bigram_multiset.t),
      unordered_bigram_multiset.size
        (unordered_bigram_multiset.plus_assign h p q) =
        unordered_bigram_multiset.size p + unordered_bigram_multiset.size q /\
      unordered_bigram_multiset.size (unordered_bigram_multiset.plus h p q) =
        unordered_bigram_multiset.size p + unordered_bigram_multiset.size q /\
      forall more,
        unordered_bigram_multiset.size
          (unordered_bigram_multiset.unite h p (q :: more)) =
          unordered_bigram_multiset.size p +
          unordered_bigram_multiset.size q +
          sum_list (map unordered_bigram_multiset.size more)).
Proof.
  split; [|split].
  - intros p q Hp Hq. split; [|split].
    + apply basic_bigrams_union.plus_assign_size, Hq.
    + apply basic_bigrams_union.plus_size, Hp.
    + intros more Hmore.
      rewrite basic_bigrams_union.unite_size; [cbn [map sum_list_with]; apply Nat.add_assoc|exact Hp|].
      constructor; assumption.
  - intros p q. split; [|split].
    + apply basic_bigram_multiset_facts.ms_plus_assign_size.
      apply basic_bigram_multiset_facts.multiset_insert_perm.
    + apply basic_bigram_multiset_facts.ms_plus_size.
      apply basic_bigram_multiset_facts.multiset_insert_perm.
    + intros more. unfold bigram_multiset.unite.
      rewrite basic_bigram_multiset_facts.ms_unite_size;
        [cbn [map sum_list_with]; apply Nat.add_assoc|].
      apply basic_bigram_multiset_facts.multiset_insert_perm.
  - intros h p q. split; [|split].
    + apply basic_bigram_multiset_facts.ms_plus_assign_size.
      apply basic_bigram_multiset_facts.unordered_insert_perm.
    + apply basic_bigram_multiset_facts.ms_plus_size.
      apply basic_bigram_multiset_facts.unordered_insert_perm.
    + intros more. unfold unordered_bigram_multiset.unite.
      rewrite basic_bigram_multiset_facts.ms_unite_size;
        [cbn [map sum_list_with]; apply Nat.add_assoc|].
      apply basic_bigram_multiset_facts.unordered_insert_perm.
Qed.

(** C5.  The profile constructed from a string [s] has the size
    max(0, |s| - 1).  It holds exactly the bigrams (s[k], s[k+1]) for k
    in [0, |s| - 2], each as often as it occurs among them, and a string
    shorter than 2 gives the empty profile; so in the counted
    representation and in both multiset representations. *)
Theorem of_string_bigrams (s : string_t) (h : hash_layout) :
  bigram_vec s =
    map (fun k => (nth k s 0%Z, nth (k + 1) s 0%Z)) (seq 0 (length s - 1)) /\
  (Z.of_nat (basic_bigrams.size (basic_bigrams.of_string s)) =
     Z.max 0 (Z.of_nat (length s) - 1) /\
   (forall b,
       basic_bigrams.count b (basic_bigrams.of_string s) =
         occurrences b (bigram_vec s)) /\
   (length s < 2 -> basic_bigrams.of_string s = basic_bigrams.empty)) /\
  (Z.of_nat (bigram_multiset.size (bigram_multiset.of_string s)) =
     Z.max 0 (Z.of_nat (length s) - 1) /\
   (forall b,
       bigram_multiset.count b (bigram_multiset.of_string s) =
         occurrences b (bigram_vec s)) /\
   (length s < 2 -> bigram_multiset.of_string s = bigram_multiset.empty)) /\
  (Z.of_nat (unordered_bigram_multiset.size
               (unordered_bigram_multiset.of_string h s)) =
     Z.max 0 (Z.of_nat (length s) - 1) /\
   (forall b,
       unordered_bigram_multiset.count b
         (unordered_bigram_multiset.of_string h s) =
         occurrences b (bigram_vec s)) /\
   (length s < 2 ->
    unordered_bigram_multiset.of_string h s = unordered_bigram_multiset.empty)).
Proof.
  split; [reflexivity|]. split; [|split].
  - split; [|split].
    + rewrite of_string_size. lia.
    + intros b. apply of_string_count.
    + apply of_string_short.
  - split; [|split].
    + unfold bigram_multiset.size, bigram_multiset.of_string.
      rewrite basic_bigram_multiset_facts.ms_of_string_size; [lia|].
      apply basic_bigram_multiset_facts.multiset_insert_perm.
    + intros b. apply basic_bigram_multiset_facts.ms_of_string_count.
      apply basic_bigram_multiset_facts.multiset_insert_perm.
    + apply basic_bigram_multiset_facts.ms_of_string_short.
  - split; [|split].
    + unfold unordered_bigram_multiset.size,
        unordered_bigram_multiset.of_string.
      rewrite basic_bigram_multiset_facts.ms_of_string_size; [lia|].
      apply basic_bigram_multiset_facts.unordered_insert_perm.
    + intros b. apply basic_bigram_multiset_facts.ms_of_string_count.
      apply basic_bigram_multiset_facts.unordered_insert_perm.
    + apply basic_bigram_multiset_facts.ms_of_string_short.
Qed.

(** C9, at the input where the code breaks it.  [b += b] for
    [b = bigrams("ab")]: the one count is doubled to 2, but [m_size]
    grows by the doubled count and ends at 3.  The profile is reachable
    by [operator +=], and its [m_size] is not the sum of its counts. *)
Theorem self_union_breaks_invariant :
  let b := basic_bigrams.of_string (str "ab") in
  let b' := basic_bigrams.mk [((97, 98)%Z, 2)] 3 in
  valid b /\
  basic_bigrams.plus_assign_self 3 b = Some b' /\
  reachable b' /\
  basic_bigrams.size b' = 3 /\
  basic_bigrams.sum_counts (basic_bigrams.m_impl b') = 2 /\
  ~ valid b'.
Proof.
  cbv zeta. split; [apply of_string_valid|].
  split; [vm_compute; reflexivity|].
  split.
  { eapply (reachable_self 3 (basic_bigrams.of_string (str "ab"))).
    - apply reachable_built, built_of_string.
    - vm_compute. reflexivity. }
  split; [reflexivity|]. split; [reflexivity|].
  intros [_ _ Hsize]. simpl in Hsize. discriminate.
Qed.

End profile_claims.

(** * The claims at concrete inputs *)

Lemma enumeration_ascending_witness :
  matcher_spec.holds unit_test.text unit_test.tokens.*1 /\
  exists l,
    matcher_spec.all_matches false unit_test.query (Fin (7 # 10)) unit_test.text
      = Some l /\
    StronglySorted matcher_spec.lex_lt l.
Proof.
  split; [exact unit_test.text_holds|].
  exact (proj1 (enumeration_ascending false unit_test.text
                  unit_test.tokens.*1 unit_test.query (Fin (7 # 10))
                  unit_test.text_holds)).
Defined.


Lemma end_equality_witness :
  matcher_spec.holds unit_test.text unit_test.tokens.*1 /\
  basic_sequence_matcher.size unit_test.text = 9.
Proof.
  split; [exact unit_test.text_holds|].
  exact (proj1 (end_equality false unit_test.text unit_test.tokens.*1
                  unit_test.text_holds)).
Defined.

Lemma ctor_accepts_every_threshold_witness :
  matcher_spec.holds unit_test.text unit_test.tokens.*1 /\
  exists it,
    matcher_spec.yields unit_test.tokens.*1 unit_test.text
      (basic_sequence_matcher.iterator_ctor false unit_test.query
         (Fin (3 # 2)) 0 0 unit_test.text) it /\
    matcher_spec.at_end unit_test.tokens.*1 it.
Proof.
  split; [exact unit_test.text_holds|].
  destruct (ctor_accepts_every_threshold false unit_test.text
              unit_test.tokens.*1 unit_test.query (Fin (3 # 2))
              unit_test.text_holds) as (it & Hit & Hhigh).
  exists it. split; [exact Hit|].
  exact (proj1 (Hhigh (3 # 2) eq_refl eq_refl unit_test.query_valid)).
Defined.

(** The constructor is given the threshold 0 and returns an iterator: on
    the text of the unit test it reports the first token as a match.  The
    unit test itself calls [begin(bigrams(), 0.0)]. *)
Lemma ctor_accepts_zero_threshold :
  (exists it m',
      basic_sequence_matcher.iterator_ctor false unit_test.query (Fin 0) 0 0
        unit_test.text = Some (it, m') /\
      matcher_spec.position it = (0, 0)) /\
  ~ (forall theta,
        (theta <= 0)%Q ->
        basic_sequence_matcher.iterator_ctor false unit_test.query (Fin theta)
          0 0 unit_test.text = None).
Proof.
  assert (Hzero : exists it m',
    basic_sequence_matcher.iterator_ctor false unit_test.query (Fin 0) 0 0
      unit_test.text = Some (it, m') /\
    matcher_spec.position it = (0, 0)).
  { eexists _, _. split; [vm_compute; reflexivity|reflexivity]. }
  split; [exact Hzero|].
  intros Hreject. destruct Hzero as (it & m' & Hctor & _).
  rewrite (Hreject 0%Q) in Hctor; [discriminate|]. discriminate.
Qed.

(** [++] on the sentinel of the text of the unit test, N = 9: the
    iterator is at (1, 9); its column is not below N, yet it is not equal
    to the sentinel. *)
Lemma incremented_end_not_end_equal :
  exists e m1 it m2,
    basic_sequence_matcher.end_ false unit_test.text = Some (e, m1) /\
    basic_sequence_matcher.incr false e m1 = Some (it, m2) /\
    basic_sequence_matcher.size unit_test.text = 9 /\
    matcher_spec.position it = (1, 9) /\
    basic_sequence_matcher.size unit_test.text
      <= basic_sequence_matcher.m_j it /\
    basic_sequence_matcher.iter_eq it e = false /\
    basic_sequence_matcher.iter_eq e it = false.
Proof.
  eexists _, _, _, _.
  split; [vm_compute; reflexivity|].
  split; [vm_compute; reflexivity|].
  split; [reflexivity|]. split; [reflexivity|].
  split; [vm_compute; lia|]. split; reflexivity.
Qed.

(** * Further properties of the code *)

(** ** The counted representation, exactly *)

Module basic_bigrams_exact.
Import basic_bigrams basic_bigrams_facts basic_bigrams_union.

#[local] Instance key_lt_transitive : Transitive key_lt := key_lt_trans.

(** *** Equal counts, equal representation *)

Lemma count_in_head (x : bigram_cnt_t) (l : list bigram_cnt_t) :
  Sorted key_lt (x :: l) -> count_in x.1 (x :: l) = x.2.
Proof.
  intros Hs. apply Sorted_inv in Hs as [Hl Hx]. simpl.
  rewrite bigram_eqb_refl, (count_in_below x l Hl Hx). lia.
Qed.

Lemma count_in_cons_ne (b : bigram_t) (x : bigram_cnt_t)
    (l : list bigram_cnt_t) :
  x.1 <> b -> count_in b (x :: l) = count_in b l.
Proof.
  intros Hne. simpl. destruct (bigram_eqb x.1 b) eqn:Heq; [|reflexivity].
  apply bigram_eqb_eq in Heq. contradiction.
Qed.

Lemma sorted_counts_eq (l1 : list bigram_cnt_t) :
  forall l2,
    Sorted key_lt l1 -> Sorted key_lt l2 ->
    Forall (fun bc => 1 <= bc.2) l1 -> Forall (fun bc => 1 <= bc.2) l2 ->
    (forall b, count_in b l1 = count_in b l2) -> l1 = l2.
Proof.
  induction l1 as [|x l1 IH]; intros [|y l2] Hs1 Hs2 Hp1 Hp2 Hc.
  - reflexivity.
  - specialize (Hc y.1). rewrite (count_in_head y l2 Hs2) in Hc.
    apply Forall_cons in Hp2 as [Hy _]. simpl in Hc. lia.
  - specialize (Hc x.1). rewrite (count_in_head x l1 Hs1) in Hc.
    apply Forall_cons in Hp1 as [Hx _]. simpl in Hc. lia.
  - apply Forall_cons in Hp1 as [Hx Hp1], Hp2 as [Hy Hp2].
    assert (Hkey : x.1 = y.1).
    { destruct (bigram_ltb x.1 y.1) eqn:Hxy.
      - pose proof (Hc x.1) as Hcx. rewrite (count_in_head x l1 Hs1) in Hcx.
        rewrite (count_in_below x (y :: l2) Hs2) in Hcx; [lia|].
        constructor. apply key_lt_ltb. exact Hxy.
      - destruct (bigram_ltb y.1 x.1) eqn:Hyx.
        + pose proof (Hc y.1) as Hcy. rewrite (count_in_head y l2 Hs2) in Hcy.
          rewrite (count_in_below y (x :: l1) Hs1) in Hcy; [lia|].
          constructor. apply key_lt_ltb. exact Hyx.
        + apply bigram_trichotomy; assumption. }
    assert (Hcnt : x.2 = y.2).
    { pose proof (Hc x.1) as Hcx. rewrite (count_in_head x l1 Hs1) in Hcx.
      rewrite Hkey, (count_in_head y l2 Hs2) in Hcx.
      exact Hcx. }
    assert (Hxy : x = y) by (destruct x, y; simpl in *; congruence).
    subst y. f_equal.
    apply Sorted_inv in Hs1 as [Hs1 _], Hs2 as [Hs2 _].
    apply IH; try assumption.
    intros b. specialize (Hc b). simpl in Hc.
    destruct (bigram_eqb x.1 b); lia.
Qed.

Lemma valid_counts_eq (p q : t) :
  valid p -> valid q -> (forall b, count b p = count b q) -> p = q.
Proof.
  intros [Hps Hpc Hpz] [Hqs Hqc Hqz] Hc.
  assert (Himpl : m_impl p = m_impl q) by (apply sorted_counts_eq; assumption).
  destruct p as [lp sp], q as [lq sq]. simpl in *. subst. reflexivity.
Qed.


(** *** What [intersect_size] counts *)

(** For every entry of the first list, the smaller of its count and the
    count of its bigram in the second. *)
Definition common (l1 l2 : list bigram_cnt_t) : nat :=
  sum_list_with (fun bc => Nat.min bc.2 (count_in bc.1 l2)) l1.

Lemma common_nil_r (l1 : list bigram_cnt_t) : common l1 [] = 0.
Proof.
  unfold common. induction l1 as [|x l1 IH]; [reflexivity|].
  cbn [sum_list_with]. rewrite IH. simpl. lia.
Qed.

Lemma common_cons_r (y : bigram_cnt_t) (l1 l2 : list bigram_cnt_t) :
  Forall (fun bc => bc.1 <> y.1) l1 -> common l1 (y :: l2) = common l1 l2.
Proof.
  unfold common. induction 1 as [|x l1 Hx _ IH]; [reflexivity|].
  cbn [sum_list_with]. rewrite IH. simpl.
  destruct (bigram_eqb y.1 x.1) eqn:Heq; [|reflexivity].
  apply bigram_eqb_eq in Heq. congruence.
Qed.

Lemma sorted_above (x : bigram_cnt_t) (l : list bigram_cnt_t) :
  Sorted key_lt (x :: l) -> Forall (key_lt x) l.
Proof.
  intros Hs. apply Sorted_StronglySorted in Hs; [|exact _].
  apply StronglySorted_inv in Hs as [_ Hall]. exact Hall.
Qed.

Lemma key_lt_neq (x y : bigram_cnt_t) : key_lt x y -> y.1 <> x.1.
Proof.
  intros Hlt Heq. apply key_lt_ltb in Hlt. rewrite Heq in Hlt.
  rewrite bigram_ltb_irrefl in Hlt. discriminate.
Qed.

Lemma intersect_walk_common (l1 l2 : list bigram_cnt_t) :
  forall n (Hs1 : Sorted key_lt l1) (Hs2 : Sorted key_lt l2),
    intersect_walk l1 l2 n = n + common l1 l2.
Proof.
  walk_induction l1 l2.
  - unfold common. simpl. lia.
  - rewrite common_nil_r. lia.
  - rewrite IH1 by (try assumption; eapply Sorted_inv, Hs1).
    unfold common at 2. cbn [sum_list_with].
    rewrite (count_in_below bg1 (bg2 :: l2) Hs2);
      [fold (common l1 (bg2 :: l2)); lia|].
    constructor. apply key_lt_ltb. exact Hlt.
  - apply bigram_eqb_eq in Heq.
    rewrite IH2 by (eapply Sorted_inv; eassumption).
    unfold common at 2. cbn [sum_list_with]. fold (common l1 (bg2 :: l2)).
    rewrite Heq, (count_in_head bg2 l2 Hs2).
    rewrite common_cons_r; [lia|].
    eapply Forall_impl; [apply (sorted_above bg1 l1 Hs1)|].
    intros z Hz. rewrite <- Heq. apply key_lt_neq, Hz.
  - assert (Hgt : key_lt bg2 bg1).
    { apply key_lt_ltb.
      destruct (bigram_ltb bg2.1 bg1.1) eqn:Hgt; [reflexivity|].
      rewrite (bigram_trichotomy _ _ Hlt Hgt), bigram_eqb_refl in Heq.
      discriminate. }
    rewrite IH3 by (try assumption; eapply Sorted_inv, Hs2).
    rewrite (common_cons_r bg2 (bg1 :: l1) l2); [reflexivity|].
    constructor; [apply key_lt_neq, Hgt|].
    eapply Forall_impl; [apply (sorted_above bg1 l1 Hs1)|].
    intros z Hz. apply key_lt_neq. etrans; eassumption.
Qed.

(** The walk is the same from either side. *)
Lemma intersect_walk_sym (l1 l2 : list bigram_cnt_t) :
  forall n, intersect_walk l1 l2 n = intersect_walk l2 l1 n.
Proof.
  walk_induction l1 l2.
  - rewrite intersect_walk_nil_r. reflexivity.
  - reflexivity.
  - rewrite (bigram_ltb_asym _ _ Hlt), (bigram_ltb_neq' _ _ Hlt). apply IH1.
  - apply bigram_eqb_eq in Heq.
    rewrite <- Heq, bigram_ltb_irrefl, bigram_eqb_refl, Nat.min_comm.
    apply IH2.
  - destruct (bigram_ltb bg2.1 bg1.1) eqn:Hgt; [apply IH3|].
    rewrite (bigram_trichotomy _ _ Hlt Hgt), bigram_eqb_refl in Heq.
    discriminate.
Qed.

(** A list walked against itself matches at every entry. *)
Lemma intersect_walk_self (l : list bigram_cnt_t) :
  forall n, intersect_walk l l n = n + sum_counts l.
Proof.
  induction l as [|x l IH]; intros n; [simpl; lia|].
  rewrite intersect_walk_cons, bigram_ltb_irrefl, bigram_eqb_refl, IH.
  rewrite sum_counts_cons. lia.
Qed.


Lemma common_le (l1 l2 : list bigram_cnt_t) : common l1 l2 <= sum_counts l1.
Proof.
  unfold common. induction l1 as [|x l1 IH]; [reflexivity|].
  cbn [sum_list_with]. rewrite sum_counts_cons. lia.
Qed.

Lemma common_full (l1 l2 : list bigram_cnt_t) :
  common l1 l2 = sum_counts l1 ->
  Forall (fun bc => bc.2 <= count_in bc.1 l2) l1.
Proof.
  induction l1 as [|x l1 IH]; [constructor|].
  unfold common. cbn [sum_list_with]. fold (common l1 l2).
  rewrite sum_counts_cons. intros Heq.
  pose proof (common_le l1 l2) as Hle.
  constructor; [lia|]. apply IH. lia.
Qed.

(** In a strictly increasing list a bigram has the count of its one
    entry. *)
Lemma count_in_sorted_le (f : bigram_t -> nat) (b : bigram_t)
    (l : list bigram_cnt_t) :
  Sorted key_lt l -> Forall (fun bc => bc.2 <= f bc.1) l ->
  count_in b l <= f b.
Proof.
  induction l as [|x l IH]; intros Hs Hall; [simpl; lia|].
  apply Forall_cons in Hall as [Hx Hall].
  destruct (bigram_eqb x.1 b) eqn:Heq.
  - apply bigram_eqb_eq in Heq. subst b.
    rewrite (count_in_head x l Hs). exact Hx.
  - simpl. rewrite Heq. apply IH; [eapply Sorted_inv, Hs|exact Hall].
Qed.

Lemma intersect_size_common (p q : t) :
  valid p -> valid q -> intersect_size p q = common (m_impl p) (m_impl q).
Proof.
  intros Hp Hq. unfold intersect_size.
  rewrite intersect_walk_common by (apply valid_sorted; assumption).
  reflexivity.
Qed.

Lemma intersect_size_sym (p q : t) : intersect_size p q = intersect_size q p.
Proof. apply intersect_walk_sym. Qed.

Lemma intersect_size_self (p : t) : valid p -> intersect_size p p = size p.
Proof.
  intros Hp. unfold intersect_size, size.
  rewrite intersect_walk_self, (valid_size p Hp). reflexivity.
Qed.

(** A full intersection: the two profiles hold the same bigrams. *)
Lemma intersect_size_full (p q : t) :
  valid p -> valid q ->
  intersect_size p q = size p -> intersect_size p q = size q -> p = q.
Proof.
  intros Hp Hq Hfp Hfq. apply valid_counts_eq; try assumption.
  intros b. apply Nat.le_antisymm.
  - apply (count_in_sorted_le (fun b => count b q));
      [apply valid_sorted, Hp|].
    apply common_full. rewrite <- intersect_size_common by assumption.
    rewrite Hfp. apply valid_size, Hp.
  - apply (count_in_sorted_le (fun b => count b p));
      [apply valid_sorted, Hq|].
    apply common_full. rewrite <- intersect_size_common by assumption.
    rewrite intersect_size_sym, Hfq. apply valid_size, Hq.
Qed.

(** *** [*this += *this] in general *)

(** An entry with its count added to itself. *)
Definition doubled (bc : bigram_cnt_t) : bigram_cnt_t := (bc.1, bc.2 + bc.2).

Lemma doubled_step (l : list bigram_cnt_t) (k : nat) (x : bigram_cnt_t) :
  l !! k = Some x ->
  <[k := doubled x]> (map doubled (take k l) ++ drop k l) =
    map doubled (take (S k) l) ++ drop (S k) l.
Proof.
  intros Hx. pose proof (lookup_lt_Some _ _ _ Hx) as Hk.
  rewrite insert_app_r_alt by (rewrite length_map, length_take; lia).
  rewrite length_map, length_take, Nat.min_l, Nat.sub_diag by lia.
  rewrite (drop_S _ _ _ Hx). simpl.
  rewrite (take_S_r _ _ _ Hx), map_app, <- app_assoc. reflexivity.
Qed.

Lemma doubled_lookup (l : list bigram_cnt_t) (k : nat) :
  k <= length l -> (map doubled (take k l) ++ drop k l) !! k = l !! k.
Proof.
  intros Hk. rewrite lookup_app_r by (rewrite length_map, length_take; lia).
  rewrite length_map, length_take, Nat.min_l, Nat.sub_diag by lia.
  rewrite lookup_drop. f_equal. lia.
Qed.

Lemma self_merge_doubles (l : list bigram_cnt_t) (fuel : nat) :
  forall k sz,
    k <= length l -> length l - k + 2 <= fuel ->
    self_merge fuel (map doubled (take k l) ++ drop k l) k k sz =
      Some (map doubled l, sz + 2 * sum_counts (drop k l)).
Proof.
  induction fuel as [|fuel IH]; intros k sz Hk Hfuel; [lia|].
  cbn [self_merge]. rewrite (doubled_lookup l k Hk).
  destruct (l !! k) as [x|] eqn:Hx.
  - pose proof (lookup_lt_Some _ _ _ Hx) as Hlt.
    rewrite cmp_refl. cbn [Z.ltb Z.eqb Z.compare].
    change (x.1, x.2 + x.2) with (doubled x).
    rewrite list_lookup_insert_eq
      by (rewrite length_app, length_map, length_take, length_drop; lia).
    transitivity (Some (map doubled l,
                        sz + (doubled x).2 + 2 * sum_counts (drop (S k) l))).
    + rewrite <- (IH (S k)) by lia. f_equal. apply doubled_step, Hx.
    + rewrite (drop_S _ _ _ Hx), sum_counts_cons. simpl. do 2 f_equal. lia.
  - apply lookup_ge_None in Hx.
    destruct fuel as [|fuel]; [lia|]. cbn [self_trailing].
    rewrite (doubled_lookup l k Hk), (proj2 (lookup_ge_None l k) Hx).
    rewrite take_ge, drop_ge by lia. simpl. rewrite app_nil_r.
    do 2 f_equal. lia.
Qed.

Lemma plus_assign_self_doubles (fuel : nat) (p : t) :
  size p <> 0 -> length (m_impl p) + 2 <= fuel ->
  plus_assign_self fuel p =
    Some (mk (map doubled (m_impl p))
             (m_size p + 2 * sum_counts (m_impl p))).
Proof.
  intros Hne Hfuel. unfold plus_assign_self.
  destruct (Nat.eqb_spec (size p) 0); [contradiction|].
  pose proof (self_merge_doubles (m_impl p) fuel 0 (m_size p)) as Hrun.
  rewrite take_0, drop_0 in Hrun. simpl in Hrun.
  rewrite Hrun by lia. reflexivity.
Qed.

Lemma sum_counts_doubled (l : list bigram_cnt_t) :
  sum_counts (map doubled l) = 2 * sum_counts l.
Proof.
  induction l as [|x l IH]; [reflexivity|].
  cbn [map]. rewrite !sum_counts_cons, IH. simpl. lia.
Qed.

End basic_bigrams_exact.

(** ** The profiles as multisets of bigrams *)

Module bag_facts.

Ltac bag_multiplicities :=
  repeat first
    [ rewrite multiplicity_intersection
    | rewrite multiplicity_disj_union
    | rewrite multiplicity_scalar_mul
    | rewrite multiplicity_singleton ];
  repeat case_decide; subst; try lia.

Lemma bag_drop_absent (x : bigram_t) (A Y : gmultiset bigram_t) :
  multiplicity x Y = 0 -> ({[+ x +]} ⊎ A) ∩ Y = A ∩ Y.
Proof. intros Hx. apply gmultiset_eq. intros y. bag_multiplicities. Qed.

Lemma bag_drop_absent_r (x : bigram_t) (A Y : gmultiset bigram_t) :
  multiplicity x A = 0 -> A ∩ ({[+ x +]} ⊎ Y) = A ∩ Y.
Proof. intros Hx. apply gmultiset_eq. intros y. bag_multiplicities. Qed.

Lemma bag_common_head (x : bigram_t) (A Y : gmultiset bigram_t) :
  ({[+ x +]} ⊎ A) ∩ ({[+ x +]} ⊎ Y) = {[+ x +]} ⊎ (A ∩ Y).
Proof. apply gmultiset_eq. intros y. bag_multiplicities. Qed.

Lemma bag_grow_l (x : bigram_t) (A Y : gmultiset bigram_t) :
  A ∩ Y ⊆ ({[+ x +]} ⊎ A) ∩ Y.
Proof. intros y. bag_multiplicities. Qed.

Lemma bag_grow_r (x : bigram_t) (A Y : gmultiset bigram_t) :
  A ∩ Y ⊆ A ∩ ({[+ x +]} ⊎ Y).
Proof. intros y. bag_multiplicities. Qed.

(** All copies of one bigram at once. *)
Lemma bag_common_copies (b : bigram_t) (c : nat) (A Y : gmultiset bigram_t) :
  multiplicity b A = 0 ->
  (c *: {[+ b +]} ⊎ A) ∩ Y =
    (Nat.min c (multiplicity b Y)) *: {[+ b +]} ⊎ (A ∩ Y).
Proof. intros Hb. apply gmultiset_eq. intros y. bag_multiplicities. Qed.

Lemma multiplicity_list (b : bigram_t) (l : list bigram_t) :
  multiplicity b (list_to_set_disj l : gmultiset bigram_t) = occurrences b l.
Proof.
  induction l as [|x l IH]; [reflexivity|].
  rewrite list_to_set_disj_cons, multiplicity_disj_union, IH.
  rewrite multiplicity_singleton. simpl.
  destruct (bigram_eqb x b) eqn:Heq.
  - apply bigram_eqb_eq in Heq. subst. rewrite decide_True by reflexivity. lia.
  - rewrite decide_False; [lia|]. intros ->.
    rewrite bigram_eqb_refl in Heq. discriminate.
Qed.

Lemma size_list (l : list bigram_t) :
  size (list_to_set_disj l : gmultiset bigram_t) = length l.
Proof.
  induction l as [|x l IH]; [reflexivity|].
  rewrite list_to_set_disj_cons, gmultiset_size_disj_union,
    gmultiset_size_singleton, IH. reflexivity.
Qed.


(** *** The counted representation *)

(** The multiset that a list of counted bigrams stands for. *)
Definition bag_in (l : list basic_bigrams.bigram_cnt_t) : gmultiset bigram_t :=
  foldr (fun bc acc => bc.2 *: {[+ bc.1 +]} ⊎ acc) ∅ l.

(** The multisets that the profiles stand for. *)
Definition counted_bag (p : basic_bigrams.t) : gmultiset bigram_t :=
  bag_in (basic_bigrams.m_impl p).

Definition list_bag (p : basic_bigram_multiset.t) : gmultiset bigram_t :=
  list_to_set_disj (basic_bigram_multiset.m_impl p).

Import basic_bigrams basic_bigrams_facts basic_bigrams_union.
Import basic_bigrams_exact.

#[local] Instance key_lt_transitive' : Transitive key_lt := key_lt_trans.

Lemma multiplicity_bag_in (b : bigram_t) (l : list bigram_cnt_t) :
  multiplicity b (bag_in l) = count_in b l.
Proof.
  induction l as [|x l IH]; [reflexivity|].
  cbn [bag_in foldr]. fold (bag_in l). bag_multiplicities; rewrite IH; simpl.
  - rewrite bigram_eqb_refl. lia.
  - destruct (bigram_eqb x.1 b) eqn:Heq; [|lia].
    apply bigram_eqb_eq in Heq. congruence.
Qed.

Lemma size_bag_in (l : list bigram_cnt_t) :
  base.size (bag_in l) = sum_counts l.
Proof.
  induction l as [|x l IH]; [reflexivity|].
  cbn [bag_in foldr]. fold (bag_in l).
  rewrite gmultiset_size_disj_union, gmultiset_size_scalar_mul,
    gmultiset_size_singleton, IH, sum_counts_cons. lia.
Qed.

Lemma size_bag_in_common (l1 : list bigram_cnt_t) (Y : gmultiset bigram_t) :
  Sorted key_lt l1 ->
  base.size (bag_in l1 ∩ Y) =
    sum_list_with (fun bc => Nat.min bc.2 (multiplicity bc.1 Y)) l1.
Proof.
  induction l1 as [|x l1 IH]; intros Hs.
  - cbn [bag_in foldr sum_list_with].
    replace (∅ ∩ Y) with (∅ : gmultiset bigram_t); [reflexivity|].
    apply gmultiset_eq. intros y. rewrite multiplicity_intersection.
    rewrite multiplicity_empty. lia.
  - cbn [bag_in foldr sum_list_with]. fold (bag_in l1).
    apply Sorted_inv in Hs as [Hs Hx].
    rewrite bag_common_copies
      by (rewrite multiplicity_bag_in; apply count_in_below; assumption).
    rewrite gmultiset_size_disj_union, gmultiset_size_scalar_mul,
      gmultiset_size_singleton, IH by exact Hs. lia.
Qed.

Lemma common_bag (l1 l2 : list bigram_cnt_t) :
  Sorted key_lt l1 -> common l1 l2 = base.size (bag_in l1 ∩ bag_in l2).
Proof.
  intros Hs. rewrite size_bag_in_common by exact Hs. unfold common.
  induction l1 as [|x l1 IH]; [reflexivity|].
  cbn [sum_list_with]. rewrite multiplicity_bag_in, IH; [reflexivity|].
  eapply Sorted_inv, Hs.
Qed.

Lemma counted_bag_eq (p q : t) :
  valid p -> valid q -> counted_bag p = counted_bag q -> p = q.
Proof.
  intros Hp Hq Hbag. apply valid_counts_eq; try assumption.
  intros b. unfold count. rewrite <- !multiplicity_bag_in.
  fold (counted_bag p) (counted_bag q). rewrite Hbag. reflexivity.
Qed.

Lemma counted_bag_of_string (s : string_t) :
  counted_bag (of_string s) = list_to_set_disj (bigram_vec s).
Proof.
  apply gmultiset_eq. intros b. unfold counted_bag.
  rewrite multiplicity_bag_in, multiplicity_list. apply of_string_count.
Qed.

Lemma counted_bag_plus_assign (this other : t) :
  valid this ->
  counted_bag (plus_assign this other) = counted_bag this ⊎ counted_bag other.
Proof.
  intros Ht. apply gmultiset_eq. intros b. unfold counted_bag.
  rewrite multiplicity_disj_union, !multiplicity_bag_in.
  apply plus_assign_count, Ht.
Qed.

Lemma counted_bag_size (p : t) : valid p -> base.size (counted_bag p) = basic_bigrams.size p.
Proof.
  intros Hp. unfold counted_bag. rewrite size_bag_in.
  symmetry. apply valid_size, Hp.
Qed.

Lemma counted_intersect_size_bag (p q : t) :
  valid p -> valid q ->
  intersect_size p q = base.size (counted_bag p ∩ counted_bag q).
Proof.
  intros Hp Hq. rewrite intersect_size_common by assumption.
  apply common_bag, valid_sorted, Hp.
Qed.

(** *** The multiset representations *)

#[local] Instance bigram_le_trans : Transitive bigram_le.
Proof. intros a b c. apply bigram_nlt_trans. Qed.

#[local] Instance bigram_le_antisymm : AntiSymm (=) bigram_le.
Proof. intros a b Hab Hba. apply bigram_trichotomy; assumption. Qed.

(** A bigram below the head of a sorted list is not in it. *)
Lemma occurrences_below (x y : bigram_t) (l : list bigram_t) :
  Sorted bigram_le (y :: l) -> bigram_ltb x y = true ->
  occurrences x (y :: l) = 0.
Proof.
  intros Hs Hxy. apply Sorted_StronglySorted in Hs; [|exact _].
  apply StronglySorted_inv in Hs as [_ Hall].
  assert (Hall' : Forall (fun z => bigram_ltb x z = true) (y :: l)).
  { constructor; [exact Hxy|]. eapply Forall_impl; [exact Hall|].
    intros z Hz. unfold bigram_le in Hz.
    destruct (bigram_ltb x z) eqn:Hxz; [reflexivity|].
    rewrite (bigram_nlt_trans _ _ _ Hz Hxz) in Hxy. discriminate. }
  clear Hall Hxy. induction Hall' as [|z l' Hz _ IH]; [reflexivity|].
  simpl. rewrite (bigram_ltb_neq' _ _ Hz). exact IH.
Qed.

Import basic_bigram_multiset basic_bigram_multiset_facts.

(** Whatever the two iteration orders, the walk counts no more than the
    two multisets share. *)
Lemma set_intersection_bound (l1 : list bigram_t) :
  forall l2 n,
    set_intersection l1 l2 n <=
      n + base.size (list_to_set_disj l1 ∩ list_to_set_disj l2 : gmultiset bigram_t).
Proof.
  induction l1 as [|x1 l1 IH1]; [simpl; lia|].
  induction l2 as [|x2 l2 IH2]; intros n;
    [rewrite set_intersection_nil_r; lia|].
  rewrite set_intersection_cons.
  destruct (bigram_ltb x1 x2) eqn:H12; [|destruct (bigram_ltb x2 x1) eqn:H21].
  - etrans; [apply IH1|]. apply Nat.add_le_mono_l, gmultiset_subseteq_size.
    rewrite (list_to_set_disj_cons x1 l1). apply bag_grow_l.
  - etrans; [apply IH2|]. apply Nat.add_le_mono_l, gmultiset_subseteq_size.
    rewrite (list_to_set_disj_cons x2 l2). apply bag_grow_r.
  - rewrite (bigram_trichotomy _ _ H12 H21).
    etrans; [apply IH1|]. rewrite !list_to_set_disj_cons, bag_common_head.
    rewrite gmultiset_size_disj_union, gmultiset_size_singleton. lia.
Qed.

(** On sorted ranges it counts exactly that. *)
Lemma set_intersection_exact (l1 : list bigram_t) :
  forall l2 n,
    Sorted bigram_le l1 -> Sorted bigram_le l2 ->
    set_intersection l1 l2 n =
      n + base.size (list_to_set_disj l1 ∩ list_to_set_disj l2 : gmultiset bigram_t).
Proof.
  induction l1 as [|x1 l1 IH1].
  { intros l2 n _ _. simpl.
    replace (∅ ∩ list_to_set_disj l2) with (∅ : gmultiset bigram_t);
      [rewrite gmultiset_size_empty; lia|].
    apply gmultiset_eq. intros y. rewrite multiplicity_intersection.
    rewrite multiplicity_empty. lia. }
  induction l2 as [|x2 l2 IH2]; intros n Hs1 Hs2.
  { rewrite set_intersection_nil_r. simpl.
    replace (_ ∩ ∅) with (∅ : gmultiset bigram_t);
      [rewrite gmultiset_size_empty; lia|].
    apply gmultiset_eq. intros y. rewrite multiplicity_intersection.
    rewrite multiplicity_empty. lia. }
  rewrite set_intersection_cons.
  destruct (bigram_ltb x1 x2) eqn:H12; [|destruct (bigram_ltb x2 x1) eqn:H21].
  - rewrite IH1 by (try assumption; eapply Sorted_inv, Hs1).
    rewrite (list_to_set_disj_cons x1 l1), bag_drop_absent; [reflexivity|].
    rewrite multiplicity_list. apply occurrences_below; assumption.
  - rewrite IH2 by (try assumption; eapply Sorted_inv, Hs2).
    rewrite (list_to_set_disj_cons x2 l2), bag_drop_absent_r; [reflexivity|].
    rewrite multiplicity_list. apply occurrences_below; assumption.
  - rewrite (bigram_trichotomy _ _ H12 H21).
    rewrite IH1 by (eapply Sorted_inv; eassumption).
    rewrite !list_to_set_disj_cons, bag_common_head.
    rewrite gmultiset_size_disj_union, gmultiset_size_singleton. lia.
Qed.

Lemma set_intersection_sym (l1 : list bigram_t) :
  forall l2 n, set_intersection l1 l2 n = set_intersection l2 l1 n.
Proof.
  induction l1 as [|x1 l1 IH1]; intros l2 n;
    [rewrite set_intersection_nil_r; reflexivity|].
  revert n. induction l2 as [|x2 l2 IH2]; intros n; [reflexivity|].
  rewrite !set_intersection_cons.
  destruct (bigram_ltb x1 x2) eqn:H12; [|destruct (bigram_ltb x2 x1) eqn:H21].
  - rewrite (bigram_ltb_asym _ _ H12). apply IH1.
  - apply IH2.
  - apply IH1.
Qed.

Lemma set_intersection_self (l : list bigram_t) :
  forall n, set_intersection l l n = n + length l.
Proof.
  induction l as [|x l IH]; intros n; [simpl; lia|].
  rewrite set_intersection_cons, bigram_ltb_irrefl, IH. simpl. lia.
Qed.


(** Lists with the same bigrams hold them in the same order once they
    are sorted. *)
Lemma occurrences_elem_of (b : bigram_t) (l : list bigram_t) :
  1 <= occurrences b l -> b ∈ l.
Proof.
  induction l as [|x l IH]; simpl; [lia|].
  destruct (bigram_eqb x b) eqn:Heq.
  - apply bigram_eqb_eq in Heq. subst. intros _. left.
  - intros Hb. right. apply IH, Hb.
Qed.

Lemma occurrences_permutation (l1 : list bigram_t) :
  forall l2,
    (forall b, occurrences b l1 = occurrences b l2) -> l1 ≡ₚ l2.
Proof.
  induction l1 as [|x l1 IH]; intros l2 Hocc.
  - destruct l2 as [|y l2]; [reflexivity|].
    specialize (Hocc y). simpl in Hocc. rewrite bigram_eqb_refl in Hocc. lia.
  - assert (Hx : x ∈ l2).
    { apply occurrences_elem_of. rewrite <- Hocc. simpl.
      rewrite bigram_eqb_refl. lia. }
    apply elem_of_Permutation in Hx as [l2' Hl2].
    rewrite Hl2. constructor. apply IH. intros b.
    specialize (Hocc b). rewrite (occurrences_perm b _ _ Hl2) in Hocc.
    simpl in Hocc. destruct (bigram_eqb x b); lia.
Qed.

Lemma list_bag_eq (p q : basic_bigram_multiset.t) :
  Sorted bigram_le (m_impl p) -> Sorted bigram_le (m_impl q) ->
  list_bag p = list_bag q -> p = q.
Proof.
  intros Hp Hq Hbag. destruct p as [lp], q as [lq]. simpl in *. f_equal.
  apply (Sorted_unique bigram_le); try assumption.
  apply occurrences_permutation. intros b.
  rewrite <- !multiplicity_list. unfold list_bag in Hbag. simpl in Hbag.
  rewrite Hbag. reflexivity.
Qed.

Lemma fold_multiset_insert_sorted (bs acc : list bigram_t) :
  Sorted bigram_le acc ->
  Sorted bigram_le (fold_left (fun impl b => multiset_insert b impl) bs acc).
Proof.
  revert acc. induction bs as [|b bs IH]; intros acc Hacc; [exact Hacc|].
  simpl. apply IH, multiset_insert_sorted, Hacc.
Qed.

Lemma ordered_of_string_sorted (s : string_t) :
  Sorted bigram_le (m_impl (bigram_multiset.of_string s)).
Proof.
  unfold bigram_multiset.of_string, of_string.
  destruct (1 <? length s); simpl; [|constructor].
  apply fold_multiset_insert_sorted. constructor.
Qed.

Lemma ordered_plus_assign_sorted (this other : basic_bigram_multiset.t) :
  Sorted bigram_le (m_impl this) -> Sorted bigram_le (m_impl other) ->
  Sorted bigram_le (m_impl (bigram_multiset.plus_assign this other)).
Proof.
  intros Ht Ho. unfold bigram_multiset.plus_assign, plus_assign.
  destruct (basic_bigram_multiset.size this =? 0); [exact Ho|]. simpl.
  apply fold_multiset_insert_sorted, Ht.
Qed.

Section Implementation.

Variable insert : bigram_t -> list bigram_t -> list bigram_t.
Hypothesis insert_perm : forall b l, Permutation (insert b l) (b :: l).

Lemma list_bag_of_string (s : string_t) :
  list_bag (of_string insert s) = list_to_set_disj (bigram_vec s).
Proof.
  unfold list_bag. apply list_to_set_disj_perm, ms_of_string_perm, insert_perm.
Qed.

Lemma list_bag_plus_assign (this other : basic_bigram_multiset.t) :
  list_bag (plus_assign insert this other) = list_bag this ⊎ list_bag other.
Proof.
  unfold list_bag.
  rewrite (list_to_set_disj_perm _ _
             (ms_plus_assign_perm insert insert_perm this other)).
  apply list_to_set_disj_app.
Qed.

End Implementation.

Lemma list_bag_size (p : basic_bigram_multiset.t) :
  base.size (list_bag p) = basic_bigram_multiset.size p.
Proof. apply size_list. Qed.


Lemma counted_bag_unite (arg1 : basic_bigrams.t)
    (args : list basic_bigrams.t) :
  valid arg1 -> Forall valid args ->
  counted_bag (basic_bigrams.unite arg1 args) =
    counted_bag arg1 ⊎ ⋃+ (counted_bag <$> args).
Proof.
  intros H1 Hargs. revert arg1 H1.
  induction Hargs as [|arg2 args H2 Hargs IH]; intros arg1 H1.
  - rewrite fmap_nil, gmultiset_disj_union_list_nil, (right_id_L ∅ (⊎)).
    reflexivity.
  - cbn [basic_bigrams.unite]. rewrite counted_bag_plus_assign
      by (apply unite_valid; assumption).
    rewrite IH by exact H2. rewrite fmap_cons, gmultiset_disj_union_list_cons.
    apply (comm_L (⊎)).
Qed.

Lemma list_bag_unite (insert : bigram_t -> list bigram_t -> list bigram_t)
    (arg1 : basic_bigram_multiset.t) (args : list basic_bigram_multiset.t) :
  (forall b l, Permutation (insert b l) (b :: l)) ->
  list_bag (basic_bigram_multiset.unite insert arg1 args) =
    list_bag arg1 ⊎ ⋃+ (list_bag <$> args).
Proof.
  intros Hperm. revert arg1.
  induction args as [|arg2 args IH]; intros arg1.
  - rewrite fmap_nil, gmultiset_disj_union_list_nil, (right_id_L ∅ (⊎)).
    reflexivity.
  - cbn [basic_bigram_multiset.unite].
    rewrite list_bag_plus_assign by exact Hperm.
    rewrite IH, fmap_cons, gmultiset_disj_union_list_cons.
    apply (comm_L (⊎)).
Qed.

(** An intersection as large as one of the multisets holds all of it. *)
Lemma bag_intersection_full (A Y : gmultiset bigram_t) :
  base.size (A ∩ Y) = base.size A -> A ⊆ Y.
Proof.
  intros Hsize.
  assert (Hsub : A ∩ Y ⊆ A)
    by (intros y; rewrite multiplicity_intersection; lia).
  destruct (decide (A ∩ Y = A)) as [Heq|Hne].
  - intros y. rewrite <- Heq at 1. rewrite multiplicity_intersection. lia.
  - assert (Hstrict : A ∩ Y ⊂ A) by (apply strict_spec_alt; split; assumption).
    apply gmultiset_subset_size in Hstrict. lia.
Qed.

Lemma count_in_doubled (b : bigram_t) (l : list bigram_cnt_t) :
  count_in b (map doubled l) = 2 * count_in b l.
Proof.
  induction l as [|x l IH]; [reflexivity|].
  simpl. rewrite IH. destruct (bigram_eqb x.1 b); lia.
Qed.

End bag_facts.

(** ** The value 1 of the coefficient *)

Section sdc_one.

Lemma sdc_formula_sym (isect s1 s2 : nat) :
  sdc_formula isect s1 s2 = sdc_formula isect s2 s1.
Proof. unfold sdc_formula. rewrite (Nat.add_comm s1 s2). reflexivity. Qed.

Lemma sdc_formula_ge_one (isect s1 s2 : nat) :
  isect <= s1 -> isect <= s2 ->
  ge (sdc_formula isect s1 s2) one <->
  (0 < isect /\ isect = s1 /\ isect = s2).
Proof.
  intros H1 H2. rewrite sdc_formula_value by assumption.
  unfold ge, one, sdc_value.
  destruct (Nat.eqb_spec isect 0) as [->|Hne].
  - split; [intros Hle; exfalso; revert Hle; apply Qlt_not_le; reflexivity|lia].
  - assert (Hpos : (0 < inject_Z (Z.of_nat (s1 + s2)))%Q)
      by (apply inject_nat_pos; lia).
    assert (Hcmp : (1 <= 2 * inject_Z (Z.of_nat isect)
                         / inject_Z (Z.of_nat (s1 + s2)))%Q <->
                   s1 + s2 <= 2 * isect).
    { split.
      - intros Hle.
        apply (Qmult_le_compat_r _ _ (inject_Z (Z.of_nat (s1 + s2)))) in Hle;
          [|apply Qlt_le_weak, Hpos].
        rewrite Qmult_1_l in Hle. unfold Qdiv in Hle.
        rewrite <- Qmult_assoc, (Qmult_comm (/ _)), Qmult_inv_r, Qmult_1_r
          in Hle by (apply Qnot_eq_sym, Qlt_not_eq, Hpos).
        change 2%Q with (inject_Z 2) in Hle.
        rewrite <- inject_Z_mult, <- Zle_Qle in Hle. lia.
      - intros Hle. apply Qle_shift_div_l; [exact Hpos|].
        rewrite Qmult_1_l. change 2%Q with (inject_Z 2).
        rewrite <- inject_Z_mult, <- Zle_Qle. lia. }
    rewrite Hcmp. lia.
Qed.

End sdc_one.


(** ** The hash of the unordered container *)

Module hash_bigram_facts.
Import hash_bigram.

Local Open Scope Z_scope.

Section Hash.

Variables sizeof_char sizeof_size_t : Z.

(** The instantiation [hash_bigram<Char, true>] is chosen when two
    characters fit in a [size_t]. *)
Hypothesis char_bytes : 0 < sizeof_char.
Hypothesis fits_size_t : 2 * sizeof_char <= sizeof_size_t.

Local Abbreviation k := (8 * sizeof_char).
Local Abbreviation w := (8 * sizeof_size_t).

Lemma to_size_t_small (c : Z) :
  0 <= c < 2 ^ w -> to_size_t sizeof_size_t c = c.
Proof. intros Hc. apply Z.mod_small, Hc. Qed.

Lemma pow_k_le_w : 2 ^ k * 2 ^ k <= 2 ^ w.
Proof.
  rewrite <- Z.pow_add_r by lia. apply Z.pow_le_mono_r; lia.
Qed.

(** For characters that are not negative the hash is the two characters
    side by side. *)
Lemma hash_concat (b : bigram_t) :
  0 <= b.1 < 2 ^ k -> 0 <= b.2 < 2 ^ k ->
  hash sizeof_char sizeof_size_t b = Z.lor (Z.shiftl b.2 k) b.1 /\
  Z.shiftr (hash sizeof_char sizeof_size_t b) k = b.2 /\
  Z.land (hash sizeof_char sizeof_size_t b) (Z.ones k) = b.1.
Proof.
  intros H1 H2. pose proof pow_k_le_w as Hkw.
  assert (Hk : 0 < 2 ^ k) by (apply Z.pow_pos_nonneg; lia).
  assert (Hhash : hash sizeof_char sizeof_size_t b = Z.lor (Z.shiftl b.2 k) b.1).
  { unfold hash. rewrite (to_size_t_small b.2), (to_size_t_small b.1) by nia.
    rewrite to_size_t_small; [reflexivity|].
    rewrite Z.shiftl_mul_pow2 by lia. nia. }
  split; [exact Hhash|]. rewrite Hhash. split.
  - rewrite Z.shiftr_lor, Z.shiftr_shiftl_l, Z.sub_diag, Z.shiftl_0_r by lia.
    rewrite (Z.shiftr_div_pow2 b.1) by lia.
    rewrite Z.div_small by lia. apply Z.lor_0_r.
  - rewrite Z.land_lor_distr_l, !Z.land_ones by lia.
    rewrite Z.shiftl_mul_pow2 by lia.
    rewrite Z.mod_mul by lia. rewrite Z.mod_small by lia. reflexivity.
Qed.

(** A negative character converts to a [size_t] with all the bits from
    its sign bit upwards set. *)
Lemma negative_high_bits (c n : Z) :
  - 2 ^ (k - 1) <= c < 0 -> k - 1 <= n -> Z.testbit c n = true.
Proof.
  intros Hc Hn. apply Z.bits_above_log2_neg; [lia|].
  destruct (Z.eq_dec (Z.pred (- c)) 0) as [Hz|Hnz].
  - rewrite Hz. simpl. lia.
  - apply Z.lt_le_trans with (k - 1); [|exact Hn].
    apply Z.log2_lt_pow2; lia.
Qed.

Lemma hash_negative (b : bigram_t) :
  - 2 ^ (k - 1) <= b.1 < 0 ->
  hash sizeof_char sizeof_size_t b = to_size_t sizeof_size_t b.1.
Proof.
  intros Hc. unfold hash, to_size_t. apply Z.bits_inj'. intros n Hn.
  rewrite Z.lor_spec.
  destruct (Z.lt_ge_cases n w) as [Hnw|Hnw].
  - rewrite !Z.mod_pow2_bits_low by lia.
    destruct (Z.lt_ge_cases n k) as [Hnk|Hnk].
    + rewrite Z.shiftl_spec_low by lia. reflexivity.
    + rewrite (negative_high_bits b.1 n) by lia. apply orb_true_r.
  - rewrite !Z.mod_pow2_bits_high by lia. reflexivity.
Qed.

End Hash.
End hash_bigram_facts.


(** ** More on the iterator *)

Module iterator_more_facts.
Import basic_sequence_matcher matcher_spec cells_facts pruning_facts.
Import matrix_facts iterator_facts.

Section Scan.

Context {B : Type} `{BigramsLaws B}.
Variables (toks : list B) (strip_ixs : gset nat).

Implicit Types (it : iterator (B:=B)) (i j n : nat) (q : B) (theta : Q).

Local Abbreviation N := (length toks).

(** *** Lookups outside the triangle *)

Lemma get_cell_outside (mx : list (list (mx_cell (B:=B)))) i j :
  wf_matrix toks mx -> N <= i + j -> get_cell i j mx = None.
Proof.
  intros Hwf Hij. unfold get_cell.
  destruct (mx !! i) as [row|] eqn:Hrow; [|reflexivity].
  pose proof (wf_cols toks mx Hwf i row Hrow) as Hlen.
  rewrite (proj2 (lookup_ge_None row j)) by lia. reflexivity.
Qed.

Lemma bigrams_size_outside (rtl : bool) (m : t) i j :
  holds m toks -> N <= i + j -> run (bigrams_size rtl i j) m = None.
Proof.
  intros Hm Hij. unfold run, bigrams_size. cbn [bigrams_size_rec].
  unfold bind at 1. rewrite (get_cell_outside _ i j Hm Hij). reflexivity.
Qed.

Lemma bigrams_outside (rtl : bool) (m : t) i j :
  holds m toks -> N <= i + j -> run (bigrams rtl i j) m = None.
Proof.
  intros Hm Hij. unfold run, bigrams. cbn [bigrams_rec].
  unfold bind at 1. rewrite (get_cell_outside _ i j Hm Hij). reflexivity.
Qed.

(** *** The score an iterator carries *)

(** The stored score is the coefficient of the cell the iterator stands
    on. *)
Definition scored it : Prop :=
  m_sdc it =
    bg_sorensen_dice_coef (union_at toks (m_i it) (m_j it)) (m_bigrams it).

Lemma pure_inner_scored n :
  forall it,
    let r := pure_inner toks strip_ixs n it in
    r.1 = Return ->
    scored r.2 /\ ltb (m_sdc r.2) (m_sdc_threshold r.2) = false /\
    m_j r.2 + m_i r.2 ∉ strip_ixs.
Proof.
  induction n as [|n IH]; intros it; [discriminate|].
  rewrite pure_inner_S. cbv zeta.
  destruct (bool_decide (m_j it + m_i it ∈ strip_ixs)) eqn:Hstrip;
    [apply IH|].
  destruct (ratio_too_big _ _ _);
    [destruct (subseq_short _ _); [apply IH|discriminate]|].
  destruct (ltb _ _) eqn:Hlt; [apply IH|].
  intros _. simpl. split; [reflexivity|]. split; [exact Hlt|].
  apply bool_decide_eq_false in Hstrip. exact Hstrip.
Qed.

Lemma pure_outer_scored n :
  forall it,
    n = N - m_j it ->
    let it' := pure_outer toks strip_ixs n it in
    m_j it' < N ->
    scored it' /\ ltb (m_sdc it') (m_sdc_threshold it') = false /\
    m_j it' + m_i it' ∉ strip_ixs.
Proof.
  induction n as [|n IH]; intros it Hn; [simpl; lia|].
  cbn [pure_outer].
  destruct (bool_decide (m_j it ∈ strip_ixs)); [apply IH; simpl; lia|].
  pose proof (pure_inner_scored (N - m_j it - m_i it) it) as Hinner.
  pose proof (pure_inner_scan toks strip_ixs (N - m_j it - m_i it) it eq_refl)
    as (Hj & _).
  cbv zeta in Hinner, Hj.
  destruct (pure_inner toks strip_ixs (N - m_j it - m_i it) it) as [exit it2].
  simpl in *. destruct exit.
  - intros _. apply Hinner. reflexivity.
  - apply IH. simpl. lia.
Qed.

(** *** Columns of strip tokens *)

Lemma pure_outer_strip n :
  forall it,
    (forall j, m_j it <= j < m_j it + n -> j ∈ strip_ixs) ->
    pure_outer toks strip_ixs n it = set_ij it (m_i it) (m_j it + n).
Proof.
  induction n as [|n IH]; intros it Hstrip.
  - destruct it. unfold set_ij. simpl. f_equal. lia.
  - cbn [pure_outer].
    rewrite (bool_decide_eq_true_2 (m_j it ∈ strip_ixs)) by (apply Hstrip; lia).
    rewrite IH by (simpl; intros j Hj; apply Hstrip; lia).
    unfold set_ij. simpl. f_equal. lia.
Qed.

Lemma pure_begin_strip q (threshold : double) :
  (forall j, j < N -> j ∈ strip_ixs) ->
  pure_begin toks strip_ixs q threshold = initial q threshold 0 N.
Proof.
  intros Hstrip. unfold pure_begin, pure_next_match.
  rewrite pure_outer_strip by (simpl; intros j Hj; apply Hstrip; lia).
  unfold set_ij, initial. simpl. f_equal. lia.
Qed.

(** *** The strip indices after [push_back] *)

Lemma push_back_strip_ixs (b : B) (strip : bool) (m : t) k :
  k ∈ m_strip_ixs (push_back b strip m) <->
  (strip = true /\ k = size m) \/ k ∈ m_strip_ixs m.
Proof.
  unfold push_back. simpl. destruct strip.
  - rewrite elem_of_union, elem_of_singleton. intuition.
  - intuition discriminate.
Qed.

(** *** Matches and appended tokens *)

Lemma union_at_app (ext : list B) i j :
  i + j < N -> union_at (toks ++ ext) i j = union_at toks i j.
Proof. intros Hij. apply union_rec_app, Hij. Qed.

Lemma is_match_app (ext : list B) (strip_ixs' : gset nat) q
    (threshold : double) i j :
  i + j < N ->
  (forall k, k < N -> k ∈ strip_ixs' <-> k ∈ strip_ixs) ->
  is_match (toks ++ ext) strip_ixs' q threshold i j =
    is_match toks strip_ixs q threshold i j.
Proof.
  intros Hij Hstrip. unfold is_match.
  rewrite (union_at_app ext i j Hij).
  rewrite (bool_decide_ext (j ∈ strip_ixs') (j ∈ strip_ixs))
    by (apply Hstrip; lia).
  rewrite (bool_decide_ext (j + i ∈ strip_ixs') (j + i ∈ strip_ixs))
    by (apply Hstrip; lia).
  reflexivity.
Qed.

(** *** Matches and the threshold *)

Lemma filter_sublist_mono {A} (P1 P2 : A -> Prop)
    `{!forall x, Decision (P1 x)} `{!forall x, Decision (P2 x)} (l : list A) :
  (forall x, x ∈ l -> P2 x -> P1 x) ->
  sublist (filter P2 l) (filter P1 l).
Proof.
  induction l as [|x l IH]; intros Himp; [constructor|].
  assert (IH' : sublist (filter P2 l) (filter P1 l)).
  { apply IH. intros y Hy. apply Himp. right. exact Hy. }
  destruct (decide (P2 x)) as [Hx2|Hx2].
  - rewrite (filter_cons_True P2) by exact Hx2.
    rewrite (filter_cons_True P1) by (apply Himp; [left|exact Hx2]).
    apply sublist_skip, IH'.
  - rewrite (filter_cons_False P2) by exact Hx2.
    destruct (decide (P1 x)) as [Hx1|Hx1].
    + rewrite (filter_cons_True P1) by exact Hx1. apply sublist_cons, IH'.
    + rewrite (filter_cons_False P1) by exact Hx1. exact IH'.
Qed.

Lemma is_match_threshold_mono q theta1 theta2 i j :
  Forall bg_valid toks -> bg_valid q -> i + j < N -> (theta1 <= theta2)%Q ->
  is_match toks strip_ixs q (Fin theta2) i j = true ->
  is_match toks strip_ixs q (Fin theta1) i j = true.
Proof.
  intros Htoks Hq Hij Hle.
  rewrite !(is_match_spec toks strip_ixs) by assumption.
  intros (Hb & He & Hge). split; [exact Hb|]. split; [exact He|].
  destruct (sdc_at toks q i j Htoks Hq Hij) as (isect & Ha & Hc & Hval).
  rewrite Hval in Hge |- *. rewrite sdc_formula_value in Hge |- * by assumption.
  simpl in Hge |- *. lra.
Qed.

(** *** The order of the iterators *)

Lemma iter_lt_lex (a b : iterator (B:=B)) :
  iter_lt a b = true <-> lex_lt (position a) (position b).
Proof.
  unfold iter_lt, lex_lt, position. simpl.
  destruct (Nat.ltb_spec (m_j a) (m_j b)); [split; [left; assumption|reflexivity]|].
  destruct (Nat.ltb_spec (m_j b) (m_j a)).
  - split; [discriminate|lia].
  - rewrite Nat.ltb_lt. lia.
Qed.

Lemma iter_eq_position (a b : iterator (B:=B)) :
  iter_eq a b = true <-> position a = position b.
Proof.
  unfold iter_eq, position. rewrite andb_true_iff, !Nat.eqb_eq. split.
  - intros [-> ->]. reflexivity.
  - intros [= -> ->]. split; reflexivity.
Qed.

End Scan.
End iterator_more_facts.


(** ** The cache of the matrix *)

Module cache_facts.
Import basic_sequence_matcher.

Section Cache.

Context {B : Type} `{Bigrams B}.
Variable eval_right_first : bool.

Implicit Types (mx : list (list (mx_cell (B:=B)))) (i j : nat).

Lemma get_cell_state mx mx' i j cell :
  get_cell i j mx = Some (cell, mx') -> mx' = mx.
Proof.
  unfold get_cell. destruct (mx !! i) as [row|]; [|discriminate].
  destruct (row !! j); [|discriminate]. congruence.
Qed.

Lemma get_cell_put mx i j cell0 cell :
  get_cell i j mx = Some (cell0, mx) ->
  get_cell i j (alter (fun row => <[j := cell]> row) i mx) =
    Some (cell, alter (fun row => <[j := cell]> row) i mx).
Proof.
  unfold get_cell. destruct (mx !! i) as [row|] eqn:Hrow; [|discriminate].
  destruct (row !! j) eqn:Hj; [|discriminate]. intros _.
  rewrite list_lookup_alter_eq, Hrow. simpl.
  rewrite list_lookup_insert_eq by (eapply lookup_lt_Some; exact Hj).
  reflexivity.
Qed.

Lemma get_cell_put_ne mx i j i' j' cell cell' :
  (i', j') <> (i, j) ->
  get_cell i' j' (alter (fun row => <[j := cell]> row) i mx) =
    Some (cell', alter (fun row => <[j := cell]> row) i mx) ->
  get_cell i' j' mx = Some (cell', mx).
Proof.
  intros Hne. unfold get_cell.
  destruct (decide (i' = i)) as [->|Hi].
  - rewrite list_lookup_alter_eq.
    destruct (mx !! i) as [row|]; [|discriminate]. simpl.
    rewrite list_lookup_insert_ne by congruence.
    destruct (row !! j'); [|discriminate]. congruence.
  - rewrite list_lookup_alter_ne by congruence.
    destruct (mx !! i') as [row|]; [|discriminate].
    destruct (row !! j'); [|discriminate]. congruence.
Qed.

(** *** A second lookup hits the cache *)

Lemma bigrams_rec_cached fuel i j mx p mx' :
  bigrams_rec eval_right_first fuel i j mx = Some (p, mx') ->
  get_cell i j mx' = Some (BIGRAMS p, mx').
Proof.
  assert (Hread : forall mx0,
    cell_bigrams i j mx0 = Some (p, mx') ->
    get_cell i j mx' = Some (BIGRAMS p, mx')).
  { intros mx0. unfold cell_bigrams, bind.
    destruct (get_cell i j mx0) as [[cell mx1]|] eqn:Hg; [|discriminate].
    pose proof (get_cell_state _ _ _ _ _ Hg) as ->.
    destruct cell; try discriminate. unfold ret. intros [= -> ->]. exact Hg. }
  destruct fuel as [|fuel]; [discriminate|]. cbn [bigrams_rec].
  unfold bind at 1.
  destruct (get_cell i j mx) as [[cell mx0]|]; [|discriminate].
  destruct cell; try apply Hread.
  - destruct (sub_ix i j) as [[[i1 j1] i2] j2]. unfold bind at 1.
    destruct (both _ _ _ mx0) as [[lr mx1]|]; [|discriminate].
    unfold bind at 1.
    destruct (set_bigrams _ _ _ mx1) as [[u mx2]|]; [|discriminate].
    apply Hread.
  - destruct (sub_ix i j) as [[[i1 j1] i2] j2]. unfold bind at 1.
    destruct (both _ _ _ mx0) as [[lr mx1]|]; [|discriminate].
    unfold bind at 1.
    destruct (set_bigrams _ _ _ mx1) as [[u mx2]|]; [|discriminate].
    apply Hread.
Qed.

Lemma bigrams_again i j mx p mx' :
  bigrams eval_right_first i j mx = Some (p, mx') ->
  bigrams eval_right_first i j mx' = Some (p, mx').
Proof.
  intros Hfirst. apply bigrams_rec_cached in Hfirst.
  unfold bigrams. cbn [bigrams_rec]. unfold bind at 1. rewrite Hfirst.
  unfold cell_bigrams, bind. rewrite Hfirst. reflexivity.
Qed.

Lemma bigrams_size_rec_cached fuel i j mx n mx' :
  bigrams_size_rec eval_right_first fuel i j mx = Some (n, mx') ->
  exists cell,
    get_cell i j mx' = Some (cell, mx') /\ cell_size cell mx' = Some (n, mx').
Proof.
  destruct fuel as [|fuel]; [discriminate|]. cbn [bigrams_size_rec].
  unfold bind at 1.
  destruct (get_cell i j mx) as [[cell mx0]|] eqn:Hg; [|discriminate].
  pose proof (get_cell_state _ _ _ _ _ Hg) as ->.
  destruct cell as [|sz|b].
  - destruct (sub_ix i j) as [[[i1 j1] i2] j2]. unfold bind at 1.
    destruct (both _ _ _ mx) as [[lr mx1]|]; [|discriminate].
    unfold bind at 1. unfold set_size at 1. unfold bind at 1.
    destruct (get_cell i j mx1) as [[cell1 mx2]|] eqn:Hg1; [|discriminate].
    pose proof (get_cell_state _ _ _ _ _ Hg1) as ->.
    destruct cell1; try discriminate.
    unfold put_cell, ret. intros [= <- <-].
    exists (SIZE (lr.1 + lr.2)). split; [|reflexivity].
    eapply get_cell_put, Hg1.
  - unfold cell_size, ret. intros [= <- <-].
    exists (SIZE sz). split; [exact Hg|reflexivity].
  - unfold cell_size, ret. intros [= <- <-].
    exists (BIGRAMS b). split; [exact Hg|reflexivity].
Qed.

Lemma bigrams_size_again i j mx n mx' :
  bigrams_size eval_right_first i j mx = Some (n, mx') ->
  bigrams_size eval_right_first i j mx' = Some (n, mx').
Proof.
  intros Hfirst. apply bigrams_size_rec_cached in Hfirst
    as (cell & Hg & Hsize).
  unfold bigrams_size. cbn [bigrams_size_rec]. unfold bind at 1. rewrite Hg.
  destruct cell; [discriminate|exact Hsize..].
Qed.

(** *** [bigrams_size] builds no profile *)

(** Every profile in [mx'] was in [mx] already. *)
Definition no_new_bigrams mx mx' : Prop :=
  forall i j b,
    get_cell i j mx' = Some (BIGRAMS b, mx') ->
    get_cell i j mx = Some (BIGRAMS b, mx).

Lemma no_new_bigrams_refl mx : no_new_bigrams mx mx.
Proof. intros i j b Hb. exact Hb. Qed.

Lemma no_new_bigrams_trans mx1 mx2 mx3 :
  no_new_bigrams mx1 mx2 -> no_new_bigrams mx2 mx3 -> no_new_bigrams mx1 mx3.
Proof. intros H12 H23 i j b Hb. apply H12, H23, Hb. Qed.

Lemma bigrams_size_rec_no_new fuel :
  forall i j mx n mx',
    bigrams_size_rec eval_right_first fuel i j mx = Some (n, mx') ->
    no_new_bigrams mx mx'.
Proof.
  induction fuel as [|fuel IH]; intros i j mx n mx'; [discriminate|].
  cbn [bigrams_size_rec]. unfold bind at 1.
  destruct (get_cell i j mx) as [[cell mx0]|] eqn:Hg; [|discriminate].
  pose proof (get_cell_state _ _ _ _ _ Hg) as ->.
  destruct cell as [|sz|b].
  - destruct (sub_ix i j) as [[[i1 j1] i2] j2]. unfold bind at 1.
    destruct (both _ _ _ mx) as [[lr mx1]|] eqn:Hboth; [|discriminate].
    assert (H1 : no_new_bigrams mx mx1).
    { unfold both in Hboth. destruct eval_right_first.
      - unfold bind at 1 in Hboth.
        destruct (bigrams_size_rec _ fuel i2 j2 mx) as [[r mxa]|] eqn:Hr;
          [|discriminate].
        unfold bind at 1 in Hboth.
        destruct (bigrams_size_rec _ fuel i1 j1 mxa) as [[l mxb]|] eqn:Hl;
          [|discriminate].
        unfold ret in Hboth. injection Hboth as _ <-.
        eapply no_new_bigrams_trans; eapply IH; eassumption.
      - unfold bind at 1 in Hboth.
        destruct (bigrams_size_rec _ fuel i1 j1 mx) as [[l mxa]|] eqn:Hl;
          [|discriminate].
        unfold bind at 1 in Hboth.
        destruct (bigrams_size_rec _ fuel i2 j2 mxa) as [[r mxb]|] eqn:Hr;
          [|discriminate].
        unfold ret in Hboth. injection Hboth as _ <-.
        eapply no_new_bigrams_trans; eapply IH; eassumption. }
    unfold bind at 1. unfold set_size at 1. unfold bind at 1.
    destruct (get_cell i j mx1) as [[cell1 mx2]|] eqn:Hg1; [|discriminate].
    pose proof (get_cell_state _ _ _ _ _ Hg1) as ->.
    destruct cell1; try discriminate.
    unfold put_cell, ret. intros [= _ <-].
    eapply no_new_bigrams_trans; [exact H1|].
    intros i' j' b Hb.
    destruct (decide ((i', j') = (i, j))) as [[= -> ->]|Hne].
    + rewrite (get_cell_put mx1 i j NONE (SIZE (lr.1 + lr.2)) Hg1) in Hb.
      discriminate.
    + eapply get_cell_put_ne; eassumption.
  - unfold cell_size, ret. intros [= _ <-]. apply no_new_bigrams_refl.
  - unfold cell_size, ret. intros [= _ <-]. apply no_new_bigrams_refl.
Qed.

End Cache.
End cache_facts.

(** ** Thresholds that prune nothing *)

Module unpruned_facts.
Import basic_sequence_matcher matcher_spec cells_facts pruning_facts.
Import matrix_facts iterator_facts.

Section Scan.

Context {B : Type} `{BigramsLaws B}.
Variables (toks : list B) (strip_ixs : gset nat).
Variables (q : B) (threshold : double).

Implicit Types (it : iterator (B:=B)) (i j n : nat).

Local Abbreviation N := (length toks).
Local Abbreviation no_hit :=
  (fun c : nat * nat => is_match toks strip_ixs q threshold c.1 c.2 = false).

(** An iterator for [q] and [threshold] whose ratio threshold no ratio
    exceeds: +inf, as [2.0 / 0.0 - 1.0] is, or NaN. *)
Record aimed it : Prop := {
  aimed_bigrams : m_bigrams it = q;
  aimed_threshold : m_sdc_threshold it = threshold;
  aimed_open : forall x, gtb x (m_card_ratio_threshold it) = false
}.

Lemma aimed_same it it' : same_query it it' -> aimed it -> aimed it'.
Proof.
  intros (Hb & Ht & Hr) [Hq Hth Hopen].
  split; [congruence|congruence|]. rewrite Hr. exact Hopen.
Qed.

Lemma strip_end_no_hit i j :
  j + i ∈ strip_ixs -> is_match toks strip_ixs q threshold i j = false.
Proof.
  intros Hs. unfold is_match. rewrite (bool_decide_eq_true_2 _ Hs).
  rewrite andb_false_r. reflexivity.
Qed.

Lemma strip_begin_no_hit i j :
  j ∈ strip_ixs -> is_match toks strip_ixs q threshold i j = false.
Proof.
  intros Hs. unfold is_match. rewrite (bool_decide_eq_true_2 _ Hs).
  reflexivity.
Qed.

Lemma pure_inner_open n it :
  aimed it ->
  pure_inner toks strip_ixs (S n) it =
    let next := set_ij it (S (m_i it)) (m_j it) in
    if bool_decide (m_j it + m_i it ∈ strip_ixs)
    then pure_inner toks strip_ixs n next
    else
      let it' :=
        set_sdc it (bg_sorensen_dice_coef
                      (union_at toks (m_i it) (m_j it)) q) in
      if ltb (m_sdc it') threshold
      then pure_inner toks strip_ixs n (set_ij it' (S (m_i it')) (m_j it'))
      else (Return, it').
Proof.
  intros [Hq Hth Hopen]. rewrite pure_inner_S. cbv zeta.
  unfold ratio_too_big. rewrite Hopen, Hq. simpl. rewrite Hth. reflexivity.
Qed.

Lemma pure_inner_open_scan n :
  forall it,
    aimed it -> n = N - m_j it - m_i it ->
    let r := pure_inner toks strip_ixs n it in
    m_j r.2 = m_j it /\ same_query it r.2 /\
    match r.1 with
    | Return =>
        m_i r.2 + m_j it < N /\
        exists skipped,
          row_cells N (m_i it) (m_j it) =
            skipped ++ row_cells N (m_i r.2) (m_j it) /\
          (m_j it ∉ strip_ixs ->
           Forall no_hit skipped /\
           is_match toks strip_ixs q threshold (m_i r.2) (m_j it) = true)
    | Leave => Forall no_hit (row_cells N (m_i it) (m_j it))
    end.
Proof.
  induction n as [|n IH]; intros it Hit Hn.
  { simpl. split; [reflexivity|]. split; [apply same_query_refl|].
    rewrite row_cells_nil by lia. constructor. }
  assert (Hij : m_i it + m_j it < N) by lia.
  assert (Hstep : forall it',
    m_i it' = m_i it -> m_j it' = m_j it -> same_query it it' ->
    is_match toks strip_ixs q threshold (m_i it) (m_j it) = false ->
    let r := pure_inner toks strip_ixs n (set_ij it' (S (m_i it')) (m_j it')) in
    m_j r.2 = m_j it /\ same_query it r.2 /\
    match r.1 with
    | Return =>
        m_i r.2 + m_j it < N /\
        exists skipped,
          row_cells N (m_i it) (m_j it) =
            skipped ++ row_cells N (m_i r.2) (m_j it) /\
          (m_j it ∉ strip_ixs ->
           Forall no_hit skipped /\
           is_match toks strip_ixs q threshold (m_i r.2) (m_j it) = true)
    | Leave => Forall no_hit (row_cells N (m_i it) (m_j it))
    end).
  { intros it' Hi' Hj' Hsame Hno.
    specialize (IH (set_ij it' (S (m_i it')) (m_j it'))).
    simpl in IH. rewrite Hi', Hj' in IH.
    specialize (IH ltac:(eapply aimed_same; [|exact Hit]; exact Hsame)
                   ltac:(lia)).
    cbv zeta. rewrite Hi', Hj'.
    destruct (pure_inner toks strip_ixs n (set_ij it' (S (m_i it)) (m_j it)))
      as [exit it2]. simpl in *.
    destruct IH as (Hj2 & Hsame2 & IH). split; [exact Hj2|].
    split; [eapply same_query_trans; [exact Hsame|exact Hsame2]|].
    rewrite (row_cells_cons N (m_i it) (m_j it) Hij).
    destruct exit.
    - destruct IH as (Hin & skipped & Hrow & Hsound). split; [exact Hin|].
      exists ((m_i it, m_j it) :: skipped). split; [rewrite Hrow; reflexivity|].
      intros Hjs. destruct (Hsound Hjs) as [Hsk Hm].
      split; [|exact Hm]. constructor; [exact Hno|exact Hsk].
    - constructor; [exact Hno|exact IH]. }
  rewrite (pure_inner_open n it Hit). cbv zeta.
  destruct (bool_decide (m_j it + m_i it ∈ strip_ixs)) eqn:Hstrip.
  { apply Hstep; [reflexivity..|apply same_query_refl|].
    apply strip_end_no_hit.
    apply bool_decide_eq_true in Hstrip. exact Hstrip. }
  simpl.
  destruct (ltb (bg_sorensen_dice_coef (union_at toks (m_i it) (m_j it)) q)
                threshold) eqn:Hlt.
  { apply (Hstep (set_sdc it _)); [reflexivity..|repeat split|].
    unfold is_match. rewrite Hlt. apply andb_false_r. }
  simpl. split; [reflexivity|]. split; [repeat split|].
  split; [exact Hij|]. exists []. split; [reflexivity|].
  intros Hjs. split; [constructor|].
  unfold is_match.
  rewrite (bool_decide_eq_false_2 (m_j it ∈ strip_ixs) Hjs), Hstrip, Hlt.
  reflexivity.
Qed.

Lemma pure_outer_open_scan n :
  forall it,
    aimed it -> n = N - m_j it ->
    m_i it = 0 \/ m_j it ∉ strip_ixs ->
    m_j it <= N -> (m_j it = N -> m_i it = 0) ->
    let it' := pure_outer toks strip_ixs n it in
    same_query it it' /\ placed toks strip_ixs it' /\
    exists skipped,
      cells_from N (m_i it) (m_j it) =
        skipped ++ cells_from N (m_i it') (m_j it') /\
      Forall no_hit skipped /\
      (at_cell toks strip_ixs it' ->
       is_match toks strip_ixs q threshold (m_i it') (m_j it') = true).
Proof.
  induction n as [|n IH]; intros it Hit Hn Hstart Hle Hend.
  { simpl. split; [apply same_query_refl|].
    assert (Hj : m_j it = N) by lia. specialize (Hend Hj).
    split; [left; split; assumption|].
    exists []. split; [reflexivity|]. split; [constructor|].
    intros [Hcell _]. lia. }
  assert (Hnext : forall it1,
    m_j it1 = m_j it -> same_query it it1 ->
    Forall no_hit (row_cells N (m_i it) (m_j it)) ->
    let it' := pure_outer toks strip_ixs n (set_ij it1 0 (S (m_j it1))) in
    same_query it it' /\ placed toks strip_ixs it' /\
    exists skipped,
      cells_from N (m_i it) (m_j it) =
        skipped ++ cells_from N (m_i it') (m_j it') /\
      Forall no_hit skipped /\
      (at_cell toks strip_ixs it' ->
       is_match toks strip_ixs q threshold (m_i it') (m_j it') = true)).
  { intros it1 Hj1 Hsame Hrow.
    assert (Hsame2 : same_query it (set_ij it1 0 (S (m_j it1)))) by exact Hsame.
    specialize (IH (set_ij it1 0 (S (m_j it1)))
                   (aimed_same _ _ Hsame2 Hit)). simpl in IH.
    rewrite Hj1 in IH.
    specialize (IH ltac:(lia) ltac:(left; reflexivity) ltac:(lia)
                   ltac:(reflexivity)).
    cbv zeta. rewrite Hj1.
    destruct IH as (Hsame' & Hplaced & skipped & Hcells & Hsk & Hm).
    rewrite Hj1 in Hsame2.
    split; [eapply same_query_trans; eassumption|].
    split; [exact Hplaced|].
    exists (row_cells N (m_i it) (m_j it) ++ skipped). split; [|split].
    - rewrite cells_from_row, Hcells, app_assoc. reflexivity.
    - apply Forall_app. split; assumption.
    - exact Hm. }
  cbn [pure_outer].
  destruct (bool_decide (m_j it ∈ strip_ixs)) eqn:Hstrip.
  { apply bool_decide_eq_true in Hstrip.
    assert (Hi : m_i it = 0) by (destruct Hstart; [assumption|contradiction]).
    replace (set_ij it (m_i it) (S (m_j it)))
      with (set_ij it 0 (S (m_j it))) by (rewrite Hi; reflexivity).
    apply (Hnext it); [reflexivity|apply same_query_refl|].
    apply Forall_forall. intros c Hc.
    apply elem_of_row_cells in Hc as (Hj & _). rewrite Hj.
    apply strip_begin_no_hit, Hstrip. }
  apply bool_decide_eq_false in Hstrip.
  pose proof (pure_inner_open_scan (N - m_j it - m_i it) it Hit eq_refl)
    as Hinner.
  cbv zeta in Hinner |- *.
  destruct (pure_inner toks strip_ixs (N - m_j it - m_i it) it)
    as [exit it2]. simpl in Hinner |- *.
  destruct Hinner as (Hj2 & Hsame & Hinner). destruct exit.
  - destruct Hinner as (Hin & skipped & Hrow & Hsound).
    split; [exact Hsame|]. split.
    { right. split; [lia|]. rewrite Hj2. exact Hstrip. }
    exists skipped. rewrite Hj2. split.
    + unfold cells_from. rewrite Hrow, app_assoc. reflexivity.
    + destruct (Hsound Hstrip) as [Hsk Hm].
      split; [exact Hsk|]. intros _. exact Hm.
  - apply (Hnext it2); assumption.
Qed.

Lemma filter_no_hit (l : list (nat * nat)) :
  Forall no_hit l ->
  filter (fun c => is_match toks strip_ixs q threshold c.1 c.2 = true) l = [].
Proof.
  induction 1 as [|c l Hc _ IH]; [reflexivity|].
  rewrite filter_cons_False; [exact IH|]. simpl in Hc. congruence.
Qed.

Lemma pure_collect_open_scan fuel :
  forall it e,
    aimed it -> at_end toks e -> placed toks strip_ixs it ->
    (at_cell toks strip_ixs it ->
     is_match toks strip_ixs q threshold (m_i it) (m_j it) = true) ->
    length (cells_from N (m_i it) (m_j it)) < fuel ->
    pure_collect toks strip_ixs fuel e it =
      Some (filter (fun c => is_match toks strip_ixs q threshold c.1 c.2 = true)
                   (cells_from N (m_i it) (m_j it))).
Proof.
  induction fuel as [|fuel IH]; intros it e Hit He Hplaced Hm Hfuel; [lia|].
  cbn [pure_collect].
  destruct (iter_eq it e) eqn:Heq.
  { apply (iter_eq_end toks it e He) in Heq. destruct Heq as [Hi Hj].
    rewrite Hi, Hj, cells_from_end. reflexivity. }
  destruct Hplaced as [Hend|Hcell].
  { apply (iter_eq_end toks it e He) in Hend. congruence. }
  pose proof (pure_outer_open_scan (N - m_j it)
                (set_ij it (S (m_i it)) (m_j it))) as Hscan.
  simpl in Hscan. destruct Hcell as [Hij Hstrip].
  specialize (Hscan ltac:(eapply aimed_same; [|exact Hit]; repeat split)
                    eq_refl ltac:(right; exact Hstrip) ltac:(lia) ltac:(lia)).
  assert (Hincr : pure_outer toks strip_ixs (N - m_j it)
                    (set_ij it (S (m_i it)) (m_j it)) =
                  pure_incr toks strip_ixs it) by reflexivity.
  cbv zeta in Hscan. rewrite Hincr in Hscan.
  set (it' := pure_incr toks strip_ixs it) in *.
  destruct Hscan as (Hsame & Hplaced' & skipped & Hcells & Hsk & Hm').
  assert (Hlen : length (cells_from N (m_i it') (m_j it')) < fuel).
  { rewrite (cells_from_cons N _ _ Hij) in Hfuel. simpl in Hfuel.
    rewrite Hcells, length_app in Hfuel. lia. }
  assert (Hit' : aimed it').
  { eapply aimed_same; [exact Hsame|].
    eapply aimed_same; [|exact Hit]. repeat split. }
  rewrite (IH it' e Hit' He Hplaced' Hm' Hlen).
  rewrite (cells_from_cons N _ _ Hij), Hcells.
  rewrite filter_cons_True by (apply Hm; split; assumption).
  rewrite filter_app, (filter_no_hit skipped Hsk). reflexivity.
Qed.

Lemma pure_all_matches_open :
  (forall x, gtb x (sub (div two threshold) one) = false) ->
  pure_collect toks strip_ixs (S (length (cells N)))
    (pure_end toks strip_ixs) (pure_begin toks strip_ixs q threshold)
    = Some (spec_matches toks strip_ixs q threshold).
Proof.
  intros Hopen.
  assert (Hinit : aimed (initial q threshold 0 0)) by (split; auto).
  pose proof (pure_outer_open_scan N (initial q threshold 0 0) Hinit) as Hscan.
  simpl in Hscan.
  specialize (Hscan ltac:(lia) ltac:(left; reflexivity) ltac:(lia)
                    ltac:(reflexivity)).
  assert (Hbegin : pure_outer toks strip_ixs N (initial q threshold 0 0) =
                   pure_begin toks strip_ixs q threshold).
  { unfold pure_begin, pure_next_match. simpl. f_equal. lia. }
  cbv zeta in Hscan. rewrite Hbegin in Hscan.
  set (it := pure_begin toks strip_ixs q threshold) in *.
  destruct Hscan as (Hsame & Hplaced & skipped & Hcells & Hsk & Hm).
  rewrite (pure_collect_open_scan _ it) ; try assumption.
  - unfold spec_matches. rewrite cells_from_origin, Hcells.
    rewrite filter_app, (filter_no_hit skipped Hsk). reflexivity.
  - eapply aimed_same; [exact Hsame|exact Hinit].
  - apply pure_end_at_end.
  - rewrite cells_from_origin, Hcells, length_app. lia.
Qed.

Lemma filter_ext_in {A} (P1 P2 : A -> Prop)
    `{!forall x, Decision (P1 x)} `{!forall x, Decision (P2 x)} (l : list A) :
  (forall x, x ∈ l -> P1 x <-> P2 x) -> filter P1 l = filter P2 l.
Proof.
  induction l as [|x l IH]; intros Hext; [reflexivity|].
  assert (Hl : filter P1 l = filter P2 l).
  { apply IH. intros y Hy. apply Hext. right. exact Hy. }
  destruct (decide (P1 x)) as [Hx|Hx].
  - rewrite (filter_cons_True P1), (filter_cons_True P2), Hl;
      [reflexivity|apply Hext; [left|exact Hx]|exact Hx].
  - rewrite (filter_cons_False P1), (filter_cons_False P2), Hl;
      [reflexivity| |exact Hx].
    intros Hx2. apply Hx, Hext; [left|exact Hx2].
Qed.

End Scan.
End unpruned_facts.


(** * Further properties of the profiles *)

Section profile_properties.

Import basic_bigrams_facts basic_bigrams_exact bag_facts.

(** [operator +=] on two distinct objects, [operator +] and [unite] of
    profiles that satisfy the representation invariant return a profile
    that satisfies it: strictly increasing keys, counts of at least 1,
    [m_size] the sum of the counts. *)
Theorem union_keeps_invariant (p q : basic_bigrams.t) :
  valid p -> valid q ->
  valid (basic_bigrams.plus_assign p q) /\
  valid (basic_bigrams.plus p q) /\
  forall more,
    Forall valid more -> valid (basic_bigrams.unite p (q :: more)).
Proof.
  intros Hp Hq. split; [|split].
  - apply basic_bigrams_union.plus_assign_valid; assumption.
  - apply basic_bigrams_union.plus_valid; assumption.
  - intros more Hmore. apply basic_bigrams_union.unite_valid; [exact Hp|].
    constructor; assumption.
Qed.

(** The union is the sum of the multisets: every bigram occurs in the
    result as often as in the operands together.  So for [operator +=],
    [operator +] and [unite] in the counted representation (on profiles
    that satisfy its invariant) and in both multiset representations,
    whatever the iteration order of the unordered one. *)
Theorem union_is_multiset_sum :
  (forall p q : basic_bigrams.t,
      valid p -> valid q ->
      counted_bag (basic_bigrams.plus_assign p q) =
        counted_bag p ⊎ counted_bag q /\
      counted_bag (basic_bigrams.plus p q) = counted_bag p ⊎ counted_bag q /\
      (forall b,
          basic_bigrams.count b (basic_bigrams.plus_assign p q) =
            basic_bigrams.count b p + basic_bigrams.count b q) /\
      forall more,
        Forall valid more ->
        counted_bag (basic_bigrams.unite p more) =
          counted_bag p ⊎ ⋃+ (counted_bag <$> more)) /\
  (forall (p q : bigram_multiset.t) (more : list bigram_multiset.t),
      list_bag (bigram_multiset.plus_assign p q) = list_bag p ⊎ list_bag q /\
      list_bag (bigram_multiset.plus p q) = list_bag p ⊎ list_bag q /\
      list_bag (bigram_multiset.unite p more) =
        list_bag p ⊎ ⋃+ (list_bag <$> more)) /\
  (forall (h : hash_layout) (p q : unordered_bigram_multiset.t)
          (more : list unordered_bigram_multiset.t),
      list_bag (unordered_bigram_multiset.plus_assign h p q) =
        list_bag p ⊎ list_bag q /\
      list_bag (unordered_bigram_multiset.plus h p q) =
        list_bag p ⊎ list_bag q /\
      list_bag (unordered_bigram_multiset.unite h p more) =
        list_bag p ⊎ ⋃+ (list_bag <$> more)).
Proof.
  split; [|split].
  - intros p q Hp Hq. split; [|split; [|split]].
    + apply counted_bag_plus_assign, Hp.
    + unfold basic_bigrams.plus. simpl.
      rewrite counted_bag_plus_assign by exact Hq. apply (comm_L (⊎)).
    + intros b. apply basic_bigrams_union.plus_assign_count, Hp.
    + intros more Hmore. apply counted_bag_unite; assumption.
  - intros p q more. split; [|split].
    + apply list_bag_plus_assign,
        basic_bigram_multiset_facts.multiset_insert_perm.
    + unfold bigram_multiset.plus, basic_bigram_multiset.plus. simpl.
      rewrite list_bag_plus_assign
        by apply basic_bigram_multiset_facts.multiset_insert_perm.
      apply (comm_L (⊎)).
    + apply list_bag_unite, basic_bigram_multiset_facts.multiset_insert_perm.
  - intros h p q more. split; [|split].
    + apply list_bag_plus_assign,
        basic_bigram_multiset_facts.unordered_insert_perm.
    + unfold unordered_bigram_multiset.plus, basic_bigram_multiset.plus. simpl.
      rewrite list_bag_plus_assign
        by apply basic_bigram_multiset_facts.unordered_insert_perm.
      apply (comm_L (⊎)).
    + apply list_bag_unite, basic_bigram_multiset_facts.unordered_insert_perm.
Qed.


(** [intersect_size] of the counted representation, on profiles that
    satisfy the invariant, is the cardinality of the intersection of the
    two multisets: the sum, over the entries of the first profile, of the
    smaller of the entry's count and the count of its bigram in the
    second. *)
Theorem counted_intersect_size_exact (p q : basic_bigrams.t) :
  valid p -> valid q ->
  basic_bigrams.intersect_size p q = size (counted_bag p ∩ counted_bag q) /\
  basic_bigrams.intersect_size p q =
    sum_list_with (fun bc => Nat.min bc.2 (basic_bigrams.count bc.1 q))
                  (basic_bigrams.m_impl p).
Proof.
  intros Hp Hq. split.
  - apply counted_intersect_size_bag; assumption.
  - apply intersect_size_common; assumption.
Qed.

(** [intersect_size] of the ordered multiset representation is the
    cardinality of the intersection of the two multisets.  The container
    iterates in sorted order, and the constructor from a string and
    [operator +=] keep it so. *)
Theorem ordered_intersect_size_exact :
  (forall p q : bigram_multiset.t,
      Sorted bigram_le (basic_bigram_multiset.m_impl p) ->
      Sorted bigram_le (basic_bigram_multiset.m_impl q) ->
      bigram_multiset.intersect_size p q = size (list_bag p ∩ list_bag q) /\
      Sorted bigram_le
        (basic_bigram_multiset.m_impl (bigram_multiset.plus_assign p q))) /\
  (forall s,
      Sorted bigram_le
        (basic_bigram_multiset.m_impl (bigram_multiset.of_string s))).
Proof.
  split.
  - intros p q Hp Hq. split.
    + apply (set_intersection_exact _ _ 0); assumption.
    + apply ordered_plus_assign_sorted; assumption.
  - apply ordered_of_string_sorted.
Qed.

(** [intersect_size] of the unordered multiset representation walks the
    two hash tables as if they were sorted.  Whatever the two iteration
    orders are, it counts no more than the two multisets share, so the
    coefficient is never above the true one; and it is the same from
    either side. *)
Theorem unordered_intersect_size_bound (p q : unordered_bigram_multiset.t) :
  unordered_bigram_multiset.intersect_size p q
    <= size (list_bag p ∩ list_bag q) /\
  unordered_bigram_multiset.intersect_size p q =
    unordered_bigram_multiset.intersect_size q p.
Proof.
  split.
  - apply (set_intersection_bound _ _ 0).
  - apply set_intersection_sym.
Qed.

(** The counted and the ordered representation agree: profiles that
    stand for the same multisets have the same [intersect_size] and the
    same [sorensen_dice_coef], and so have the profiles constructed from
    the same strings. *)
Theorem representations_agree :
  (forall (p q : basic_bigrams.t) (p' q' : bigram_multiset.t),
      valid p -> valid q ->
      Sorted bigram_le (basic_bigram_multiset.m_impl p') ->
      Sorted bigram_le (basic_bigram_multiset.m_impl q') ->
      counted_bag p = list_bag p' -> counted_bag q = list_bag q' ->
      basic_bigrams.size p = bigram_multiset.size p' /\
      basic_bigrams.intersect_size p q = bigram_multiset.intersect_size p' q' /\
      basic_bigrams.sorensen_dice_coef p q =
        bigram_multiset.sorensen_dice_coef p' q') /\
  (forall s1 s2 : string_t,
      basic_bigrams.sorensen_dice_coef
        (basic_bigrams.of_string s1) (basic_bigrams.of_string s2) =
      bigram_multiset.sorensen_dice_coef
        (bigram_multiset.of_string s1) (bigram_multiset.of_string s2)).
Proof.
  assert (Hgen : forall (p q : basic_bigrams.t) (p' q' : bigram_multiset.t),
    valid p -> valid q ->
    Sorted bigram_le (basic_bigram_multiset.m_impl p') ->
    Sorted bigram_le (basic_bigram_multiset.m_impl q') ->
    counted_bag p = list_bag p' -> counted_bag q = list_bag q' ->
    basic_bigrams.size p = bigram_multiset.size p' /\
    basic_bigrams.intersect_size p q = bigram_multiset.intersect_size p' q' /\
    basic_bigrams.sorensen_dice_coef p q =
      bigram_multiset.sorensen_dice_coef p' q').
  { intros p q p' q' Hp Hq Hp' Hq' Hbp Hbq.
    assert (Hsp : basic_bigrams.size p = bigram_multiset.size p').
    { rewrite <- (counted_bag_size p Hp), Hbp. apply list_bag_size. }
    assert (Hsq : basic_bigrams.size q = bigram_multiset.size q').
    { rewrite <- (counted_bag_size q Hq), Hbq. apply list_bag_size. }
    assert (Hi : basic_bigrams.intersect_size p q =
                 bigram_multiset.intersect_size p' q').
    { rewrite (counted_intersect_size_bag p q Hp Hq), Hbp, Hbq.
      symmetry. apply (set_intersection_exact _ _ 0); assumption. }
    split; [exact Hsp|]. split; [exact Hi|].
    rewrite basic_bigrams_union.sorensen_dice_coef_formula, Hi, Hsp, Hsq.
    reflexivity. }
  split; [exact Hgen|].
  intros s1 s2. apply Hgen.
  - apply of_string_valid.
  - apply of_string_valid.
  - apply ordered_of_string_sorted.
  - apply ordered_of_string_sorted.
  - rewrite counted_bag_of_string. symmetry.
    apply list_bag_of_string, basic_bigram_multiset_facts.multiset_insert_perm.
  - rewrite counted_bag_of_string. symmetry.
    apply list_bag_of_string, basic_bigram_multiset_facts.multiset_insert_perm.
Qed.

(** [sorensen_dice_coef] and [intersect_size] do not depend on the order
    of their two arguments, in any of the three representations and
    whatever the profiles hold. *)
Theorem sorensen_dice_coef_symmetric :
  (forall p q : basic_bigrams.t,
      basic_bigrams.intersect_size p q = basic_bigrams.intersect_size q p /\
      basic_bigrams.sorensen_dice_coef p q =
        basic_bigrams.sorensen_dice_coef q p) /\
  (forall p q : basic_bigram_multiset.t,
      basic_bigram_multiset.intersect_size p q =
        basic_bigram_multiset.intersect_size q p /\
      basic_bigram_multiset.sorensen_dice_coef p q =
        basic_bigram_multiset.sorensen_dice_coef q p).
Proof.
  split.
  - intros p q. split; [apply intersect_size_sym|].
    rewrite !basic_bigrams_union.sorensen_dice_coef_formula.
    rewrite (intersect_size_sym p q). apply sdc_formula_sym.
  - intros p q. split; [apply set_intersection_sym|].
    rewrite !basic_bigram_multiset_facts.ms_sorensen_dice_coef_formula.
    unfold basic_bigram_multiset.intersect_size.
    rewrite (set_intersection_sym _ (basic_bigram_multiset.m_impl q)).
    apply sdc_formula_sym.
Qed.

(** In the counted representation the coefficient of two profiles that
    satisfy the invariant is 1 exactly when they are one and the same
    non-empty profile; the coefficient of the empty profile with itself
    is 0. *)
Theorem sorensen_dice_coef_one_iff_equal (p q : basic_bigrams.t) :
  valid p -> valid q ->
  (ge (basic_bigrams.sorensen_dice_coef p q) one <->
   p = q /\ 0 < basic_bigrams.size p) /\
  basic_bigrams.sorensen_dice_coef basic_bigrams.empty basic_bigrams.empty
    = zero.
Proof.
  intros Hp Hq. split; [|reflexivity].
  rewrite basic_bigrams_union.sorensen_dice_coef_formula.
  rewrite sdc_formula_ge_one
    by (first [apply basic_bigrams_union.intersect_size_le_l
              |apply basic_bigrams_union.intersect_size_le_r]; assumption).
  split.
  - intros (Hpos & Hfp & Hfq). split; [|lia].
    apply intersect_size_full; assumption.
  - intros [<- Hpos]. rewrite (intersect_size_self p Hp). lia.
Qed.

(** The same in the multiset representations: a non-empty profile has
    the coefficient 1 with itself, whatever its iteration order, and
    two profiles in sorted order have the coefficient 1 only when they
    are equal. *)
Theorem multiset_sorensen_dice_coef_one (p q : basic_bigram_multiset.t) :
  (0 < basic_bigram_multiset.size p ->
   ge (basic_bigram_multiset.sorensen_dice_coef p p) one) /\
  (Sorted bigram_le (basic_bigram_multiset.m_impl p) ->
   Sorted bigram_le (basic_bigram_multiset.m_impl q) ->
   ge (basic_bigram_multiset.sorensen_dice_coef p q) one -> p = q).
Proof.
  split.
  - intros Hpos. rewrite basic_bigram_multiset_facts.ms_sorensen_dice_coef_formula.
    apply sdc_formula_ge_one;
      [apply basic_bigram_multiset_facts.ms_intersect_size_le_l..|].
    unfold basic_bigram_multiset.intersect_size.
    rewrite set_intersection_self. unfold basic_bigram_multiset.size in *. lia.
  - intros Hp Hq.
    rewrite basic_bigram_multiset_facts.ms_sorensen_dice_coef_formula.
    rewrite sdc_formula_ge_one
      by first [apply basic_bigram_multiset_facts.ms_intersect_size_le_l
               |apply basic_bigram_multiset_facts.ms_intersect_size_le_r].
    unfold basic_bigram_multiset.intersect_size.
    rewrite (set_intersection_exact _ _ 0 Hp Hq). simpl.
    fold (list_bag p) (list_bag q). rewrite <- !list_bag_size.
    intros (_ & Hfp & Hfq). apply list_bag_eq; try assumption.
    apply (anti_symm (⊆)).
    + apply bag_intersection_full, Hfp.
    + apply bag_intersection_full. rewrite (comm_L (∩)). exact Hfq.
Qed.

(** The union does not depend on the order of its operands: in the
    counted representation, on profiles that satisfy the invariant,
    [a + b] and [b + a] are the same object, field by field, and so are
    [(a + b) + c] and [a + (b + c)]; the same holds of the ordered
    multiset. *)
Theorem union_commutative_associative :
  (forall a b c : basic_bigrams.t,
      valid a -> valid b -> valid c ->
      basic_bigrams.plus a b = basic_bigrams.plus b a /\
      basic_bigrams.plus_assign a b = basic_bigrams.plus_assign b a /\
      basic_bigrams.plus (basic_bigrams.plus a b) c =
        basic_bigrams.plus a (basic_bigrams.plus b c)) /\
  (forall a b c : bigram_multiset.t,
      Sorted bigram_le (basic_bigram_multiset.m_impl a) ->
      Sorted bigram_le (basic_bigram_multiset.m_impl b) ->
      Sorted bigram_le (basic_bigram_multiset.m_impl c) ->
      bigram_multiset.plus a b = bigram_multiset.plus b a /\
      bigram_multiset.plus (bigram_multiset.plus a b) c =
        bigram_multiset.plus a (bigram_multiset.plus b c)).
Proof.
  split.
  - intros a b c Ha Hb Hc.
    assert (Hplus : forall x y, basic_bigrams.plus x y =
                                basic_bigrams.plus_assign y x) by reflexivity.
    pose proof basic_bigrams_union.plus_assign_valid as Hvalid.
    split; [|split].
    + rewrite !Hplus. apply counted_bag_eq; [auto..|].
      rewrite !counted_bag_plus_assign by assumption. apply (comm_L (⊎)).
    + apply counted_bag_eq; [auto..|].
      rewrite !counted_bag_plus_assign by assumption. apply (comm_L (⊎)).
    + rewrite !Hplus. apply counted_bag_eq; [auto..|].
      rewrite !counted_bag_plus_assign by auto. apply (assoc_L (⊎)).
  - intros a b c Ha Hb Hc.
    assert (Hplus : forall x y, bigram_multiset.plus x y =
                                bigram_multiset.plus_assign y x) by reflexivity.
    pose proof ordered_plus_assign_sorted as Hsorted.
    assert (Hbag : forall x y,
      list_bag (bigram_multiset.plus_assign x y) = list_bag x ⊎ list_bag y).
    { intros x y. apply list_bag_plus_assign,
        basic_bigram_multiset_facts.multiset_insert_perm. }
    split.
    + rewrite !Hplus. apply list_bag_eq; [auto..|].
      rewrite !Hbag. apply (comm_L (⊎)).
    + rewrite !Hplus. apply list_bag_eq; [auto..|].
      rewrite !Hbag. apply (assoc_L (⊎)).
Qed.

(** [b += b]: for every non-empty profile the call returns, with every
    count doubled and [m_size] grown by twice the counts.  On a profile
    that satisfies the invariant [m_size] comes out as three times the
    size while the counts sum to twice the size, so the result never
    satisfies the invariant. *)
Theorem self_union_triples_size (fuel : nat) (p : basic_bigrams.t) :
  valid p -> 0 < basic_bigrams.size p ->
  length (basic_bigrams.m_impl p) + 2 <= fuel ->
  exists p',
    basic_bigrams.plus_assign_self fuel p = Some p' /\
    basic_bigrams.m_impl p' = map doubled (basic_bigrams.m_impl p) /\
    (forall b, basic_bigrams.count b p' = 2 * basic_bigrams.count b p) /\
    basic_bigrams.size p' = 3 * basic_bigrams.size p /\
    basic_bigrams.sum_counts (basic_bigrams.m_impl p')
      = 2 * basic_bigrams.size p /\
    ~ valid p'.
Proof.
  intros Hp Hpos Hfuel. eexists. split.
  { apply plus_assign_self_doubles; [lia|exact Hfuel]. }
  pose proof (valid_size p Hp) as Hsize. unfold basic_bigrams.size in *.
  split; [reflexivity|]. split; [intros b; apply count_in_doubled|].
  simpl. rewrite sum_counts_doubled.
  split; [lia|]. split; [lia|].
  intros [_ _ Hbad]. simpl in Hbad. rewrite sum_counts_doubled in Hbad. lia.
Qed.

End profile_properties.

Section hash_properties.

Import hash_bigram hash_bigram_facts.

Local Open Scope Z_scope.

(** [hash_bigram<Char, true>], the hash chosen when two characters fit
    in a [size_t], puts the two characters side by side: on bigrams of
    characters that are not negative it is injective, the second
    character being the hash shifted right and the first its low
    bits. *)
Theorem hash_bigram_injective (sizeof_char sizeof_size_t : Z)
    (b1 b2 : bigram_t) :
  0 < sizeof_char -> 2 * sizeof_char <= sizeof_size_t ->
  0 <= b1.1 < 2 ^ (8 * sizeof_char) -> 0 <= b1.2 < 2 ^ (8 * sizeof_char) ->
  0 <= b2.1 < 2 ^ (8 * sizeof_char) -> 0 <= b2.2 < 2 ^ (8 * sizeof_char) ->
  hash sizeof_char sizeof_size_t b1 = hash sizeof_char sizeof_size_t b2 ->
  b1 = b2.
Proof.
  intros Hc Hfit H11 H12 H21 H22 Hhash.
  destruct (hash_concat sizeof_char sizeof_size_t Hc Hfit b1 H11 H12)
    as (_ & Hhi1 & Hlo1).
  destruct (hash_concat sizeof_char sizeof_size_t Hc Hfit b2 H21 H22)
    as (_ & Hhi2 & Hlo2).
  rewrite Hhash in Hhi1, Hlo1. destruct b1, b2. simpl in *. congruence.
Qed.

(** Where [Char] is signed, a negative first character is sign-extended
    by the conversion to [size_t] and covers the bits of the second:
    the hash of such a bigram is the converted first character alone,
    so all bigrams with that first character collide. *)
Theorem hash_bigram_negative_first (sizeof_char sizeof_size_t : Z)
    (c c' c'' : char_t) :
  0 < sizeof_char -> 2 * sizeof_char <= sizeof_size_t ->
  - 2 ^ (8 * sizeof_char - 1) <= c < 0 ->
  hash sizeof_char sizeof_size_t (c, c') = to_size_t sizeof_size_t c /\
  hash sizeof_char sizeof_size_t (c, c') =
    hash sizeof_char sizeof_size_t (c, c'').
Proof.
  intros Hc Hfit Hneg.
  rewrite !(hash_negative sizeof_char sizeof_size_t Hc Hfit) by exact Hneg.
  split; reflexivity.
Qed.

End hash_properties.

(** * Further properties of the matcher *)

Section match_properties.

Import basic_sequence_matcher matcher_spec.
Import matrix_facts iterator_facts iterator_more_facts pruning_facts.

Context {B : Type} `{BigramsLaws B}.

(** A lookup outside the triangle fails the bounds assertion of
    [bigrams_size] and [bigrams], whatever the matrix has cached; so
    does dereferencing an iterator that stands at the end. *)
Theorem lookup_outside_triangle_fails (eval_right_first : bool) (m : t)
    (toks : list B) (i j : nat) :
  holds m toks -> length toks <= i + j ->
  run (bigrams_size eval_right_first i j) m = None /\
  run (bigrams eval_right_first i j) m = None /\
  forall it : iterator (B:=B),
    length toks <= m_j it -> deref eval_right_first it m = None.
Proof.
  intros Hm Hij. split; [|split].
  - apply (bigrams_size_outside toks); assumption.
  - apply (bigrams_outside toks); assumption.
  - intros it Hj. apply (bigrams_outside toks); [exact Hm|lia].
Qed.

(** The iterators a caller gets for the query [q] and the threshold
    [threshold]: what [begin] returns, and what [operator ++] returns
    for such an iterator that is not at the end. *)
Inductive reported (toks : list B) (strip_ixs : gset nat) (q : B)
    (threshold : double) : iterator (B:=B) -> Prop :=
| reported_begin (eval_right_first : bool) (m m' : t) (it : iterator) :
    holds m toks -> m_strip_ixs m = strip_ixs ->
    begin eval_right_first q threshold m = Some (it, m') ->
    reported toks strip_ixs q threshold it
| reported_incr (eval_right_first : bool) (m m' : t) (it it' : iterator) :
    reported toks strip_ixs q threshold it -> m_j it < length toks ->
    holds m toks -> m_strip_ixs m = strip_ixs ->
    incr eval_right_first it m = Some (it', m') ->
    reported toks strip_ixs q threshold it'.

Lemma reported_inv (toks : list B) (strip_ixs : gset nat) (q : B)
    (threshold : double) (it : iterator) :
  reported toks strip_ixs q threshold it ->
  Forall bg_valid toks /\
  same_query (initial q threshold 0 0) it /\
  placed toks strip_ixs it /\
  (m_j it < length toks ->
   scored toks it /\ ltb (m_sdc it) (m_sdc_threshold it) = false /\
   m_j it + m_i it ∉ strip_ixs).
Proof.
  induction 1 as [rtl m m' it Hm Hs Hb
                 |rtl m m' it it' _ IH Hj Hm Hs Hi].
  - destruct (begin_yields rtl toks m q threshold Hm) as (m1 & Hb' & _).
    rewrite Hb in Hb'. injection Hb' as -> _. rewrite Hs.
    split; [apply (wf_valid _ _ Hm)|].
    destruct (pure_begin_scan toks strip_ixs q threshold)
      as (Hsame & Hplaced & _).
    split; [exact Hsame|]. split; [exact Hplaced|].
    apply (pure_outer_scored toks strip_ixs). simpl. lia.
  - destruct (incr_yields rtl toks m it Hm) as (m1 & Hi' & _).
    rewrite Hi in Hi'. injection Hi' as -> _. rewrite Hs.
    destruct IH as (Hvalid & Hsame & Hplaced & _).
    split; [exact Hvalid|].
    assert (Hcell : at_cell toks strip_ixs it).
    { destruct Hplaced as [[_ Hend]|Hcell]; [lia|exact Hcell]. }
    destruct (pure_incr_scan toks strip_ixs it Hcell)
      as (Hsame' & Hplaced' & _).
    split; [eapply same_query_trans; eassumption|].
    split; [exact Hplaced'|].
    apply (pure_outer_scored toks strip_ixs). reflexivity.
Qed.

(** What a caller reads off an iterator that is not at the end: the
    window [begin(), end()) lies within the sequence and is not empty,
    its first and its last token are no strip tokens,
    [sorensen_dice_coef()] is the coefficient of the window's profile
    against the query and is not below the threshold, and [operator *]
    returns that profile, the union of the tokens of the window. *)
Theorem reported_match_accessors (toks : list B) (strip_ixs : gset nat)
    (q : B) (threshold : double) (it : iterator) :
  reported toks strip_ixs q threshold it -> m_j it < length toks ->
  match_begin it < match_end it /\ match_end it <= length toks /\
  match_end it - match_begin it = match_size it /\
  (match_begin it ∉ strip_ixs) /\ (match_end it - 1 ∉ strip_ixs) /\
  match_sdc it =
    bg_sorensen_dice_coef
      (union_at toks (match_size it - 1) (match_begin it)) q /\
  ltb (match_sdc it) threshold = false /\
  (forall theta, threshold = Fin theta -> bg_valid q ->
                 ge (match_sdc it) (Fin theta)) /\
  forall (eval_right_first : bool) (m : t),
    holds m toks ->
    exists p,
      yields toks m (deref eval_right_first it m) p /\
      p = union_at toks (match_size it - 1) (match_begin it) /\
      bg_size p = sum_list_with bg_size (window toks (m_i it) (m_j it)) /\
      forall x,
        bg_count x p =
          sum_list_with (bg_count x) (window toks (m_i it) (m_j it)).
Proof.
  intros Hrep Hj.
  destruct (reported_inv _ _ _ _ _ Hrep)
    as (Hvalid & (Hq & Hth & _) & Hplaced & Hscored).
  destruct (Hscored Hj) as (Hsdc & Hge & Hlast).
  assert (Hcell : at_cell toks strip_ixs it).
  { destruct Hplaced as [[_ Hend]|Hcell]; [lia|exact Hcell]. }
  destruct Hcell as [Hij Hfirst].
  unfold match_end, match_begin, match_size, match_sdc.
  replace (m_i it + 1 - 1) with (m_i it) by lia.
  replace (m_j it + (m_i it + 1) - 1) with (m_j it + m_i it) by lia.
  unfold scored in Hsdc. simpl in Hq, Hth. rewrite Hq in Hsdc.
  rewrite Hth in Hge.
  split; [lia|]. split; [lia|]. split; [lia|].
  split; [exact Hfirst|]. split; [exact Hlast|].
  split; [exact Hsdc|]. split; [exact Hge|]. split.
  - intros theta -> Hqv. rewrite Hsdc in Hge |- *.
    destruct (sdc_at toks q (m_i it) (m_j it) Hvalid Hqv Hij)
      as (isect & Ha & Hb & Hval).
    rewrite Hval in Hge |- *. rewrite sdc_formula_value in Hge |- * by assumption.
    apply ltb_Fin_false in Hge. exact Hge.
  - intros rtl m Hm. exists (union_at toks (m_i it) (m_j it)).
    split; [apply profile_at_yields; assumption|]. split; [reflexivity|].
    destruct (union_at_spec toks Hvalid (m_i it) (m_j it) Hij)
      as (_ & Hs & Hc).
    split; [exact Hs|exact Hc].
Qed.


(** Where every token is a strip token, and so in a matcher without
    tokens, there is no match: [begin] returns an iterator equal to
    [end()], whatever the query and whatever the threshold, be it zero,
    negative or no number at all. *)
Theorem no_match_among_strip_tokens (eval_right_first : bool) (m : t)
    (toks : list B) (q : B) (threshold : double) :
  holds m toks -> (forall j, j < length toks -> j ∈ m_strip_ixs m) ->
  (exists it e m1 m2,
      begin eval_right_first q threshold m = Some (it, m1) /\
      end_ eval_right_first m1 = Some (e, m2) /\
      position it = (0, length toks) /\ iter_eq it e = true) /\
  all_matches eval_right_first q threshold m = Some [] /\
  (exists it e m1 m2,
      begin eval_right_first q threshold empty = Some (it, m1) /\
      end_ eval_right_first m1 = Some (e, m2) /\ iter_eq it e = true).
Proof.
  assert (Hgen : forall (m : t) (toks : list B),
    holds m toks -> (forall j, j < length toks -> j ∈ m_strip_ixs m) ->
    (exists it e m1 m2,
        begin eval_right_first q threshold m = Some (it, m1) /\
        end_ eval_right_first m1 = Some (e, m2) /\
        position it = (0, length toks) /\ iter_eq it e = true) /\
    all_matches eval_right_first q threshold m = Some []).
  { clear m toks. intros m toks Hm Hstrip.
    pose proof (pure_begin_strip toks (m_strip_ixs m) q threshold Hstrip)
      as Hbegin.
    split.
    - destruct (begin_yields eval_right_first toks m q threshold Hm)
        as (m1 & Hb & Hm1 & Hs1).
      destruct (end_yields eval_right_first toks m1 Hm1)
        as (m2 & He & _).
      eexists _, _, m1, m2. split; [exact Hb|]. split; [exact He|].
      rewrite Hbegin, pure_end_eq. split; [reflexivity|].
      unfold iter_eq. simpl. rewrite Nat.eqb_refl. reflexivity.
    - rewrite (all_matches_pure eval_right_first toks m q threshold Hm).
      rewrite Hbegin, pure_end_eq. cbn [pure_collect].
      unfold iter_eq. simpl. rewrite Nat.eqb_refl. reflexivity. }
  intros Hm Hstrip. destruct (Hgen m toks Hm Hstrip) as [Hb Hall].
  split; [exact Hb|]. split; [exact Hall|].
  destruct (Hgen empty [] holds_empty) as [(it & e & m1 & m2 & Hb' & He' & _ & Heq) _].
  { simpl. intros j Hj. lia. }
  exists it, e, m1, m2. auto.
Qed.

(** The comparison operators of the iterator order the positions by
    [j], then by [i]: [operator <] is that strict order, exactly one of
    [a < b], [a == b], [a > b] holds, [a <= b] is [a < b || a == b] and
    [a >= b] is [b <= a].  An iterator that a caller gets is never
    beyond [end()], and differs from it exactly when it is below it. *)
Theorem iterator_order (toks : list B) (strip_ixs : gset nat) :
  (forall a b : iterator (B:=B),
      (iter_lt a b = true <-> lex_lt (position a) (position b)) /\
      (iter_eq a b = true <-> position a = position b) /\
      iter_ne a b = negb (iter_eq a b) /\
      iter_le a b = iter_lt a b || iter_eq a b /\
      iter_ge a b = iter_le b a /\
      (iter_lt a b = true /\ iter_eq a b = false /\ iter_gt a b = false \/
       iter_lt a b = false /\ iter_eq a b = true /\ iter_gt a b = false \/
       iter_lt a b = false /\ iter_eq a b = false /\ iter_gt a b = true)) /\
  (forall a b c : iterator (B:=B),
      iter_lt a b = true -> iter_lt b c = true -> iter_lt a c = true) /\
  (forall (q : B) (threshold : double) (it e : iterator) (m m' : t)
          (eval_right_first : bool),
      reported toks strip_ixs q threshold it ->
      holds m toks -> end_ eval_right_first m = Some (e, m') ->
      iter_le it e = true /\ iter_ne it e = iter_lt it e).
Proof.
  assert (Hcases : forall a b : iterator (B:=B),
    iter_lt a b = true /\ iter_eq a b = false /\ iter_gt a b = false \/
    iter_lt a b = false /\ iter_eq a b = true /\ iter_gt a b = false \/
    iter_lt a b = false /\ iter_eq a b = false /\ iter_gt a b = true).
  { intros a b. unfold iter_gt, iter_lt, iter_eq.
    destruct (Nat.ltb_spec (m_j a) (m_j b)), (Nat.ltb_spec (m_j b) (m_j a)),
      (Nat.ltb_spec (m_i a) (m_i b)), (Nat.ltb_spec (m_i b) (m_i a)),
      (Nat.eqb_spec (m_i a) (m_i b)), (Nat.eqb_spec (m_j a) (m_j b));
      simpl; try lia; auto. }
  split; [|split].
  - intros a b. split; [apply iter_lt_lex|]. split; [apply iter_eq_position|].
    split; [reflexivity|]. split; [|split; [reflexivity|apply Hcases]].
    unfold iter_le.
    destruct (Hcases a b) as [(-> & -> & ->)|[(-> & -> & ->)|(-> & -> & ->)]];
      reflexivity.
  - intros a b c. rewrite !iter_lt_lex. unfold lex_lt. lia.
  - intros q threshold it e m m' rtl Hrep Hm He.
    destruct (end_yields rtl toks m Hm) as (m2 & He' & _).
    rewrite He in He'. injection He' as -> _.
    destruct (reported_inv _ _ _ _ _ Hrep) as (_ & _ & Hplaced & _).
    unfold iter_le, iter_ne, iter_gt, iter_lt, iter_eq.
    rewrite pure_end_eq. simpl.
    destruct Hplaced as [[Hi Hj]|[Hij _]].
    + rewrite Hi, Hj, !Nat.ltb_irrefl, !Nat.eqb_refl. split; reflexivity.
    + destruct (Nat.ltb_spec (length toks) (m_j it)); [lia|].
      destruct (Nat.ltb_spec (m_j it) (length toks)); [|lia].
      destruct (Nat.eqb_spec (m_j it) (length toks)); [lia|].
      rewrite andb_false_r. split; reflexivity.
Qed.

(** A matcher filled by [emplace_back] alone holds the profiles of the
    strings in their order; [size()] is their number, and the strip
    indices are the positions of the strings appended with the strip
    flag. *)
Theorem emplace_back_builds_matcher (strs : list (string_t * bool)) :
  let m := fold_left (fun m tok => emplace_back tok.1 tok.2 m) strs empty in
  holds m (bg_of_string <$> strs.*1) /\
  size m = length strs /\
  forall k, k ∈ m_strip_ixs m <-> strs.*2 !! k = Some true.
Proof.
  induction strs as [|[s strip] strs IH] using rev_ind.
  - simpl. split; [apply holds_empty|]. split; [reflexivity|].
    intros k. rewrite lookup_nil, elem_of_empty. split; [tauto|discriminate].
  - rewrite fold_left_app. cbv zeta in IH |- *. simpl.
    set (m := fold_left (fun m tok => emplace_back tok.1 tok.2 m) strs empty)
      in *.
    destruct IH as (Hm & Hsize & Hstrip).
    assert (Hm' : holds (emplace_back s strip m)
                    (bg_of_string <$> (strs ++ [(s, strip)]).*1)).
    { rewrite !fmap_app. simpl. apply holds_push_back; [exact Hm|].
      apply bg_of_string_valid. }
    split; [exact Hm'|]. split.
    { rewrite (holds_size _ _ Hm'), !length_fmap. reflexivity. }
    intros k. rewrite fmap_app.
    etrans; [apply (push_back_strip_ixs (bg_of_string s) strip m k)|].
    rewrite Hstrip. simpl.
    assert (Hlen : length strs.*2 = size m) by (rewrite length_fmap; lia).
    destruct (Nat.lt_trichotomy k (size m)) as [Hk|[->|Hk]].
    + rewrite lookup_app_l by lia. intuition lia.
    + rewrite lookup_app_r by lia. rewrite Hlen, Nat.sub_diag. simpl.
      rewrite (lookup_ge_None_2 strs.*2 (size m)) by lia.
      destruct strip; intuition congruence.
    + rewrite lookup_app_r by lia.
      rewrite (lookup_ge_None_2 strs.*2 k) by lia.
      rewrite lookup_ge_None_2 by (simpl; lia). intuition (discriminate || lia).
Qed.


(** [push_back] on a matcher that has answered lookups before keeps the
    matrix consistent for the longer sequence, and the matches among
    the earlier tokens stay what they were: a window that ends before
    the new token is reported after the [push_back] exactly when it was
    before. *)
Theorem push_back_keeps_earlier_matches (eval_right_first : bool) (m : t)
    (toks : list B) (b : B) (strip : bool) (q : B) (theta : Q) :
  holds m toks -> bg_valid b -> bg_valid q -> (0 < theta)%Q ->
  holds (push_back b strip m) (toks ++ [b]) /\
  size (push_back b strip m) = S (size m) /\
  (forall k,
      k ∈ m_strip_ixs (push_back b strip m) <->
      (strip = true /\ k = length toks) \/ k ∈ m_strip_ixs m) /\
  exists l l',
    all_matches eval_right_first q (Fin theta) m = Some l /\
    all_matches eval_right_first q (Fin theta) (push_back b strip m)
      = Some l' /\
    forall i j, i + j < length toks -> (i, j) ∈ l' <-> (i, j) ∈ l.
Proof.
  intros Hm Hb Hq Hth.
  pose proof (holds_push_back m toks b strip Hm Hb) as Hm'.
  pose proof (holds_size _ _ Hm) as Hsize.
  pose proof (holds_size _ _ Hm') as Hsize'.
  assert (Hstrip : forall k,
    k ∈ m_strip_ixs (push_back b strip m) <->
    (strip = true /\ k = length toks) \/ k ∈ m_strip_ixs m).
  { intros k. rewrite push_back_strip_ixs, Hsize. reflexivity. }
  split; [exact Hm'|]. split; [rewrite Hsize', length_app; simpl; lia|].
  split; [exact Hstrip|].
  eexists _, _. split; [|split].
  - rewrite (all_matches_pure eval_right_first toks m q (Fin theta) Hm).
    apply pure_all_matches_exact; [assumption..|apply (wf_valid _ _ Hm)].
  - rewrite (all_matches_pure eval_right_first _ _ q (Fin theta) Hm').
    apply pure_all_matches_exact; [assumption..|apply (wf_valid _ _ Hm')].
  - intros i j Hij. rewrite !elem_of_spec_matches. simpl.
    rewrite (is_match_app toks (m_strip_ixs m) [b] _ q (Fin theta) i j Hij).
    + rewrite length_app. simpl. intuition lia.
    + intros k Hk. rewrite Hstrip. intuition lia.
Qed.

(** Raising the threshold only removes matches: what is reported at
    the higher threshold is a sub-sequence, in the same order, of what
    is reported at the lower one. *)
Theorem higher_threshold_fewer_matches (eval_right_first : bool) (m : t)
    (toks : list B) (q : B) (theta1 theta2 : Q) :
  holds m toks -> bg_valid q -> (0 < theta1)%Q -> (theta1 <= theta2)%Q ->
  exists l1 l2,
    all_matches eval_right_first q (Fin theta1) m = Some l1 /\
    all_matches eval_right_first q (Fin theta2) m = Some l2 /\
    sublist l2 l1.
Proof.
  intros Hm Hq Hth1 Hle. pose proof (wf_valid _ _ Hm) as Htoks.
  assert (Hth2 : (0 < theta2)%Q) by lra.
  eexists _, _. split; [|split].
  - rewrite (all_matches_pure eval_right_first toks m q (Fin theta1) Hm).
    apply pure_all_matches_exact; assumption.
  - rewrite (all_matches_pure eval_right_first toks m q (Fin theta2) Hm).
    apply pure_all_matches_exact; assumption.
  - unfold spec_matches. apply filter_sublist_mono. intros c Hc.
    apply (is_match_threshold_mono toks); try assumption.
    rewrite cells_facts.cells_from_origin in Hc.
    apply cells_facts.elem_of_cells_from in Hc. lia.
Qed.

End match_properties.

Section sequence_matcher_properties.

Import basic_sequence_matcher matcher_spec.
Import matrix_facts iterator_facts iterator_more_facts pruning_facts.
Import basic_bigrams_facts basic_bigrams_exact.

(** In [sequence_matcher], the matcher over the counted representation:
    a query that holds exactly the bigrams of the tokens of a window is
    reported at that window for every threshold in (0, 1], provided the
    first and the last token of the window are no strip tokens.  The
    profile of the window is then the query itself, whatever the order
    in which the query was united. *)
Theorem exact_window_is_reported (eval_right_first : bool)
    (m : t (B:=basic_bigrams.t)) (toks : list basic_bigrams.t)
    (q : basic_bigrams.t) (theta : Q) (i j : nat) :
  holds m toks -> valid q -> 0 < basic_bigrams.size q ->
  (0 < theta <= 1)%Q ->
  i + j < length toks ->
  j ∉ m_strip_ixs m -> j + i ∉ m_strip_ixs m ->
  (forall b,
      basic_bigrams.count b q =
        sum_list_with (basic_bigrams.count b) (window toks i j)) ->
  union_at toks i j = q /\
  ge (basic_bigrams.sorensen_dice_coef (union_at toks i j) q) one /\
  exists l,
    all_matches eval_right_first q (Fin theta) m = Some l /\ (i, j) ∈ l.
Proof.
  intros Hm Hq Hpos [Hth Hth1] Hij Hb He Hcount.
  pose proof (wf_valid _ _ Hm) as Htoks.
  destruct (union_at_spec toks Htoks i j Hij) as (Hv & _ & Hc).
  assert (Heq : union_at toks i j = q).
  { apply valid_counts_eq; [exact Hv|exact Hq|].
    intros b. rewrite Hcount. apply Hc. }
  assert (Hone : ge (basic_bigrams.sorensen_dice_coef q q) one).
  { rewrite basic_bigrams_union.sorensen_dice_coef_formula.
    rewrite (intersect_size_self q Hq).
    apply sdc_formula_ge_one; lia. }
  split; [exact Heq|]. split; [rewrite Heq; exact Hone|].
  eexists. split.
  - rewrite (all_matches_pure eval_right_first toks m q (Fin theta) Hm).
    apply pure_all_matches_exact; assumption.
  - apply elem_of_spec_matches. simpl. split; [exact Hij|].
    apply is_match_spec; try assumption.
    split; [exact Hb|]. split; [exact He|].
    change (bg_sorensen_dice_coef (union_at toks i j) q)
      with (basic_bigrams.sorensen_dice_coef (union_at toks i j) q).
    rewrite Heq. revert Hone.
    rewrite basic_bigrams_union.sorensen_dice_coef_formula,
      (intersect_size_self q Hq), sdc_formula_value by lia.
    simpl. intros Hone. lra.
Qed.

End sequence_matcher_properties.

Section cache_properties.

Import basic_sequence_matcher cache_facts.

Context {B : Type} `{Bigrams B}.

(** A lookup that has returned a value returns the same value when it
    is asked again, from the cache, and leaves the matrix as it is:
    so [bigrams] and so [bigrams_size], on any matrix. *)
Theorem lookup_again_hits_cache (eval_right_first : bool) (m m' : t)
    (i j : nat) :
  (forall p,
      run (bigrams eval_right_first i j) m = Some (p, m') ->
      run (bigrams eval_right_first i j) m' = Some (p, m')) /\
  (forall n,
      run (bigrams_size eval_right_first i j) m = Some (n, m') ->
      run (bigrams_size eval_right_first i j) m' = Some (n, m')).
Proof.
  split.
  - intros p. unfold run.
    destruct (bigrams eval_right_first i j (m_mx m)) as [[p' mx']|] eqn:Hfirst;
      [|discriminate].
    intros [= -> <-]. simpl.
    rewrite (bigrams_again eval_right_first i j _ _ _ Hfirst). reflexivity.
  - intros n. unfold run.
    destruct (bigrams_size eval_right_first i j (m_mx m)) as [[n' mx']|]
      eqn:Hfirst; [|discriminate].
    intros [= -> <-]. simpl.
    rewrite (bigrams_size_again eval_right_first i j _ _ _ Hfirst).
    reflexivity.
Qed.

(** [bigrams_size] builds no profile: whatever cell holds bigrams after
    the call held the same bigrams before it, and the strip indices are
    untouched.  The sizes that the pruning test of [next_match] asks for
    cost no union. *)
Theorem size_lookup_builds_no_profile (eval_right_first : bool) (m m' : t)
    (i j n : nat) :
  run (bigrams_size eval_right_first i j) m = Some (n, m') ->
  m_strip_ixs m' = m_strip_ixs m /\
  forall i' j' b,
    get_cell i' j' (m_mx m') = Some (BIGRAMS b, m_mx m') ->
    get_cell i' j' (m_mx m) = Some (BIGRAMS b, m_mx m).
Proof.
  unfold run.
  destruct (bigrams_size eval_right_first i j (m_mx m)) as [[n' mx']|]
    eqn:Hcall; [|discriminate].
  intros [= -> <-]. simpl. split; [reflexivity|].
  apply (bigrams_size_rec_no_new eval_right_first _ _ _ _ _ _ Hcall).
Qed.

End cache_properties.

Section zero_threshold.

Import basic_sequence_matcher matcher_spec cells_facts.
Import matrix_facts iterator_facts unpruned_facts.

Context {B : Type} `{BigramsLaws B}.

(** The threshold 0.0, which the constructor accepts: the ratio
    threshold [2.0 / 0.0 - 1.0] is +inf, so nothing is pruned, and no
    coefficient is below 0; the iteration reports every window of the
    triangle whose first and last token are no strip tokens, in
    ascending order of (j, i). *)
Theorem zero_threshold_reports_every_window (eval_right_first : bool)
    (m : t) (toks : list B) (q : B) :
  holds m toks -> bg_valid q ->
  sub (div two zero) one = PInf /\
  all_matches eval_right_first q zero m =
    Some (filter (fun c => (c.2 ∉ m_strip_ixs m) /\
                           (c.2 + c.1 ∉ m_strip_ixs m))
                 (cells (length toks))).
Proof.
  intros Hm Hq. pose proof (wf_valid _ _ Hm) as Htoks.
  split; [reflexivity|].
  rewrite (all_matches_pure eval_right_first toks m q zero Hm).
  rewrite pure_all_matches_open by (intros [x| | |]; reflexivity).
  f_equal. unfold spec_matches. apply filter_ext_in. intros c Hc.
  rewrite cells_from_origin in Hc. apply elem_of_cells_from in Hc.
  assert (Hij : c.1 + c.2 < length toks) by lia.
  unfold zero. rewrite (is_match_spec toks) by assumption.
  destruct (sdc_at toks q c.1 c.2 Htoks Hq Hij) as (isect & Ha & Hb & ->).
  rewrite sdc_formula_value by assumption. simpl.
  pose proof (sdc_value_range isect (size_sum toks c.1 c.2) (bg_size q) Hb Ha).
  tauto.
Qed.

End zero_threshold.

(** * Where the code departs from its documentation *)

(** ** Inputs *)

Module binary64_test.
Import basic_sequence_matcher.

(** [matcher.emplace_back("abcdef")], the query [bigrams("abcd")] and the
    threshold [0.75], which is 3 * 2^-2. *)
Definition token : basic_bigrams.t := basic_bigrams.of_string (str "abcdef").

Definition text : t := emplace_back (str "abcdef") false empty.

Definition query : basic_bigrams.t := basic_bigrams.of_string (str "abcd").

Definition threshold : binary64.double := binary64.scaled 3 (-2).

(** The unit test of the matcher, run in binary64 with the double
    nearest to 0.7: the one match, tokens 3 to 5, as the test expects. *)
Example unit_test_binary64 :
  binary64.all_matches false unit_test.query
    (binary64.div (binary64.scaled 7 0) (binary64.scaled 10 0))
    unit_test.text
  = Some [(2, 3)].
Proof. vm_compute. reflexivity. Qed.

(** On the same text the two arithmetics agree where the threshold is
    0.0, where it is above 1, and where the query is empty. *)
Example zero_threshold_binary64 :
  binary64.all_matches false unit_test.query binary64.zero unit_test.text
  = matcher_spec.all_matches false unit_test.query zero unit_test.text.
Proof. vm_compute. reflexivity. Qed.

Example high_threshold_binary64 :
  binary64.all_matches false unit_test.query (binary64.scaled 3 (-1))
    unit_test.text
  = matcher_spec.all_matches false unit_test.query (Fin (3 # 2))
      unit_test.text.
Proof. vm_compute. reflexivity. Qed.

Example empty_query_binary64 :
  binary64.all_matches false basic_bigrams.empty (binary64.scaled 1 (-1))
    unit_test.text
  = matcher_spec.all_matches false basic_bigrams.empty (Fin (1 # 2))
      unit_test.text.
Proof. vm_compute. reflexivity. Qed.

End binary64_test.

(** ** The ordered multiset united with itself *)

Module self_union_facts.
Import basic_bigram_multiset.

(** An insertion of the element under the iterator leaves the container
    as it was up to the iterator. *)
Lemma multiset_insert_behind (l : list bigram_t) :
  forall pos bigram,
    Sorted bigram_le l -> l !! pos = Some bigram ->
    take (S pos) (multiset_insert bigram l) = take (S pos) l.
Proof.
  induction l as [|x l IH]; intros pos bigram Hs Hpos; [discriminate|].
  apply Sorted_StronglySorted in Hs;
    [|intros a b c; apply bigram_nlt_trans].
  inversion Hs as [|? ? Hl Hx]; subst.
  cbn [multiset_insert]. destruct pos as [|pos].
  - injection Hpos as ->. rewrite bigram_ltb_irrefl. reflexivity.
  - cbn [lookup list_lookup] in Hpos.
    assert (Hle : bigram_le x bigram).
    { rewrite Forall_forall in Hx. apply Hx.
      eapply list_elem_of_lookup_2, Hpos. }
    unfold bigram_le in Hle. rewrite Hle.
    cbn [take]. f_equal. apply IH; [|exact Hpos].
    apply StronglySorted_Sorted, Hl.
Qed.

(** The container grows as fast as the iterator moves. *)
Lemma self_insert_never_returns (fuel : nat) :
  forall impl pos,
    pos < length impl -> bigram_multiset.self_insert fuel impl pos = None.
Proof.
  induction fuel as [|fuel IH]; intros impl pos Hpos; [reflexivity|].
  cbn [bigram_multiset.self_insert].
  destruct (lookup_lt_is_Some_2 impl pos Hpos) as [bigram ->].
  apply IH.
  rewrite (Permutation_length
             (basic_bigram_multiset_facts.multiset_insert_perm bigram impl)).
  simpl. lia.
Qed.

End self_union_facts.

Section departures.

Import basic_bigrams_facts basic_bigrams_exact bag_facts.

(** C2, at an input where the code breaks it.  One token, "abcdef", the
    query "abcd" and the threshold 0.75.  The profile of the only window
    has 5 bigrams and the query 3, all of them shared: the coefficient
    is 2 * 3 / (5 + 3) = 0.75, exactly so also as the code computes it,
    and it is not below the threshold; no token is a strip token.  But
    the bound [2.0 / 0.75 - 1.0] comes out as 7505999378950826 * 2^-52,
    one unit in the last place below the ratio [5.0 / 3.0], which is
    7505999378950827 * 2^-52.  So [card_ratio > m_card_ratio_threshold]
    holds, the window is not the shorter side, and [next_match] breaks:
    [begin] is at (0, 1) and equal to [end()], and the loop of a caller
    reports nothing.  The cell is skipped by the pruning and its
    coefficient is not below the threshold.  At the next double below
    0.75 the code reports the cell, with the coefficient 0.75; and with
    the bound and the ratio computed without rounding it is reported at
    0.75 as well. *)
Theorem pruning_drops_match_at_threshold (eval_right_first : bool) :
  let token := binary64_test.token in
  let text := binary64_test.text in
  let query := binary64_test.query in
  let theta := binary64_test.threshold in
  matcher_spec.holds text [token] /\
  basic_sequence_matcher.run
    (basic_sequence_matcher.bigrams eval_right_first 0 0) text
    = Some (token, text) /\
  (0 ∉ basic_sequence_matcher.m_strip_ixs text) /\
  basic_bigrams.size token = 5 /\
  basic_bigrams.size query = 3 /\
  basic_bigrams.intersect_size token query = 3 /\
  binary64.sorensen_dice_coef token query = theta /\
  binary64.ltb (binary64.sorensen_dice_coef token query) theta = false /\
  basic_bigrams.sorensen_dice_coef token query = Fin (6 # 8) /\
  binary64.sub (binary64.div binary64.two theta) binary64.one
    = S754_finite false 7505999378950826 (-52) /\
  binary64.div (binary64.of_size_t 5) (binary64.of_size_t 3)
    = S754_finite false 7505999378950827 (-52) /\
  binary64.gtb (binary64.div (binary64.of_size_t 5) (binary64.of_size_t 3))
    (binary64.sub (binary64.div binary64.two theta) binary64.one) = true /\
  (exists it e m1 m2,
      binary64.begin eval_right_first query theta text = Some (it, m1) /\
      binary64.end_ eval_right_first m1 = Some (e, m2) /\
      binary64.position it = (0, 1) /\
      binary64.iter_eq it e = true) /\
  binary64.all_matches eval_right_first query theta text = Some [] /\
  (exists it m1,
      binary64.begin eval_right_first query
        (SFpred binary64.prec binary64.emax theta) text = Some (it, m1) /\
      binary64.position it = (0, 0) /\
      binary64.m_sdc it = theta) /\
  matcher_spec.all_matches eval_right_first query (Fin (3 # 4)) text
    = Some [(0, 0)].
Proof.
  cbv zeta. split.
  { apply (matrix_facts.holds_of_tokens [(binary64_test.token, false)]).
    repeat constructor; apply of_string_valid. }
  split; [destruct eval_right_first; vm_compute; reflexivity|].
  split; [vm_compute; discriminate|].
  do 9 (split; [vm_compute; reflexivity|]).
  split.
  { destruct eval_right_first; eexists _, _, _, _;
      (split; [vm_compute; reflexivity|]);
      (split; [vm_compute; reflexivity|]); split; reflexivity. }
  split; [destruct eval_right_first; vm_compute; reflexivity|].
  split.
  { destruct eval_right_first; eexists _, _;
      (split; [vm_compute; reflexivity|]); split; reflexivity. }
  destruct eval_right_first; vm_compute; reflexivity.
Qed.

(** C3, at an input where the code breaks it.  "banana" and "bandana"
    as [unordered_bigram_multiset]: the two hash tables iterate in the
    orders na na an an ba and da na an an nd ba.  The two multisets
    share an twice, ba and na, so the intersection has 4 elements.
    [std::set_intersection] walks the two orders as if they were sorted
    and counts 1: [intersect_size] returns 1 and [sorensen_dice_coef]
    2/11, below the 2 * 4 / (5 + 6) = 8/11 of the formula.  On the same
    strings the ordered multiset and the counted representation return
    4 and 8/11. *)
Theorem unordered_intersect_size_undercounts :
  let h := bucket_table.layout 13 in
  let banana := unordered_bigram_multiset.of_string h (str "banana") in
  let bandana := unordered_bigram_multiset.of_string h (str "bandana") in
  let an : bigram_t := (97, 110)%Z in
  let ba : bigram_t := (98, 97)%Z in
  let da : bigram_t := (100, 97)%Z in
  let na : bigram_t := (110, 97)%Z in
  let nd : bigram_t := (110, 100)%Z in
  basic_bigram_multiset.m_impl banana = [na; na; an; an; ba] /\
  basic_bigram_multiset.m_impl bandana = [da; na; an; an; nd; ba] /\
  base.size (list_bag banana ∩ list_bag bandana) = 4 /\
  unordered_bigram_multiset.intersect_size banana bandana = 1 /\
  unordered_bigram_multiset.sorensen_dice_coef banana bandana
    = Fin (2 # 11) /\
  lt (unordered_bigram_multiset.sorensen_dice_coef banana bandana)
     (sdc_formula (base.size (list_bag banana ∩ list_bag bandana))
                  (unordered_bigram_multiset.size banana)
                  (unordered_bigram_multiset.size bandana)) /\
  bigram_multiset.intersect_size
    (bigram_multiset.of_string (str "banana"))
    (bigram_multiset.of_string (str "bandana")) = 4 /\
  bigram_multiset.sorensen_dice_coef
    (bigram_multiset.of_string (str "banana"))
    (bigram_multiset.of_string (str "bandana")) = Fin (8 # 11) /\
  basic_bigrams.intersect_size
    (basic_bigrams.of_string (str "banana"))
    (basic_bigrams.of_string (str "bandana")) = 4 /\
  basic_bigrams.sorensen_dice_coef
    (basic_bigrams.of_string (str "banana"))
    (basic_bigrams.of_string (str "bandana")) = Fin (8 # 11).
Proof.
  cbv zeta. set (h := bucket_table.layout 13).
  assert (Hbag : forall s,
    list_bag (unordered_bigram_multiset.of_string h s) =
    list_bag (bigram_multiset.of_string s)).
  { intros s.
    unfold unordered_bigram_multiset.of_string, bigram_multiset.of_string.
    rewrite !list_bag_of_string; [reflexivity|..].
    - apply basic_bigram_multiset_facts.multiset_insert_perm.
    - apply basic_bigram_multiset_facts.unordered_insert_perm. }
  assert (Hsize : base.size
    (list_bag (unordered_bigram_multiset.of_string h (str "banana")) ∩
     list_bag (unordered_bigram_multiset.of_string h (str "bandana"))) = 4).
  { rewrite !Hbag. unfold list_bag.
    rewrite <- (Nat.add_0_l (base.size _)).
    rewrite <- (set_intersection_exact _ _ 0)
      by apply ordered_of_string_sorted.
    vm_compute. reflexivity. }
  split; [vm_compute; reflexivity|]. split; [vm_compute; reflexivity|].
  split; [exact Hsize|].
  split; [vm_compute; reflexivity|]. split; [vm_compute; reflexivity|].
  split; [rewrite Hsize; vm_compute; reflexivity|].
  split; [vm_compute; reflexivity|]. split; [vm_compute; reflexivity|].
  split; vm_compute; reflexivity.
Qed.

(** C4, where the code breaks it: the in-place [operator +=] with
    [other] aliasing [*this].  In the counted representation [p += p] on
    a non-empty profile that satisfies the invariant returns with a size
    of 3 * size(P), not size(P) + size(P).  In the ordered multiset
    [x += x] on a non-empty container inserts behind the iterator with
    which it walks the same container, which stays as it was up to the
    iterator: the loop does not reach [end()], and the call returns for
    no number of rounds.  [operator +], which unites into a copy, gives
    size(P) + size(P) for the same operand twice. *)
Theorem in_place_self_union_size (fuel : nat) (p : basic_bigrams.t)
    (x : bigram_multiset.t) :
  valid p -> 0 < basic_bigrams.size p ->
  length (basic_bigrams.m_impl p) + 2 <= fuel ->
  Sorted bigram_le (basic_bigram_multiset.m_impl x) ->
  0 < bigram_multiset.size x ->
  (exists p',
      basic_bigrams.plus_assign_self fuel p = Some p' /\
      basic_bigrams.size p' = 3 * basic_bigrams.size p /\
      basic_bigrams.size p' <> basic_bigrams.size p + basic_bigrams.size p) /\
  basic_bigrams.size (basic_bigrams.plus p p)
    = basic_bigrams.size p + basic_bigrams.size p /\
  (forall pos bigram,
      basic_bigram_multiset.m_impl x !! pos = Some bigram ->
      take (S pos) (multiset_insert bigram (basic_bigram_multiset.m_impl x))
        = take (S pos) (basic_bigram_multiset.m_impl x)) /\
  (forall rounds, bigram_multiset.plus_assign_self rounds x = None) /\
  bigram_multiset.size (bigram_multiset.plus x x)
    = bigram_multiset.size x + bigram_multiset.size x.
Proof.
  intros Hp Hpos Hfuel Hx Hxpos. split; [|split; [|split; [|split]]].
  - eexists. split; [apply plus_assign_self_doubles; [lia|exact Hfuel]|].
    pose proof (valid_size p Hp) as Hsize. unfold basic_bigrams.size in *.
    simpl. lia.
  - apply basic_bigrams_union.plus_size, Hp.
  - intros pos bigram. apply self_union_facts.multiset_insert_behind, Hx.
  - intros rounds. unfold bigram_multiset.plus_assign_self.
    unfold bigram_multiset.size in *.
    destruct (Nat.eqb_spec (basic_bigram_multiset.size x) 0) as [Hz|_]; [lia|].
    rewrite self_union_facts.self_insert_never_returns; [reflexivity|].
    exact Hxpos.
  - apply basic_bigram_multiset_facts.ms_plus_size.
    apply basic_bigram_multiset_facts.multiset_insert_perm.
Qed.

End departures.

Lemma in_place_self_union_size_witness :
  basic_bigrams_facts.valid profile_test.abcd /\
  0 < basic_bigrams.size profile_test.abcd /\
  Sorted bigram_le
    (basic_bigram_multiset.m_impl (bigram_multiset.of_string (str "abcd"))) /\
  0 < bigram_multiset.size (bigram_multiset.of_string (str "abcd")) /\
  (exists p',
      basic_bigrams.plus_assign_self 5 profile_test.abcd = Some p' /\
      basic_bigrams.size p' = 3 * basic_bigrams.size profile_test.abcd /\
      basic_bigrams.size p' <> 3 + 3) /\
  bigram_multiset.plus_assign_self 1000
    (bigram_multiset.of_string (str "abcd")) = None.
Proof.
  assert (Ha : basic_bigrams_facts.valid profile_test.abcd)
    by apply basic_bigrams_facts.of_string_valid.
  assert (Hpos : 0 < basic_bigrams.size profile_test.abcd)
    by (vm_compute; lia).
  assert (Hx : Sorted bigram_le
    (basic_bigram_multiset.m_impl (bigram_multiset.of_string (str "abcd"))))
    by apply bag_facts.ordered_of_string_sorted.
  assert (Hxpos : 0 < bigram_multiset.size
                        (bigram_multiset.of_string (str "abcd")))
    by (vm_compute; lia).
  destruct (in_place_self_union_size 5 profile_test.abcd
              (bigram_multiset.of_string (str "abcd")) Ha Hpos
              ltac:(vm_compute; lia) Hx Hxpos)
    as (Hcounted & _ & _ & Hordered & _).
  split; [exact Ha|]. split; [exact Hpos|]. split; [exact Hx|].
  split; [exact Hxpos|]. split; [exact Hcounted|]. apply Hordered.
Defined.

(** * The further properties at concrete inputs *)

Lemma union_keeps_invariant_witness :
  basic_bigrams_facts.valid profile_test.abcd /\
  basic_bigrams_facts.valid profile_test.bcd /\
  basic_bigrams_facts.valid
    (basic_bigrams.plus_assign profile_test.abcd profile_test.bcd).
Proof.
  assert (Ha : basic_bigrams_facts.valid profile_test.abcd)
    by apply basic_bigrams_facts.of_string_valid.
  assert (Hb : basic_bigrams_facts.valid profile_test.bcd)
    by apply basic_bigrams_facts.of_string_valid.
  split; [exact Ha|]. split; [exact Hb|].
  exact (proj1 (union_keeps_invariant profile_test.abcd profile_test.bcd
                  Ha Hb)).
Defined.

Lemma union_is_multiset_sum_witness :
  bag_facts.counted_bag
    (basic_bigrams.plus_assign profile_test.abcd profile_test.bcd) =
  bag_facts.counted_bag profile_test.abcd
    ⊎ bag_facts.counted_bag profile_test.bcd.
Proof.
  exact (proj1 (proj1 union_is_multiset_sum profile_test.abcd profile_test.bcd
                  (basic_bigrams_facts.of_string_valid _)
                  (basic_bigrams_facts.of_string_valid _))).
Defined.

Lemma counted_intersect_size_exact_witness :
  basic_bigrams_facts.valid profile_test.abcd /\
  basic_bigrams_facts.valid profile_test.bcd /\
  basic_bigrams.intersect_size profile_test.abcd profile_test.bcd =
    sum_list_with
      (fun bc => Nat.min bc.2 (basic_bigrams.count bc.1 profile_test.bcd))
      (basic_bigrams.m_impl profile_test.abcd).
Proof.
  assert (Ha : basic_bigrams_facts.valid profile_test.abcd)
    by apply basic_bigrams_facts.of_string_valid.
  assert (Hb : basic_bigrams_facts.valid profile_test.bcd)
    by apply basic_bigrams_facts.of_string_valid.
  split; [exact Ha|]. split; [exact Hb|].
  exact (proj2 (counted_intersect_size_exact profile_test.abcd
                  profile_test.bcd Ha Hb)).
Defined.

Lemma ordered_intersect_size_exact_witness :
  bigram_multiset.intersect_size
    (bigram_multiset.of_string (str "abcd"))
    (bigram_multiset.of_string (str "bcd")) =
  size (bag_facts.list_bag (bigram_multiset.of_string (str "abcd"))
        ∩ bag_facts.list_bag (bigram_multiset.of_string (str "bcd"))).
Proof.
  exact (proj1 (proj1 ordered_intersect_size_exact _ _
                  (proj2 ordered_intersect_size_exact (str "abcd"))
                  (proj2 ordered_intersect_size_exact (str "bcd")))).
Defined.

Lemma representations_agree_witness :
  basic_bigrams.sorensen_dice_coef profile_test.abcd profile_test.bcd =
  bigram_multiset.sorensen_dice_coef
    (bigram_multiset.of_string (str "abcd"))
    (bigram_multiset.of_string (str "bcd")).
Proof. exact (proj2 representations_agree (str "abcd") (str "bcd")). Defined.

Lemma sorensen_dice_coef_one_iff_equal_witness :
  basic_bigrams_facts.valid profile_test.abcd /\
  ge (basic_bigrams.sorensen_dice_coef profile_test.abcd profile_test.abcd)
     one.
Proof.
  assert (Ha : basic_bigrams_facts.valid profile_test.abcd)
    by apply basic_bigrams_facts.of_string_valid.
  split; [exact Ha|].
  apply (proj1 (sorensen_dice_coef_one_iff_equal profile_test.abcd
                  profile_test.abcd Ha Ha)).
  split; [reflexivity|]. vm_compute. lia.
Defined.

Lemma multiset_sorensen_dice_coef_one_witness :
  ge (basic_bigram_multiset.sorensen_dice_coef
        (bigram_multiset.of_string (str "abcd"))
        (bigram_multiset.of_string (str "abcd")))
     one.
Proof.
  apply (proj1 (multiset_sorensen_dice_coef_one
                  (bigram_multiset.of_string (str "abcd"))
                  (bigram_multiset.of_string (str "abcd")))).
  vm_compute. lia.
Defined.

Lemma union_commutative_associative_witness :
  basic_bigrams.plus profile_test.abcd profile_test.bcd =
  basic_bigrams.plus profile_test.bcd profile_test.abcd.
Proof.
  exact (proj1 (proj1 union_commutative_associative
                  profile_test.abcd profile_test.bcd profile_test.abcd
                  (basic_bigrams_facts.of_string_valid _)
                  (basic_bigrams_facts.of_string_valid _)
                  (basic_bigrams_facts.of_string_valid _))).
Defined.

Lemma self_union_triples_size_witness :
  basic_bigrams_facts.valid profile_test.abcd /\
  0 < basic_bigrams.size profile_test.abcd /\
  length (basic_bigrams.m_impl profile_test.abcd) + 2 <= 5 /\
  exists p',
    basic_bigrams.plus_assign_self 5 profile_test.abcd = Some p' /\
    basic_bigrams.size p' = 3 * basic_bigrams.size profile_test.abcd.
Proof.
  assert (Ha : basic_bigrams_facts.valid profile_test.abcd)
    by apply basic_bigrams_facts.of_string_valid.
  assert (Hpos : 0 < basic_bigrams.size profile_test.abcd)
    by (vm_compute; lia).
  assert (Hfuel : length (basic_bigrams.m_impl profile_test.abcd) + 2 <= 5)
    by (vm_compute; lia).
  split; [exact Ha|]. split; [exact Hpos|]. split; [exact Hfuel|].
  destruct (self_union_triples_size 5 profile_test.abcd Ha Hpos Hfuel)
    as (p' & Hself & _ & _ & Hsize & _).
  exists p'. split; [exact Hself|exact Hsize].
Defined.

Lemma hash_bigram_injective_witness :
  hash_bigram.hash 1 8 (97, 98)%Z = hash_bigram.hash 1 8 (97, 98)%Z /\
  hash_bigram.hash 1 8 (97, 98)%Z = 25185%Z /\
  ((97, 98)%Z : bigram_t) = (97, 98)%Z.
Proof.
  split; [reflexivity|]. split; [reflexivity|].
  apply (hash_bigram_injective 1 8 (97, 98)%Z (97, 98)%Z);
    first [reflexivity | simpl; lia | discriminate].
Defined.

Lemma hash_bigram_negative_first_witness :
  hash_bigram.hash 1 8 (-61, 97)%Z = hash_bigram.hash 1 8 (-61, 98)%Z.
Proof.
  apply (hash_bigram_negative_first 1 8 (-61)%Z 97%Z 98%Z);
    first [reflexivity | simpl; lia | discriminate].
Defined.

Lemma lookup_outside_triangle_fails_witness :
  matcher_spec.holds unit_test.text unit_test.tokens.*1 /\
  length unit_test.tokens.*1 <= 0 + 9 /\
  basic_sequence_matcher.run
    (basic_sequence_matcher.bigrams false 0 9) unit_test.text = None.
Proof.
  assert (Hlen : length unit_test.tokens.*1 <= 0 + 9) by (vm_compute; lia).
  split; [exact unit_test.text_holds|]. split; [exact Hlen|].
  exact (proj1 (proj2 (lookup_outside_triangle_fails false unit_test.text
                         unit_test.tokens.*1 0 9 unit_test.text_holds Hlen))).
Defined.

Lemma reported_match_accessors_witness :
  exists it,
    reported unit_test.tokens.*1
      (basic_sequence_matcher.m_strip_ixs unit_test.text)
      unit_test.query (Fin (7 # 10)) it /\
    basic_sequence_matcher.m_j it < length unit_test.tokens.*1 /\
    matcher_spec.position it = (2, 3) /\
    basic_sequence_matcher.match_begin it
      < basic_sequence_matcher.match_end it /\
    ltb (basic_sequence_matcher.match_sdc it) (Fin (7 # 10)) = false.
Proof.
  destruct (basic_sequence_matcher.begin false unit_test.query (Fin (7 # 10))
              unit_test.text) as [[it m']|] eqn:Hbegin;
    [|vm_compute in Hbegin; discriminate].
  assert (Hpos : matcher_spec.position it = (2, 3)).
  { pose proof unit_test.first_match as Hfirst. rewrite Hbegin in Hfirst.
    simpl in Hfirst. congruence. }
  assert (Hrep : reported unit_test.tokens.*1
                   (basic_sequence_matcher.m_strip_ixs unit_test.text)
                   unit_test.query (Fin (7 # 10)) it).
  { eapply reported_begin;
      [exact unit_test.text_holds|reflexivity|exact Hbegin]. }
  assert (Hj : basic_sequence_matcher.m_j it < length unit_test.tokens.*1).
  { injection Hpos as _ ->. vm_compute. lia. }
  exists it. split; [exact Hrep|]. split; [exact Hj|]. split; [exact Hpos|].
  destruct (reported_match_accessors _ _ _ _ it Hrep Hj)
    as (Hlt & _ & _ & _ & _ & _ & Hsdc & _).
  split; [exact Hlt|exact Hsdc].
Defined.

Lemma no_match_among_strip_tokens_witness :
  matcher_spec.holds
    (basic_sequence_matcher.empty (B:=basic_bigrams.t)) [] /\
  matcher_spec.all_matches false basic_bigrams.empty zero
    (basic_sequence_matcher.empty (B:=basic_bigrams.t)) = Some [].
Proof.
  split; [exact matrix_facts.holds_empty|].
  refine (proj1 (proj2 (no_match_among_strip_tokens false
                          basic_sequence_matcher.empty [] basic_bigrams.empty
                          zero matrix_facts.holds_empty _))).
  simpl. intros j Hj. lia.
Defined.

Lemma iterator_order_witness :
  exists e m',
    basic_sequence_matcher.end_ false unit_test.text = Some (e, m') /\
    forall it,
      reported unit_test.tokens.*1
        (basic_sequence_matcher.m_strip_ixs unit_test.text)
        unit_test.query (Fin (7 # 10)) it ->
      basic_sequence_matcher.iter_le it e = true.
Proof.
  destruct (basic_sequence_matcher.end_ false unit_test.text)
    as [[e m']|] eqn:Hend; [|vm_compute in Hend; discriminate].
  exists e, m'. split; [reflexivity|]. intros it Hrep.
  exact (proj1 (proj2 (proj2 (iterator_order unit_test.tokens.*1
                                (basic_sequence_matcher.m_strip_ixs
                                   unit_test.text)))
                  unit_test.query (Fin (7 # 10)) it e unit_test.text m' false
                  Hrep unit_test.text_holds Hend)).
Defined.

Lemma push_back_keeps_earlier_matches_witness :
  matcher_spec.holds unit_test.text unit_test.tokens.*1 /\
  basic_bigrams_facts.valid profile_test.abcd /\
  basic_bigrams_facts.valid unit_test.query /\
  (0 < 7 # 10)%Q /\
  matcher_spec.holds
    (basic_sequence_matcher.push_back profile_test.abcd false unit_test.text)
    (unit_test.tokens.*1 ++ [profile_test.abcd]).
Proof.
  assert (Ha : basic_bigrams_facts.valid profile_test.abcd)
    by apply basic_bigrams_facts.of_string_valid.
  assert (Hth : (0 < 7 # 10)%Q) by reflexivity.
  split; [exact unit_test.text_holds|]. split; [exact Ha|].
  split; [exact unit_test.query_valid|]. split; [exact Hth|].
  exact (proj1 (push_back_keeps_earlier_matches false unit_test.text
                  unit_test.tokens.*1 profile_test.abcd false unit_test.query
                  (7 # 10) unit_test.text_holds Ha unit_test.query_valid Hth)).
Defined.

Lemma higher_threshold_fewer_matches_witness :
  matcher_spec.holds unit_test.text unit_test.tokens.*1 /\
  basic_bigrams_facts.valid unit_test.query /\
  (0 < 1 # 2)%Q /\ (1 # 2 <= 7 # 10)%Q /\
  exists l1 l2,
    matcher_spec.all_matches false unit_test.query (Fin (1 # 2)) unit_test.text
      = Some l1 /\
    matcher_spec.all_matches false unit_test.query (Fin (7 # 10))
      unit_test.text = Some l2 /\
    sublist l2 l1.
Proof.
  assert (Hth : (0 < 1 # 2)%Q) by reflexivity.
  assert (Hle : (1 # 2 <= 7 # 10)%Q) by discriminate.
  split; [exact unit_test.text_holds|]. split; [exact unit_test.query_valid|].
  split; [exact Hth|]. split; [exact Hle|].
  exact (higher_threshold_fewer_matches false unit_test.text
           unit_test.tokens.*1 unit_test.query (1 # 2) (7 # 10)
           unit_test.text_holds unit_test.query_valid Hth Hle).
Defined.

Lemma size_lookup_builds_no_profile_witness :
  exists n m',
    basic_sequence_matcher.run
      (basic_sequence_matcher.bigrams_size false 2 3) unit_test.text
      = Some (n, m') /\
    basic_sequence_matcher.m_strip_ixs m' =
      basic_sequence_matcher.m_strip_ixs unit_test.text.
Proof.
  destruct (basic_sequence_matcher.run
              (basic_sequence_matcher.bigrams_size false 2 3) unit_test.text)
    as [[n m']|] eqn:Hrun; [|vm_compute in Hrun; discriminate].
  exists n, m'. split; [reflexivity|].
  exact (proj1 (size_lookup_builds_no_profile false unit_test.text m' 2 3 n
                  Hrun)).
Defined.

Lemma lookup_again_hits_cache_witness :
  exists p m',
    basic_sequence_matcher.run
      (basic_sequence_matcher.bigrams false 2 3) unit_test.text
      = Some (p, m') /\
    basic_sequence_matcher.run
      (basic_sequence_matcher.bigrams false 2 3) m' = Some (p, m').
Proof.
  destruct (basic_sequence_matcher.run
              (basic_sequence_matcher.bigrams false 2 3) unit_test.text)
    as [[p m']|] eqn:Hrun; [|vm_compute in Hrun; discriminate].
  exists p, m'. split; [reflexivity|].
  exact (proj1 (lookup_again_hits_cache false unit_test.text m' 2 3) p Hrun).
Defined.

Lemma exact_window_is_reported_witness :
  let q := basic_bigrams.unite (unit_test.bigrams_of "world")
             [unit_test.bigrams_of "  "; unit_test.bigrams_of "Hello"] in
  matcher_spec.holds unit_test.text unit_test.tokens.*1 /\
  basic_bigrams_facts.valid q /\
  0 < basic_bigrams.size q /\
  (0 < 9 # 10 <= 1)%Q /\
  2 + 3 < length unit_test.tokens.*1 /\
  (3 ∉ basic_sequence_matcher.m_strip_ixs unit_test.text) /\
  (3 + 2 ∉ basic_sequence_matcher.m_strip_ixs unit_test.text) /\
  matcher_spec.union_at unit_test.tokens.*1 2 3 = q /\
  exists l,
    matcher_spec.all_matches false q (Fin (9 # 10)) unit_test.text = Some l /\
    (2, 3) ∈ l.
Proof.
  intros q.
  assert (Hvalid : forall s, basic_bigrams_facts.valid (unit_test.bigrams_of s))
    by (intros s; apply basic_bigrams_facts.of_string_valid).
  assert (Hq : basic_bigrams_facts.valid q).
  { apply basic_bigrams_union.unite_valid; repeat constructor; apply Hvalid. }
  assert (Hpos : 0 < basic_bigrams.size q) by (vm_compute; lia).
  assert (Hth : (0 < 9 # 10 <= 1)%Q) by (split; reflexivity || discriminate).
  assert (Hij : 2 + 3 < length unit_test.tokens.*1) by (vm_compute; lia).
  assert (Hb : 3 ∉ basic_sequence_matcher.m_strip_ixs unit_test.text)
    by (apply (bool_decide_unpack _); vm_compute; exact I).
  assert (He : 3 + 2 ∉ basic_sequence_matcher.m_strip_ixs unit_test.text)
    by (apply (bool_decide_unpack _); vm_compute; exact I).
  assert (Hcount : forall b,
    basic_bigrams.count b q =
      sum_list_with (basic_bigrams.count b)
        (matcher_spec.window unit_test.tokens.*1 2 3)).
  { intros b. unfold q. cbn [basic_bigrams.unite].
    rewrite !basic_bigrams_union.plus_assign_count
      by (try apply basic_bigrams_union.plus_assign_valid; apply Hvalid).
    change (matcher_spec.window unit_test.tokens.*1 2 3)
      with [unit_test.bigrams_of "Hello"; unit_test.bigrams_of "  ";
            unit_test.bigrams_of "world"].
    cbn [sum_list_with]. lia. }
  destruct (exact_window_is_reported false unit_test.text unit_test.tokens.*1
              q (9 # 10) 2 3 unit_test.text_holds Hq Hpos Hth Hij Hb He Hcount)
    as (Heq & _ & Hall).
  split; [exact unit_test.text_holds|].
  repeat (split; [assumption|]). exact Hall.
Defined.

Lemma zero_threshold_reports_every_window_witness :
  matcher_spec.holds unit_test.text unit_test.tokens.*1 /\
  basic_bigrams_facts.valid unit_test.query /\
  matcher_spec.all_matches false unit_test.query zero unit_test.text =
    Some (filter
            (fun c =>
               (c.2 ∉ basic_sequence_matcher.m_strip_ixs unit_test.text) /\
               (c.2 + c.1 ∉ basic_sequence_matcher.m_strip_ixs unit_test.text))
            (matcher_spec.cells (length unit_test.tokens.*1))).
Proof.
  split; [exact unit_test.text_holds|]. split; [exact unit_test.query_valid|].
  exact (proj2 (zero_threshold_reports_every_window false unit_test.text
                  unit_test.tokens.*1 unit_test.query unit_test.text_holds
                  unit_test.query_valid)).
Defined.
